(** * fast-gector: the iterative tagging predictor ([src/predictor.py])

    A shallow embedding of the [Predictor] class: the tag decoder
    ([get_label_action]), the per-sentence decoding of a tagger row
    ([postprocess]), the merge of proposals into the batch
    ([update_final_batch]) and the refinement loop ([handle_batch]).

    Conventions.
    - Python [int] is [Z]; positions in a list that come from [range(len(..))]
      or [enumerate] are [nat].
    - Python [str] is [string]; a sentence (a list of words) is [list string].
    - Probabilities are Python floats that are only stored and compared with
      [<]; they are modelled by rationals [Q] with the exact order (no NaN).
    - An exception is a value of [exn]; a computation that may raise returns
      [result A].
    - Names imported from modules that are not part of [predictor.py]
      (label constants, the edit applier, the vocabulary, the tokenizer and
      the tagging model) are fields of the records [Helpers] and [Predictor];
      every theorem quantifies over them. *)

From Stdlib Require Import ZArith QArith String Ascii List Lia DecimalString.
From stdpp Require Import base option list gmap strings.

Open Scope string_scope.
Open Scope list_scope.
Open Scope Z_scope.

(** ** Exceptions and the error monad *)

Inductive exn : Set :=
| ValueError
| IndexError
| KeyError
| TypeError
| UnboundLocalError.

Inductive result (A : Type) : Type :=
| Ok (a : A)
| Raise (e : exn).

Arguments Ok {A} a.
Arguments Raise {A} e.

#[global] Instance result_ret : MRet result := fun _ a => Ok a.
#[global] Instance result_bind : MBind result := fun _ _ f m =>
  match m with
  | Ok a => f a
  | Raise e => Raise e
  end.

(** [for x in l: acc = body acc x], stopping at the first exception. *)
Fixpoint foldM {A B : Type} (body : B → A → result B) (acc : B) (l : list A)
  : result B :=
  match l with
  | [] => Ok acc
  | x :: l' => acc' ← body acc x; foldM body acc' l'
  end.

(** [[f x for x in l]], stopping at the first exception. *)
Fixpoint forM {A B : Type} (f : A → result B) (l : list A) : result (list B) :=
  match l with
  | [] => Ok []
  | x :: l' => y ← f x; ys ← forM f l'; Ok (y :: ys)
  end.

(** ** Python primitives used by the predictor *)

(** [l[i]] for an [int] index: negative indices count from the end, an index
    out of range raises [IndexError]. *)
Definition py_getitem {A : Type} (l : list A) (i : Z) : result A :=
  let n := Z.of_nat (length l) in
  let j := if i <? 0 then i + n else i in
  if (j <? 0) || (n <=? j) then Raise IndexError
  else match l !! Z.to_nat j with
       | Some x => Ok x
       | None => Raise IndexError
       end.

(** [max(l)] on a list of ints; [max([])] raises [ValueError]. *)
Definition py_max (l : list Z) : result Z :=
  match l with
  | [] => Raise ValueError
  | x :: l' => Ok (fold_left Z.max l' x)
  end.

(** [s.startswith(p)] *)
Definition startswith (s p : string) : bool := String.prefix p s.

(** [s.index(sub)]: position of the first occurrence, [ValueError] if none. *)
Definition str_index (s sub : string) : result nat :=
  match String.index 0 sub s with
  | Some i => Ok i
  | None => Raise ValueError
  end.

(** [s[i:]] for [0 <= i] *)
Definition str_from (s : string) (i : nat) : string :=
  String.substring i (String.length s - i) s.

(** [x < y] on floats *)
Definition Qltb (x y : Q) : bool := negb (Qle_bool y x).

(** The characters of the ASCII range that [\s] matches in a [str] pattern:
    tab, line feed, vertical tab, form feed, carriage return, the four
    separators 0x1c-0x1f and the space. Words are taken to be ASCII. *)
Definition is_space (c : ascii) : bool :=
  let n := nat_of_ascii c in
  ((9 <=? n) && (n <=? 13) || (28 <=? n) && (n <=? 32))%nat.

Fixpoint string_exists (p : ascii → bool) (s : string) : bool :=
  match s with
  | EmptyString => false
  | String c s' => p c || string_exists p s'
  end.

(** [re.search("\s+", token)] is truthy iff some character is a space. *)
Definition re_search_space (token : string) : bool := string_exists is_space token.

(** ** The collaborators of [predictor.py] *)

(** A sentence is a list of words. *)
Abbreviation sentence := (list string).

(** An edit: [(start, end, replacement, confidence)]. *)
Abbreviation action := (Z * Z * string * Q)%type.

(** The names [predictor.py] imports from [utils.helpers], which is not
    part of the file: three sentinel labels, the start marker and the edit
    applier. *)
Record Helpers : Type := {
  KEEP_LABEL : string;
  PAD_LABEL : string;
  UNK_LABEL : string;
  START_TOKEN : string;
  get_target_sent_by_edits : sentence → list action → sentence
}.

(** One row of what the tagger returns for a sentence, as [postprocess]
    reads its four parallel lists through [zip]. *)
Record row : Type := {
  truncated_seq_length : Z;
  label_probs : list Q;
  label_ids : list Z;
  incor_prob : Q
}.

(** The attributes of [self] that the methods read.
    - [keep_id] is [self.vocab.correct_vocab["tag2id"][KEEP_LABEL]] and
      [id2tag] is [self.vocab.correct_vocab["id2tag"]]; the vocabulary class
      is not part of the file, and the lookup of a label id is taken to be
      total.
    - [encode_length words] is the third component of
      [self.mismatched_tokenizer.encode(words, ...)].
    - [model n batch] is what [predict] returns at the [n]-th pass of the
      loop for the batch built from the (start-prefixed) word lists [batch]:
      [(label_probs, label_ids, max_detect_incor_probs)]. Subword ids,
      offsets and collation are functions of those word lists and are not
      represented. The pass number lets the model be stateful. *)
Record Predictor : Type := {
  iteration_count : Z;
  min_seq_len : Z;
  min_error_probability : Q;
  debug_force_edit : bool;
  keep_id : Z;
  id2tag : Z → string;
  encode_length : list string → Z;
  model : nat → list (list string) → list (list Q) * list (list Z) * list Q
}.

Section Predictor.

Variable hp : Helpers.
Variable self : Predictor.

(** ** [get_label_action] (lines 296-326) *)

(** The names [start_pos], [end_pos] are bound only in the first two
    branches of the [if] at line 308; [None] stands for "unbound". Line 324
    reads them after [processed_label] has been computed, so a failing
    [label.index("_")] is raised first. *)
Definition get_label_action (token : string) (idx : Z) (label_prob : Q)
    (label : string) : result (option action) :=
  if Qltb label_prob (min_error_probability self) then Ok None
  else if bool_decide (label ∈ [UNK_LABEL hp; PAD_LABEL hp; KEEP_LABEL hp])
  then Ok None
  else
    let pos : option (Z * Z) :=
      if startswith label "$REPLACE_" || startswith label "$TRANSFORM_"
         || bool_decide (label = "$DELETE")
      then Some (idx, idx + 1)
      else if startswith label "$APPEND_" || startswith label "$MERGE_"
      then Some (idx + 1, idx + 1)
      else None in
    processed_label ←
      (if bool_decide (label = "$DELETE") then Ok ""
       else if startswith label "$TRANSFORM_" || startswith label "$MERGE_"
       then Ok label
       else i ← str_index label "_"; Ok (str_from label (i + 1)));
    match pos with
    | Some (start_pos, end_pos) =>
        Ok (Some (start_pos - 1, end_pos - 1, processed_label, label_prob))
    | None => Raise UnboundLocalError
    end.

(** ** [postprocess] (lines 191-271) *)

(** [range(start, stop, step)] for a positive [step]. *)
Definition py_range3 (start stop step : Z) : list Z :=
  (λ k, start + step * k) <$> seqZ 0 ((stop - start + step - 1) `div` step).

(** [str(i)] for an [int]. *)
Definition str_of_int (i : Z) : string :=
  DecimalString.NilZero.string_of_int (Z.to_int i).

(** Lines 217-223: with the debug flag set and more than three words, one
    forced replacement at the positions 2, 5, 8 below [min(len(tokens), 10)]. *)
Definition forced_edits (tokens : sentence) : list action :=
  if debug_force_edit self && (3 <? Z.of_nat (length tokens)) then
    (λ i, (i, i + 1, "FORCED_EDIT_" +:+ str_of_int i, 1%Q))
      <$> py_range3 2 (Z.min (Z.of_nat (length tokens)) 10) 3
  else [].

(** The body of the loop at lines 237-260 for one position [idx]: the
    token is read first, then the label id; [KEEP] and whitespace positions
    are passed over; every other position is handed to the decoder. *)
Definition scan_step (tokens : sentence) (r : row) (edits : list action)
    (idx : Z) : result (list action) :=
  token ← (if bool_decide (idx = 0) then Ok (START_TOKEN hp)
           else py_getitem tokens (idx - 1));
  label_id ← py_getitem (label_ids r) idx;
  if bool_decide (label_id = keep_id self) then Ok edits
  else if re_search_space token then Ok edits
  else
    let label := id2tag self label_id in
    label_prob ← py_getitem (label_probs r) idx;
    act ← get_label_action token idx label_prob label;
    match act with
    | None => Ok edits
    | Some a => Ok (edits ++ [a])
    end.

(** [for idx in range(truncated_seq_length): ...] *)
Definition scan_edits (tokens : sentence) (r : row) (edits : list action)
  : result (list action) :=
  foldM (scan_step tokens r) edits (seqZ 0 (truncated_seq_length r)).

(** Lines 197-260 for one sentence. [None]: one of the two [continue]
    statements at lines 229 and 235 was taken and the sentence is kept as it
    is; [Some edits]: the scan ran to its end and line 261 was reached with
    [edits]. [max(label_ids)] is first evaluated by the print at line 204;
    the other prints only read [tokens] and look ids up in the vocabulary,
    which is a total function here. *)
Definition sentence_edits (tokens : sentence) (r : row)
  : result (option (list action)) :=
  m ← py_max (label_ids r);
  let edits := forced_edits tokens in
  if bool_decide (m = keep_id self) && negb (debug_force_edit self) then Ok None
  else if Qltb (incor_prob r) (min_error_probability self) then Ok None
  else edits' ← scan_edits tokens r edits; Ok (Some edits').

(** Lines 263-270: the applier is called only for a non-empty edit list. *)
Definition postprocess_one (tokens : sentence) (r : row) : result sentence :=
  e ← sentence_edits tokens r;
  match e with
  | Some (a :: edits) => Ok (get_target_sent_by_edits hp tokens (a :: edits))
  | _ => Ok tokens
  end.

(** [zip] of the four per-sentence lists, as long as the shortest. *)
Fixpoint zip_rows (lens : list Z) (probs : list (list Q)) (ids : list (list Z))
    (incor : list Q) : list row :=
  match lens, probs, ids, incor with
  | n :: lens', p :: probs', i :: ids', c :: incor' =>
      {| truncated_seq_length := n; label_probs := p; label_ids := i;
         incor_prob := c |} :: zip_rows lens' probs' ids' incor'
  | _, _, _, _ => []
  end.

Definition postprocess_rows (batch : list sentence) (rows : list row)
  : result (list sentence) :=
  forM (λ tr, postprocess_one tr.1 tr.2) (zip batch rows).

Definition postprocess (batch : list sentence) (truncated_seq_lengths : list Z)
    (batch_label_probs : list (list Q)) (batch_label_ids : list (list Z))
    (batch_incor_probs : list Q) : result (list sentence) :=
  postprocess_rows batch
    (zip_rows truncated_seq_lengths batch_label_probs batch_label_ids
       batch_incor_probs).

(** ** [preprocess] (lines 173-189) *)

(** [None] is the bare [[]] returned at line 176 when no sequence is
    non-empty. Otherwise the batch handed to the model is represented by
    the start-prefixed word lists, next to the truncated lengths. *)
Definition preprocess (seqs : list sentence)
  : option (list (list string) * list Z) :=
  let seq_lens := length <$> filter (λ seq : sentence, seq ≠ []) seqs in
  match seq_lens with
  | [] => None
  | _ =>
      Some ((λ words, START_TOKEN hp :: words) <$> seqs,
            (λ words, encode_length self (START_TOKEN hp :: words)) <$> seqs)
  end.

(** ** [update_final_batch] (lines 273-294) *)

(** The objects the loop at line 279 updates: the batch, the new list of
    active ids, the counter and the history dictionary. *)
Record merge_state : Type := {
  m_final_batch : list sentence;
  new_pred_ids : list nat;
  total_updated : Z;
  m_prev_preds_dict : gmap nat (list sentence)
}.

Definition list_item {A : Type} (l : list A) (i : nat) : result A :=
  match l !! i with
  | Some x => Ok x
  | None => Raise IndexError
  end.

Definition dict_item {A : Type} (d : gmap nat A) (k : nat) : result A :=
  match d !! k with
  | Some x => Ok x
  | None => Raise KeyError
  end.

(** The body of the loop for the [i]-th active id [ori_id]. *)
Definition update_one (pred_batch : list sentence) (i ori_id : nat)
    (st : merge_state) : result merge_state :=
  ori_tokens ← list_item (m_final_batch st) ori_id;
  pred_tokens ← list_item pred_batch i;
  prev_preds ← dict_item (m_prev_preds_dict st) ori_id;
  if bool_decide (ori_tokens ≠ pred_tokens) then
    if bool_decide (pred_tokens ∉ prev_preds) then
      Ok {| m_final_batch := <[ori_id := pred_tokens]> (m_final_batch st);
            new_pred_ids := (new_pred_ids st ++ [ori_id]);
            total_updated := total_updated st + 1;
            m_prev_preds_dict :=
              <[ori_id := (prev_preds ++ [pred_tokens])]> (m_prev_preds_dict st) |}
    else
      Ok {| m_final_batch := <[ori_id := pred_tokens]> (m_final_batch st);
            new_pred_ids := new_pred_ids st;
            total_updated := total_updated st + 1;
            m_prev_preds_dict := m_prev_preds_dict st |}
  else Ok st.

(** [for i, ori_id in enumerate(pred_ids): ...], from position [i] on. *)
Fixpoint update_loop (pred_batch : list sentence) (i : nat) (ids : list nat)
    (st : merge_state) : result merge_state :=
  match ids with
  | [] => Ok st
  | ori_id :: ids' =>
      st' ← update_one pred_batch i ori_id st;
      update_loop pred_batch (S i) ids' st'
  end.

Definition update_final_batch (final_batch : list sentence) (pred_ids : list nat)
    (pred_batch : list sentence) (prev_preds_dict : gmap nat (list sentence))
  : result merge_state :=
  update_loop pred_batch 0 pred_ids
    {| m_final_batch := final_batch; new_pred_ids := [];
       total_updated := 0; m_prev_preds_dict := prev_preds_dict |}.

(** ** [handle_batch] (lines 132-161) *)

(** The variables the refinement loop carries from one pass to the next. *)
Record loop_state : Type := {
  final_batch : list sentence;
  pred_ids : list nat;
  prev_preds_dict : gmap nat (list sentence);
  total_updates : Z
}.

(** The first half of a pass, lines 144-153: the proposals for the active
    sentences. Unpacking the bare [[]] of [preprocess] into two names at
    line 145 raises [ValueError]. [None] is the [break] at line 147, taken
    when [batch_input_dict] is falsy; the collated batch is represented by
    the list of the word lists it is made from. *)
Definition tagging (n_iter : nat) (st : loop_state)
  : result (option (list sentence)) :=
  ori_batch ← forM (list_item (final_batch st)) (pred_ids st);
  match preprocess ori_batch with
  | None => Raise ValueError
  | Some (batch_input_dict, truncated_seq_lengths) =>
      match batch_input_dict with
      | [] => Ok None
      | _ =>
          let '(label_probs, label_ids, max_detect_incor_probs) :=
            model self n_iter batch_input_dict in
          pred_batch ← postprocess ori_batch truncated_seq_lengths label_probs
                         label_ids max_detect_incor_probs;
          Ok (Some pred_batch)
      end
  end.

(** One pass of the loop, lines 144-160. The flag is [true] when the pass
    ends in one of the two [break] statements. *)
Definition iteration (n_iter : nat) (st : loop_state)
  : result (loop_state * bool) :=
  match tagging n_iter st with
  | Raise e => Raise e
  | Ok None => Ok (st, true)
  | Ok (Some pred_batch) =>
      m ← update_final_batch (final_batch st) (pred_ids st) pred_batch
            (prev_preds_dict st);
      Ok ({| final_batch := m_final_batch m;
             pred_ids := new_pred_ids m;
             prev_preds_dict := m_prev_preds_dict m;
             total_updates := total_updates st + total_updated m |},
          bool_decide (new_pred_ids m = []))
  end.

(** [for n_iter in range(self.iteration_count)], with [fuel] passes left. *)
Fixpoint loop (fuel n_iter : nat) (st : loop_state) : result loop_state :=
  match fuel with
  | O => Ok st
  | S fuel' =>
      match iteration n_iter st with
      | Raise e => Raise e
      | Ok (st', stop) => if stop then Ok st' else loop fuel' (S n_iter) st'
      end
  end.

(** Lines 133-141: the state before the first pass. *)
Definition init_state (full_batch : list sentence) : loop_state :=
  let final_batch := full_batch in
  let prev_preds_dict : gmap nat (list sentence) :=
    list_to_map (imap (λ idx sent, (idx, [sent])) final_batch) in
  let short_skip_id_set : gset nat :=
    list_to_set
      ((imap (λ idx sent, (idx, sent)) final_batch)
         ≫= (λ p : nat * sentence,
               if Z.of_nat (length p.2) <? min_seq_len self then [p.1] else [])) in
  let pred_ids :=
    filter (λ idx, idx ∉ short_skip_id_set) (seq 0 (length full_batch)) in
  {| final_batch := final_batch; pred_ids := pred_ids;
     prev_preds_dict := prev_preds_dict; total_updates := 0 |}.

Definition handle_batch (full_batch : list sentence)
  : result (list sentence * Z) :=
  st ← loop (Z.to_nat (iteration_count self)) 0 (init_state full_batch);
  Ok (final_batch st, total_updates st).

End Predictor.

(** ** The same methods over a store of list objects

    [handle_batch] receives a reference to a list object whose items are
    references to the sentence lists of the caller. This second embedding
    keeps the references: a list object lives at a location of the store,
    [full_batch[:]] allocates a new object, [final_batch[ori_id] = ...]
    writes into the object [final_batch] refers to, and two sequences are
    compared by the values found at their locations. *)

Module Refs.

Abbreviation loc := nat.

(** A list object: a sentence (its items are immutable [str] values) or a
    list of references to sentences. *)
Inductive obj : Type :=
| OWords (ws : sentence)
| ORefs (rs : list loc).

Abbreviation store := (list obj).

(** A computation reads and writes the store; the store outlives an
    exception. *)
Definition M (A : Type) : Type := store → result A * store.

Definition ret {A : Type} (a : A) : M A := λ σ, (Ok a, σ).

Definition bind {A B : Type} (m : M A) (k : A → M B) : M B := λ σ,
  match m σ with
  | (Ok a, σ') => k a σ'
  | (Raise e, σ') => (Raise e, σ')
  end.

Definition lift {A : Type} (r : result A) : M A := λ σ, (r, σ).

(** A new list object. *)
Definition alloc (o : obj) : M loc := λ σ, (Ok (length σ), (σ ++ [o])).

Definition read_words (l : loc) : M sentence := λ σ,
  match σ !! l with
  | Some (OWords ws) => (Ok ws, σ)
  | _ => (Raise TypeError, σ)
  end.

Definition read_refs (l : loc) : M (list loc) := λ σ,
  match σ !! l with
  | Some (ORefs rs) => (Ok rs, σ)
  | _ => (Raise TypeError, σ)
  end.

(** [b[i] = r] on the list of references at [b]. *)
Definition set_item (b : loc) (i : nat) (r : loc) : M unit := λ σ,
  match σ !! b with
  | Some (ORefs rs) =>
      if bool_decide (i < length rs)%nat
      then (Ok (), <[b := ORefs (<[i := r]> rs)]> σ)
      else (Raise IndexError, σ)
  | _ => (Raise TypeError, σ)
  end.

Fixpoint forS {A B : Type} (f : A → M B) (l : list A) : M (list B) :=
  match l with
  | [] => ret []
  | x :: l' => bind (f x) (λ y, bind (forS f l') (λ ys, ret (y :: ys)))
  end.

Section Predictor.

Variable hp : Helpers.
Variable self : Predictor.

(** [postprocess], lines 194-270, for one sentence: the result is the
    reference [tokens] itself unless the applier is called, whose result is
    a new list. The applier is given the words of [tokens] and does not
    write to the store. *)
Definition postprocess_one (tokens : loc) (r : row) : M loc :=
  bind (read_words tokens) (λ ws,
  bind (lift (sentence_edits hp self ws r)) (λ e,
  match e with
  | Some (a :: edits) =>
      alloc (OWords (get_target_sent_by_edits hp ws (a :: edits)))
  | _ => ret tokens
  end)).

Definition postprocess (batch : list loc) (truncated_seq_lengths : list Z)
    (batch_label_probs : list (list Q)) (batch_label_ids : list (list Z))
    (batch_incor_probs : list Q) : M (list loc) :=
  forS (λ tr, postprocess_one tr.1 tr.2)
    (zip batch
       (zip_rows truncated_seq_lengths batch_label_probs batch_label_ids
          batch_incor_probs)).

(** The local objects of [update_final_batch]; the batch itself is in the
    store. The history lists are created by [handle_batch] and reachable
    only through its dictionary, so they are kept as values. *)
Record merge_state : Type := {
  new_pred_ids : list nat;
  total_updated : Z;
  m_prev_preds_dict : gmap nat (list loc)
}.

(** The body of the loop at line 279. [!=] and [not in] compare the words
    found at the references. *)
Definition update_one (final_batch : loc) (pred_batch : list loc)
    (i ori_id : nat) (st : merge_state) : M merge_state :=
  bind (read_refs final_batch) (λ refs,
  bind (lift (list_item refs ori_id)) (λ ori_tokens,
  bind (lift (list_item pred_batch i)) (λ pred_tokens,
  bind (lift (dict_item (m_prev_preds_dict st) ori_id)) (λ prev_preds,
  bind (read_words ori_tokens) (λ ori_words,
  bind (read_words pred_tokens) (λ pred_words,
  if bool_decide (ori_words ≠ pred_words) then
    bind (forS read_words prev_preds) (λ prev_words,
    if bool_decide (pred_words ∉ prev_words) then
      bind (set_item final_batch ori_id pred_tokens) (λ _,
      ret {| new_pred_ids := (new_pred_ids st ++ [ori_id]);
             total_updated := total_updated st + 1;
             m_prev_preds_dict :=
               <[ori_id := (prev_preds ++ [pred_tokens])]>
                 (m_prev_preds_dict st) |})
    else
      bind (set_item final_batch ori_id pred_tokens) (λ _,
      ret {| new_pred_ids := new_pred_ids st;
             total_updated := total_updated st + 1;
             m_prev_preds_dict := m_prev_preds_dict st |}))
  else ret st)))))).

Fixpoint update_loop (final_batch : loc) (pred_batch : list loc) (i : nat)
    (ids : list nat) (st : merge_state) : M merge_state :=
  match ids with
  | [] => ret st
  | ori_id :: ids' =>
      bind (update_one final_batch pred_batch i ori_id st)
        (update_loop final_batch pred_batch (S i) ids')
  end.

Definition update_final_batch (final_batch : loc) (pred_ids : list nat)
    (pred_batch : list loc) (prev_preds_dict : gmap nat (list loc))
  : M merge_state :=
  update_loop final_batch pred_batch 0 pred_ids
    {| new_pred_ids := []; total_updated := 0;
       m_prev_preds_dict := prev_preds_dict |}.

Record loop_state : Type := {
  final_batch : loc;
  pred_ids : list nat;
  prev_preds_dict : gmap nat (list loc);
  total_updates : Z
}.

(** One pass, lines 144-160. [preprocess] reads the words of the active
    sentences and builds new lists from them. *)
Definition iteration (n_iter : nat) (st : loop_state) : M (loop_state * bool) :=
  bind (read_refs (final_batch st)) (λ refs,
  bind (lift (forM (list_item refs) (pred_ids st))) (λ ori_batch,
  bind (forS read_words ori_batch) (λ ori_words,
  match preprocess hp self ori_words with
  | None => lift (Raise ValueError)
  | Some (batch_input_dict, truncated_seq_lengths) =>
      match batch_input_dict with
      | [] => ret (st, true)
      | _ =>
          let '(label_probs, label_ids, max_detect_incor_probs) :=
            model self n_iter batch_input_dict in
          bind (postprocess ori_batch truncated_seq_lengths label_probs
                  label_ids max_detect_incor_probs) (λ pred_batch,
          bind (update_final_batch (final_batch st) (pred_ids st) pred_batch
                  (prev_preds_dict st)) (λ m,
          ret ({| final_batch := final_batch st;
                  pred_ids := new_pred_ids m;
                  prev_preds_dict := m_prev_preds_dict m;
                  total_updates := total_updates st + total_updated m |},
               bool_decide (new_pred_ids m = []))))
      end
  end))).

Fixpoint loop (fuel n_iter : nat) (st : loop_state) : M loop_state :=
  match fuel with
  | O => ret st
  | S fuel' =>
      bind (iteration n_iter st) (λ r,
      if r.2 then ret r.1 else loop fuel' (S n_iter) r.1)
  end.

(** Lines 133-141. [full_batch[:]] is a new list object with the same
    items; [len(sent)] reads the sentence behind each item. *)
Definition init_state (full_batch : loc) : M loop_state :=
  bind (read_refs full_batch) (λ refs,
  bind (alloc (ORefs refs)) (λ final_batch,
  let prev_preds_dict : gmap nat (list loc) :=
    list_to_map (imap (λ idx sent, (idx, [sent])) refs) in
  bind (forS read_words refs) (λ sents,
  let short_skip_id_set : gset nat :=
    list_to_set
      ((imap (λ idx sent, (idx, sent)) sents)
         ≫= (λ p : nat * sentence,
               if Z.of_nat (length p.2) <? min_seq_len self then [p.1] else [])) in
  let pred_ids :=
    filter (λ idx, idx ∉ short_skip_id_set) (seq 0 (length refs)) in
  ret {| final_batch := final_batch; pred_ids := pred_ids;
         prev_preds_dict := prev_preds_dict; total_updates := 0 |}))).

(** The result is the reference to the final batch and the counter. *)
Definition handle_batch (full_batch : loc) : M (loc * Z) :=
  bind (init_state full_batch) (λ st0,
  bind (loop (Z.to_nat (iteration_count self)) 0 st0) (λ st,
  ret (final_batch st, total_updates st))).

End Predictor.

(** The sentences a reference to a batch stands for. *)
Definition batch_value (σ : store) (b : loc) : option (list sentence) :=
  match σ !! b with
  | Some (ORefs rs) =>
      mapM (λ r, match σ !! r with
                 | Some (OWords ws) => Some ws
                 | _ => None
                 end) rs
  | _ => None
  end.

End Refs.

(** ** A concrete environment for the examples *)

(** [s.split()]: the maximal runs of non-space characters. [cur] is the
    run being read, in reverse. *)
Fixpoint split_ws_aux (cur : list ascii) (s : string) : list string :=
  let flush (rest : list string) :=
    match cur with
    | [] => rest
    | _ => string_of_list_ascii (rev cur) :: rest
    end in
  match s with
  | EmptyString => flush []
  | String c s' =>
      if is_space c then flush (split_ws_aux [] s')
      else split_ws_aux (c :: cur) s'
  end.

Definition split_ws (s : string) : list string := split_ws_aux [] s.

(** Modelled from the spec: [get_target_sent_by_edits] of [utils.helpers],
    which is not part of the file. Edits are applied from left to right
    against the original positions with a running length delta: the words
    in [start + delta, end + delta) are replaced by the whitespace-split
    tokens of the replacement, and delta grows by the number of these
    tokens minus [end - start]. *)
Fixpoint apply_edits_from (delta : Z) (words : sentence) (edits : list action)
  : sentence :=
  match edits with
  | [] => words
  | (start, end_, replacement, _) :: edits' =>
      let toks := split_ws replacement in
      let words' :=
        (take (Z.to_nat (start + delta)) words ++ toks
           ++ drop (Z.to_nat (end_ + delta)) words) in
      apply_edits_from (delta + Z.of_nat (length toks) - (end_ - start))
        words' edits'
  end.

Definition apply_edits (words : sentence) (edits : list action) : sentence :=
  apply_edits_from 0 words edits.

(** Modelled from the spec: the sentinel labels [KEEP], [PAD], [UNKNOWN] and
    the start marker of [utils.helpers], which is not part of the file,
    with the strings GECToR vocabularies use. *)
Definition gector_helpers : Helpers :=
  {| KEEP_LABEL := "$KEEP";
     PAD_LABEL := "@@PADDING@@";
     UNK_LABEL := "@@UNKNOWN@@";
     START_TOKEN := "$START";
     get_target_sent_by_edits := apply_edits |}.

(** A small correction vocabulary. *)
Definition demo_id2tag (i : Z) : string :=
  match i with
  | 0 => "$KEEP"
  | 1 => "$DELETE"
  | 2 => "$REPLACE_c"
  | 3 => "$APPEND_the"
  | 4 => "$REPLACE_z"
  | 5 => "$FOO_bar"
  | _ => "@@UNKNOWN@@"
  end.

(** A tagger that labels every position [KEEP] with probability 1 and
    reports no error. *)
Definition keep_model (n : nat) (batch : list (list string))
  : list (list Q) * list (list Z) * list Q :=
  ((λ words : list string, (λ _, 1%Q) <$> words) <$> batch,
   (λ words : list string, (λ _, 0) <$> words) <$> batch,
   (λ _, 0%Q) <$> batch).

(** A predictor with threshold 0.5 that tags with [m]. *)
Definition demo_predictor (iters min_len : Z)
    (m : nat → list (list string) → list (list Q) * list (list Z) * list Q)
  : Predictor :=
  {| iteration_count := iters;
     min_seq_len := min_len;
     min_error_probability := 0.5%Q;
     debug_force_edit := false;
     keep_id := 0;
     id2tag := demo_id2tag;
     encode_length := λ words, Z.of_nat (length words);
     model := m |}.

(** A tagger that gives every sentence the label ids [ids], each with
    probability 0.9, and an error probability of 0.9. *)
Definition const_model (ids : list Z) (n : nat) (batch : list (list string))
  : list (list Q) * list (list Z) * list Q :=
  ((λ _, (λ _, 0.9%Q) <$> ids) <$> batch,
   (λ _, ids) <$> batch,
   (λ _, 0.9%Q) <$> batch).

(** A row that labels three positions [KEEP]. *)
Definition keep_row : row :=
  {| truncated_seq_length := 3; label_probs := [1%Q; 1%Q; 1%Q];
     label_ids := [0; 0; 0]; incor_prob := 0.9%Q |}.

(** The three merge outcomes for a sentence with current sequence [cur],
    proposal [pred] and history [h]. *)
Definition merged (ori_id : nat) (cur pred : sentence) (h : list sentence)
    (st : merge_state) : merge_state :=
  if bool_decide (cur = pred) then st
  else if bool_decide (pred ∈ h) then
    {| m_final_batch := <[ori_id := pred]> (m_final_batch st);
       new_pred_ids := new_pred_ids st;
       total_updated := total_updated st + 1;
       m_prev_preds_dict := m_prev_preds_dict st |}
  else
    {| m_final_batch := <[ori_id := pred]> (m_final_batch st);
       new_pred_ids := (new_pred_ids st ++ [ori_id]);
       total_updated := total_updated st + 1;
       m_prev_preds_dict :=
         <[ori_id := (h ++ [pred])]> (m_prev_preds_dict st) |}.

(** Three histories; in the second, the sequence [["x"]] was seen before. *)
Definition demo_history : gmap nat (list sentence) :=
  <[0%nat := [["a"]]]> (<[1%nat := [["x"]; ["b"]]]> (<[2%nat := [["c"]]]> ∅)).

(** ** The states of a run *)

(** The states the loop of [handle_batch] goes through on [full_batch]:
    [reachable n st] when [st] is the state after [n] passes. *)
Inductive reachable (hp : Helpers) (self : Predictor)
    (full_batch : list sentence) : nat → loop_state → Prop :=
| reach_init : reachable hp self full_batch 0 (init_state self full_batch)
| reach_pass (n : nat) (st st' : loop_state) (stop : bool) :
    reachable hp self full_batch n st →
    iteration hp self n st = Ok (st', stop) →
    reachable hp self full_batch (S n) st'.

(** ** Convergence of a run *)

(** A tagging model is deterministic when what it returns depends on the
    batch it is given and on nothing else. *)
Definition deterministic (self : Predictor) : Prop :=
  ∀ n m batch, model self n batch = model self m batch.

(** A tagging model works sentence by sentence when the rows it returns
    for a batch are those [tag] gives for each of its word lists. *)
Definition sentencewise (self : Predictor)
    (tag : list string → list Q * list Z * Q) : Prop :=
  ∀ n batch,
    model self n batch
    = ((λ words, (tag words).1.1) <$> batch,
       (λ words, (tag words).1.2) <$> batch,
       (λ words, (tag words).2) <$> batch).

(** The row of a sentence under a sentence-by-sentence model, and the
    proposal [postprocess] makes from it. *)
Definition tag_row (hp : Helpers) (self : Predictor)
    (tag : list string → list Q * list Z * Q) (s : sentence) : row :=
  let words := START_TOKEN hp :: s in
  {| truncated_seq_length := encode_length self words;
     label_probs := (tag words).1.1;
     label_ids := (tag words).1.2;
     incor_prob := (tag words).2 |}.

Definition propose (hp : Helpers) (self : Predictor)
    (tag : list string → list Q * list Z * Q) (s : sentence) : result sentence :=
  postprocess_one hp self s (tag_row hp self tag s).

(** A sentence a run does not change again: it is too short to be tagged,
    or it is its own proposal. *)
Definition settled (hp : Helpers) (self : Predictor)
    (tag : list string → list Q * list Z * Q) (s : sentence) : Prop :=
  Z.of_nat (length s) < min_seq_len self ∨ propose hp self tag s = Ok s.

(** The same predictor with another [iteration_count]. *)
Definition set_iteration_count (n : Z) (self : Predictor) : Predictor :=
  {| iteration_count := n;
     min_seq_len := min_seq_len self;
     min_error_probability := min_error_probability self;
     debug_force_edit := debug_force_edit self;
     keep_id := keep_id self;
     id2tag := id2tag self;
     encode_length := encode_length self;
     model := model self |}.

(** In the pass from [st] to [st'] every sentence that stopped being
    active had a proposal equal to its current sequence. *)
Definition pass_by_convergence (hp : Helpers) (self : Predictor) (n : nat)
    (st st' : loop_state) : Prop :=
  ∃ pred_batch,
    tagging hp self n st = Ok (Some pred_batch)
    ∧ ∀ k id, pred_ids st !! k = Some id → id ∉ pred_ids st' →
        pred_batch !! k = final_batch st !! id.

(** [converged_run hp self fuel n st st']: from [st], before pass [n] and
    with [fuel] passes left, the loop ends in [st'] by the [break] at line
    160, and no sentence was deactivated for a repeated sequence. *)
Inductive converged_run (hp : Helpers) (self : Predictor)
  : nat → nat → loop_state → loop_state → Prop :=
| conv_last (fuel n : nat) (st st' : loop_state) :
    iteration hp self n st = Ok (st', true) →
    pass_by_convergence hp self n st st' →
    converged_run hp self (S fuel) n st st'
| conv_more (fuel n : nat) (st st1 st' : loop_state) :
    iteration hp self n st = Ok (st1, false) →
    pass_by_convergence hp self n st st1 →
    converged_run hp self fuel (S n) st1 st' →
    converged_run hp self (S fuel) n st st'.

(** A deterministic tagger whose labels for a sentence depend on the other
    sentences of the batch: ["b"] is replaced next to ["a"], and ["a"] is
    replaced next to ["c"]. *)
Definition pair_model (n : nat) (batch : list (list string))
  : list (list Q) * list (list Z) * list Q :=
  let ids : list (list Z) :=
    if bool_decide (batch = [["$START"; "a"]; ["$START"; "b"]])
    then [[0; 0]; [0; 2]]
    else if bool_decide (batch = [["$START"; "a"]; ["$START"; "c"]])
    then [[0; 4]; [0; 0]]
    else (λ words : list string, (λ _, 0) <$> words) <$> batch in
  ((λ l : list Z, (λ _, 0.9%Q) <$> l) <$> ids, ids, (λ _, 0.9%Q) <$> batch).

(** A store with the two sentences of a batch and the list that holds them. *)
Definition demo_store : Refs.store :=
  [Refs.OWords ["a"; "b"]; Refs.OWords ["c"]; Refs.ORefs [0%nat; 1%nat]].

(** [keeps σ0 m P]: run in a store that extends [σ0], the computation [m]
    ends, by a value or by an exception, in a store that extends [σ0], and
    a value it returns satisfies [P]. *)
Definition keeps {A : Type} (σ0 : Refs.store) (m : Refs.M A) (P : A → Prop)
  : Prop :=
  ∀ σ, σ0 `prefix_of` σ →
    σ0 `prefix_of` (m σ).2 ∧ ∀ a, (m σ).1 = Ok a → P a.

(** A row that labels the start marker [$DELETE] and the word [KEEP]. *)
Definition delete_start_row : row :=
  {| truncated_seq_length := 2; label_probs := [0.9%Q; 0.9%Q];
     label_ids := [1; 0]; incor_prob := 0.9%Q |}.

(** ** The two embeddings side by side *)

(** The references [ls] stand for the sentences [vs] in the store [σ]. *)
Definition holds (σ : Refs.store) (ls : list Refs.loc) (vs : list sentence)
  : Prop :=
  Forall2 (λ l ws, σ !! l = Some (Refs.OWords ws)) ls vs.

(** The outcome of a computation over the store agrees with the outcome
    of a computation over values: the same exception, or two values
    related by [Post] in the final store. *)
Definition agree {A B : Type} (Post : Refs.store → A → B → Prop)
    (x : result A * Refs.store) (y : result B) : Prop :=
  match x, y with
  | (Ok a, σ'), Ok b => Post σ' a b
  | (Raise e, _), Raise e' => e = e'
  | _, _ => False
  end.

(** The state of the loop over the store stands for the state over
    values. *)
Definition sim_state (σ : Refs.store) (sh : Refs.loop_state) (sv : loop_state)
  : Prop :=
  (∃ refs, σ !! Refs.final_batch sh = Some (Refs.ORefs refs)
           ∧ holds σ refs (final_batch sv))
  ∧ Refs.pred_ids sh = pred_ids sv
  ∧ Refs.total_updates sh = total_updates sv
  ∧ ∀ id, option_Forall2 (holds σ) (Refs.prev_preds_dict sh !! id)
            (prev_preds_dict sv !! id).

Definition sim_merge (σ : Refs.store) (fb : Refs.loc) (mh : Refs.merge_state)
    (mv : merge_state) : Prop :=
  (∃ refs, σ !! fb = Some (Refs.ORefs refs)
           ∧ holds σ refs (m_final_batch mv))
  ∧ Refs.new_pred_ids mh = new_pred_ids mv
  ∧ Refs.total_updated mh = total_updated mv
  ∧ ∀ id, option_Forall2 (holds σ) (Refs.m_prev_preds_dict mh !! id)
            (m_prev_preds_dict mv !! id).

(** The sentences of [σ] are in [σ'] as they are. *)
Definition words_kept (σ σ' : Refs.store) : Prop :=
  ∀ l ws, σ !! l = Some (Refs.OWords ws) → σ' !! l = Some (Refs.OWords ws).

(** ** More of the predictor *)

(** The five label families for which line 308 or line 311 binds a span. *)
Definition span_family (label : string) : bool :=
  startswith label "$REPLACE_" || startswith label "$TRANSFORM_"
  || bool_decide (label = "$DELETE")
  || startswith label "$APPEND_" || startswith label "$MERGE_".

(** The components of an edit. *)
Definition edit_start (a : action) : Z := a.1.1.1.
Definition edit_end (a : action) : Z := a.1.1.2.
Definition edit_replacement (a : action) : string := a.1.2.
Definition edit_confidence (a : action) : Q := a.2.

(** The token the scan reads for position [idx], lines 238-242. *)
Definition token_at (hp : Helpers) (tokens : sentence) (idx : Z)
  : result string :=
  if bool_decide (idx = 0) then Ok (START_TOKEN hp)
  else py_getitem tokens (idx - 1).

(** A row for a sentence of two words: the start marker is kept, the first
    word is replaced and a word is appended after the second. *)
Definition edit_row : row :=
  {| truncated_seq_length := 3; label_probs := [0.9%Q; 0.9%Q; 0.9%Q];
     label_ids := [0; 2; 3]; incor_prob := 0.9%Q |}.

(** The predictor of the examples with the debug flag set. *)
Definition debug_predictor : Predictor :=
  {| iteration_count := 1;
     min_seq_len := 1;
     min_error_probability := 0.5%Q;
     debug_force_edit := true;
     keep_id := 0;
     id2tag := demo_id2tag;
     encode_length := λ words, Z.of_nat (length words);
     model := keep_model |}.

(** A row that labels five positions [KEEP] with an error probability
    above the threshold of the examples. *)
Definition keep_row5 : row :=
  {| truncated_seq_length := 5; label_probs := [1%Q; 1%Q; 1%Q; 1%Q; 1%Q];
     label_ids := [0; 0; 0; 0; 0]; incor_prob := 0.9%Q |}.

(** The state after the first pass over [full_batch], when that pass
    returns. *)
Definition first_pass (hp : Helpers) (self : Predictor)
    (full_batch : list sentence) : loop_state :=
  match iteration hp self 0 (init_state self full_batch) with
  | Ok (st, _) => st
  | Raise _ => init_state self full_batch
  end.

(** A tagger under which [postprocess] skips every sentence: for the
    start-prefixed word lists of any batch it returns one row per sentence,
    and in each row the largest label id is the [KEEP] id or the error
    probability is below the threshold. *)
Definition skips_every_sentence (hp : Helpers) (self : Predictor) : Prop :=
  ∀ (n : nat) (seqs : list sentence),
    let out := model self n ((λ words, START_TOKEN hp :: words) <$> seqs) in
    length out.1.1 = length seqs
    ∧ length out.1.2 = length seqs
    ∧ length out.2 = length seqs
    ∧ ∀ k l c, out.1.2 !! k = Some l → out.2 !! k = Some c →
        py_max l = Ok (keep_id self)
        ∨ (l ≠ [] ∧ (c < min_error_probability self)%Q).

(** A sentence-by-sentence tagger that replaces the word of ["c"] and the
    word of ["z"] and keeps everything else. *)
Definition flip_tag (words : list string) : list Q * list Z * Q :=
  if bool_decide (words = ["$START"; "c"]) then ([0.9%Q; 0.9%Q], [0; 4], 0.9%Q)
  else if bool_decide (words = ["$START"; "z"])
  then ([0.9%Q; 0.9%Q], [0; 2], 0.9%Q)
  else ((λ _, 1%Q) <$> words, (λ _, 0) <$> words, 0%Q).

Definition flip_model (n : nat) (batch : list (list string))
  : list (list Q) * list (list Z) * list Q :=
  ((λ words, (flip_tag words).1.1) <$> batch,
   (λ words, (flip_tag words).1.2) <$> batch,
   (λ words, (flip_tag words).2) <$> batch).

(** ** One sentence of a run

    What lines 279-293 do to one sentence from pass to pass under a
    sentence-by-sentence tagger: its current sequence, its history and
    whether it is still active. *)
Record track_state : Type := {
  t_cur : sentence;
  t_hist : list sentence;
  t_active : bool
}.

Definition track_step (hp : Helpers) (self : Predictor)
    (tag : list string → list Q * list Z * Q) (t : track_state)
  : result track_state :=
  if t_active t then
    pred_tokens ← propose hp self tag (t_cur t);
    if bool_decide (t_cur t ≠ pred_tokens) then
      if bool_decide (pred_tokens ∉ t_hist t) then
        Ok {| t_cur := pred_tokens; t_hist := t_hist t ++ [pred_tokens];
              t_active := true |}
      else Ok {| t_cur := pred_tokens; t_hist := t_hist t; t_active := false |}
    else Ok {| t_cur := t_cur t; t_hist := t_hist t; t_active := false |}
  else Ok t.

Fixpoint track (hp : Helpers) (self : Predictor)
    (tag : list string → list Q * list Z * Q) (n : nat) (s : sentence)
  : result track_state :=
  match n with
  | O => Ok {| t_cur := s; t_hist := [s];
               t_active := negb (Z.of_nat (length s) <? min_seq_len self) |}
  | S n' => t ← track hp self tag n' s; track_step hp self tag t
  end.

(** ** Which objects the returned batch holds *)

(** [preserves P m Q]: run in a store that satisfies [P], the computation
    [m] ends, by a value or by an exception, in a store that satisfies [P],
    and a value it returns satisfies [Q]. *)
Definition preserves {A : Type} (P : Refs.store → Prop) (m : Refs.M A)
    (Q : A → Prop) : Prop :=
  ∀ σ, P σ → P (m σ).2 ∧ ∀ a, (m σ).1 = Ok a → Q a.

(** The reference [l] is the item at position [i] of the list [refs0], or
    a location from [n0] on. *)
Definition shared_or_new (refs0 : list Refs.loc) (n0 : nat) (i : nat)
    (l : Refs.loc) : Prop :=
  refs0 !! i = Some l ∨ (n0 ≤ l)%nat.

(** The store has [n0] objects or more, and the list object at [b] has as
    many items as [refs0], each of them the item of [refs0] at its position
    or a location from [n0] on. *)
Definition shares (refs0 : list Refs.loc) (n0 : nat) (b : Refs.loc)
    (σ : Refs.store) : Prop :=
  (n0 ≤ length σ)%nat
  ∧ ∃ rs, σ !! b = Some (Refs.ORefs rs)
      ∧ length rs = length refs0
      ∧ ∀ i l, rs !! i = Some l → shared_or_new refs0 n0 i l.

(** ** [preprocess] and [build_input_dict] in detail (lines 173-189, 328-338)

    The loop of [preprocess] up to the call of [collate_fn], with the inputs
    of the model represented. [encode words] stands for
    [self.mismatched_tokenizer.encode(words, ...)], which is not part of
    the file and returns the subword ids, the offsets and the truncated
    length; [O] is the type of the offsets. *)

(** [l[:n]]: a negative [n] counts from the end. *)
Definition py_slice_to {A : Type} (l : list A) (n : Z) : list A :=
  take (Z.to_nat (if n <? 0 then Z.of_nat (length l) + n else n)) l.

Record input_dict (O : Type) : Type := {
  input_ids : list Z;
  token_type_ids : list Z;
  attention_mask : list Z;
  offsets : O;
  word_mask : list Z
}.

Arguments input_ids {O} _.
Arguments token_type_ids {O} _.
Arguments attention_mask {O} _.
Arguments offsets {O} _.
Arguments word_mask {O} _.

(** [[v for _ in range(n)]] *)
Definition py_repeat (v : Z) (n : Z) : list Z := (λ _, v) <$> seqZ 0 n.

Definition build_input_dict {O : Type} (input_ids : list Z) (offsets : O)
    (word_level_len : Z) : input_dict O :=
  let token_type_ids := py_repeat 0 (Z.of_nat (length input_ids)) in
  let attn_mask := py_repeat 1 (Z.of_nat (length input_ids)) in
  let word_mask := py_repeat 1 word_level_len in
  {| input_ids := input_ids;
     token_type_ids := token_type_ids;
     attention_mask := attn_mask;
     offsets := offsets;
     word_mask := word_mask |}.

(** The body of the loop at line 179 for one sequence: the dictionary and
    the truncated length that are appended. *)
Definition preprocess_one {O : Type} (hp : Helpers)
    (encode : list string → list Z * O * Z) (words : sentence)
  : input_dict O * Z :=
  let words := START_TOKEN hp :: words in
  let '(input_ids, offsets, truncated_seq_length) := encode words in
  let words := py_slice_to words truncated_seq_length in
  (build_input_dict input_ids offsets (Z.of_nat (length words)),
   truncated_seq_length).

(** Lines 174-185: [None] is the bare [[]] of line 176; otherwise the list
    handed to [collate_fn] and the truncated lengths. *)
Definition preprocess_dicts {O : Type} (hp : Helpers)
    (encode : list string → list Z * O * Z) (seqs : list sentence)
  : option (list (input_dict O) * list Z) :=
  let seq_lens := length <$> filter (λ seq : sentence, seq ≠ []) seqs in
  match seq_lens with
  | [] => None
  | _ =>
      let rows := preprocess_one hp encode <$> seqs in
      Some (fst <$> rows, snd <$> rows)
  end.

(** ** Loading the checkpoint in [init_model] (lines 94-130)

    [init_model] calls into PyTorch and DeepSpeed, which are not part of
    the file. What the file itself decides is which exceptions it catches,
    when it tries a second time, and what it binds to [torch.load]. The
    world is the value bound to [torch.load] and the rest, which only the
    libraries read and write; a library call takes a world and returns or
    raises, leaving a world. *)

Module Checkpoint.

(** An exception: whether its class derives from [AttributeError], whether
    it derives from [Exception], and [str(e)]. *)
Record error : Type := {
  is_AttributeError : bool;
  is_Exception : bool;
  message : string
}.

Record world (L W : Type) : Type := {
  torch_load : L;
  rest : W
}.

Arguments torch_load {L W} _.
Arguments rest {L W} _.

(** [sub in s] for two [str] values. *)
Fixpoint contains (sub s : string) : bool :=
  String.prefix sub s
  || match s with
     | EmptyString => false
     | String _ s' => contains sub s'
     end.

Section Load.

Context {L W : Type}.

(** [torch.serialization.add_safe_globals([DynamicLossScaler])] and
    [ds_engine.load_checkpoint(...)], and the function the [lambda] of
    line 119 makes from the loader it captures. *)
Variable add_safe_globals : world L W → option error * world L W.
Variable load_checkpoint : world L W → option error * world L W.
Variable weights_only_false : L → L.

(** Lines 95-99: an [AttributeError] is passed over. *)
Definition safe_globals (w : world L W) : option error * world L W :=
  match add_safe_globals w with
  | (Some e, w1) => if is_AttributeError e then (None, w1) else (Some e, w1)
  | (None, w1) => (None, w1)
  end.

(** Lines 103-128. *)
Definition load (w : world L W) : option error * world L W :=
  match load_checkpoint w with
  | (None, w1) => (None, w1)
  | (Some e, w1) =>
      if is_Exception e then
        if contains "weights_only" (message e) then
          let original_torch_load := torch_load w1 in
          let w2 := {| torch_load := weights_only_false original_torch_load;
                       rest := rest w1 |} in
          match load_checkpoint w2 with
          | (r, w3) =>
              (r, {| torch_load := original_torch_load; rest := rest w3 |})
          end
        else (Some e, w1)
      else (Some e, w1)
  end.

(** Lines 94-130, from the first [try] to the [return]. *)
Definition init_model (w : world L W) : option error * world L W :=
  match safe_globals w with
  | (Some e, w1) => (Some e, w1)
  | (None, w1) => load w1
  end.

End Load.

End Checkpoint.

(** A checkpoint loader for the examples: it fails with a message about
    [weights_only] unless [torch.load] is the patched loader, written
    [true], and counts its calls. *)
Definition demo_load_checkpoint (w : Checkpoint.world bool nat)
  : option Checkpoint.error * Checkpoint.world bool nat :=
  let w' := {| Checkpoint.torch_load := Checkpoint.torch_load w;
               Checkpoint.rest := S (Checkpoint.rest w) |} in
  if Checkpoint.torch_load w then (None, w')
  else (Some {| Checkpoint.is_AttributeError := false;
                Checkpoint.is_Exception := true;
                Checkpoint.message := "set weights_only=False to load" |}, w').

(** * Facts *)

(** ** Strings and comparisons *)

Lemma result_bind_ok {A B : Type} (a : A) (k : A → result B) :
  (x ← Ok a; k x) = k a.
Proof. done. Qed.

Lemma Qltb_ge (p m : Q) : (m <= p)%Q → Qltb p m = false.
Proof.
  intros H. unfold Qltb. apply Qle_bool_iff in H. by rewrite H.
Qed.

Lemma Qltb_lt (p m : Q) : (p < m)%Q → Qltb p m = true.
Proof.
  intros H. unfold Qltb. destruct (Qle_bool m p) eqn:E; [|done].
  apply Qle_bool_iff in E. exfalso. by apply (Qlt_not_le p m).
Qed.

Lemma Qltb_true_lt (p m : Q) : Qltb p m = true → (p < m)%Q.
Proof.
  unfold Qltb. intros H. apply Qnot_le_lt. intros Hle.
  apply Qle_bool_iff in Hle. rewrite Hle in H. discriminate.
Qed.

Lemma prefix_nil (s : string) : String.prefix "" s = true.
Proof. by destruct s. Qed.

Lemma prefix_cons_inv (a : ascii) (p s : string) :
  String.prefix (String a p) s = true →
  ∃ s', s = String a s' ∧ String.prefix p s' = true.
Proof.
  destruct s as [|b s']; simpl; [discriminate|].
  destruct (ascii_dec a b) as [->|]; [|discriminate]. eauto.
Qed.

Lemma startswith_app (s p : string) :
  startswith s p = true ↔ ∃ x, s = (p ++ x)%string.
Proof.
  unfold startswith. revert s. induction p as [|a p IH]; intros s.
  - split; [exists s; done | intros _; apply prefix_nil].
  - split.
    + intros (s' & -> & H)%prefix_cons_inv. apply IH in H as [x ->]. by exists x.
    + intros [x ->]. simpl. destruct (ascii_dec a a); [|done].
      apply IH. by exists x.
Qed.

Lemma substring_all (s : string) : String.substring 0 (String.length s) s = s.
Proof. induction s as [|c s IH]; simpl; [done | by rewrite IH]. Qed.

Lemma not_sentinel (hp : Helpers) (label : string) :
  label ∉ [UNK_LABEL hp; PAD_LABEL hp; KEEP_LABEL hp] →
  bool_decide (label ∈ [UNK_LABEL hp; PAD_LABEL hp; KEEP_LABEL hp]) = false.
Proof. intros H. by apply bool_decide_eq_false_2. Qed.

(** ** The tag decoder *)

Section DecoderFacts.

Variable hp : Helpers.
Variable self : Predictor.

(** What the decoder does once the threshold and the sentinel test are
    passed, for a label written as a family prefix and a payload. *)
Lemma decode_delete token idx p :
  (min_error_probability self <= p)%Q →
  "$DELETE" ∉ [UNK_LABEL hp; PAD_LABEL hp; KEEP_LABEL hp] →
  get_label_action hp self token idx p "$DELETE" = Ok (Some (idx - 1, idx, "", p)).
Proof.
  intros Hp Hs. unfold get_label_action.
  rewrite (Qltb_ge _ _ Hp), (not_sentinel _ _ Hs). cbn.
  repeat case_bool_decide; try done. cbn. by rewrite ?Z.add_simpl_r.
Qed.

Lemma decode_replace token idx p x :
  (min_error_probability self <= p)%Q →
  ("$REPLACE_" ++ x)%string ∉ [UNK_LABEL hp; PAD_LABEL hp; KEEP_LABEL hp] →
  get_label_action hp self token idx p ("$REPLACE_" ++ x) = Ok (Some (idx - 1, idx, x, p)).
Proof.
  intros Hp Hs. unfold get_label_action.
  rewrite (Qltb_ge _ _ Hp), (not_sentinel _ _ Hs).
  unfold startswith, str_index, str_from. cbv [String.append]. cbn.
  rewrite !prefix_nil. repeat case_bool_decide; try done. cbn.
  rewrite Nat.sub_0_r, substring_all. by rewrite ?Z.add_simpl_r.
Qed.

Lemma decode_append token idx p x :
  (min_error_probability self <= p)%Q →
  ("$APPEND_" ++ x)%string ∉ [UNK_LABEL hp; PAD_LABEL hp; KEEP_LABEL hp] →
  get_label_action hp self token idx p ("$APPEND_" ++ x) = Ok (Some (idx, idx, x, p)).
Proof.
  intros Hp Hs. unfold get_label_action.
  rewrite (Qltb_ge _ _ Hp), (not_sentinel _ _ Hs).
  unfold startswith, str_index, str_from. cbv [String.append]. cbn.
  rewrite !prefix_nil. repeat case_bool_decide; try done. cbn.
  rewrite Nat.sub_0_r, substring_all. by rewrite ?Z.add_simpl_r.
Qed.

Lemma decode_transform token idx p x :
  (min_error_probability self <= p)%Q →
  ("$TRANSFORM_" ++ x)%string ∉ [UNK_LABEL hp; PAD_LABEL hp; KEEP_LABEL hp] →
  get_label_action hp self token idx p ("$TRANSFORM_" ++ x)
  = Ok (Some (idx - 1, idx, ("$TRANSFORM_" ++ x)%string, p)).
Proof.
  intros Hp Hs. unfold get_label_action.
  rewrite (Qltb_ge _ _ Hp), (not_sentinel _ _ Hs).
  unfold startswith. cbv [String.append]. cbn. rewrite !prefix_nil.
  repeat case_bool_decide; try done. cbn. by rewrite ?Z.add_simpl_r.
Qed.

Lemma decode_merge token idx p x :
  (min_error_probability self <= p)%Q →
  ("$MERGE_" ++ x)%string ∉ [UNK_LABEL hp; PAD_LABEL hp; KEEP_LABEL hp] →
  get_label_action hp self token idx p ("$MERGE_" ++ x)
  = Ok (Some (idx, idx, ("$MERGE_" ++ x)%string, p)).
Proof.
  intros Hp Hs. unfold get_label_action.
  rewrite (Qltb_ge _ _ Hp), (not_sentinel _ _ Hs).
  unfold startswith. cbv [String.append]. cbn. rewrite !prefix_nil.
  repeat case_bool_decide; try done. cbn. by rewrite ?Z.add_simpl_r.
Qed.

End DecoderFacts.

(** C7: a label whose probability is strictly below
    [min_error_probability] yields no edit, whatever the token, the
    position and the label are. *)
Theorem decoder_threshold (hp : Helpers) (self : Predictor) (token : string)
    (idx : Z) (p : Q) (label : string) :
  (p < min_error_probability self)%Q →
  get_label_action hp self token idx p label = Ok None.
Proof.
  intros H. unfold get_label_action. by rewrite (Qltb_lt _ _ H).
Qed.

Lemma decoder_threshold_witness :
  (0.4 < min_error_probability (demo_predictor 1 1 keep_model))%Q
  ∧ get_label_action gector_helpers (demo_predictor 1 1 keep_model)
      "foo" 3 0.4%Q "$DELETE" = Ok None.
Proof.
  split; [reflexivity|]. apply decoder_threshold. reflexivity.
Defined.

(** C6: at or above the threshold, and for a label that is not a sentinel:
    [$REPLACE_x], [$TRANSFORM_x] and [$DELETE] give the span
    [(idx - 1, idx)], [$APPEND_x] and [$MERGE_x] the empty span [(idx, idx)];
    the replacement is empty for [$DELETE], the whole label for
    [$TRANSFORM_x] and [$MERGE_x], and the payload [x] for [$REPLACE_x] and
    [$APPEND_x]; the confidence is the probability. *)
Theorem decoder_span_families (hp : Helpers) (self : Predictor)
    (token : string) (idx : Z) (p : Q) (label : string) :
  (min_error_probability self <= p)%Q →
  label ∉ [UNK_LABEL hp; PAD_LABEL hp; KEEP_LABEL hp] →
  (label = "$DELETE" →
   get_label_action hp self token idx p label
   = Ok (Some (idx - 1, idx, "", p)))
  ∧ (∀ x, label = ("$REPLACE_" ++ x)%string →
     get_label_action hp self token idx p label
     = Ok (Some (idx - 1, idx, x, p)))
  ∧ (startswith label "$TRANSFORM_" = true →
     get_label_action hp self token idx p label
     = Ok (Some (idx - 1, idx, label, p)))
  ∧ (∀ x, label = ("$APPEND_" ++ x)%string →
     get_label_action hp self token idx p label
     = Ok (Some (idx, idx, x, p)))
  ∧ (startswith label "$MERGE_" = true →
     get_label_action hp self token idx p label
     = Ok (Some (idx, idx, label, p))).
Proof.
  intros Hp Hs. repeat split.
  - intros ->. by apply decode_delete.
  - intros x ->. by apply decode_replace.
  - intros [x ->]%startswith_app. by apply decode_transform.
  - intros x ->. by apply decode_append.
  - intros [x ->]%startswith_app. by apply decode_merge.
Qed.

Lemma decoder_span_families_witness :
  get_label_action gector_helpers (demo_predictor 1 1 keep_model)
    "foo" 2 0.9%Q "$APPEND_the" = Ok (Some (2, 2, "the", 0.9%Q)).
Proof.
  refine (proj1 (proj2 (proj2 (proj2
    (decoder_span_families gector_helpers (demo_predictor 1 1 keep_model)
       "foo" 2 0.9%Q "$APPEND_the" _ _)))) "the" eq_refl).
  - unfold Qle; simpl; lia.
  - intros H. repeat (apply elem_of_cons in H as [H|H]; [discriminate|]).
    by apply elem_of_nil in H.
Defined.

(** C1: at or above the threshold, a label that is neither a sentinel nor
    of one of the five families makes the decoder raise: [ValueError] from
    [label.index] when the label has no underscore, and otherwise
    [UnboundLocalError] when the positions are read. No value, and so no
    [None], is returned. *)
Theorem decoder_unknown_family_raises (hp : Helpers) (self : Predictor)
    (token : string) (idx : Z) (p : Q) (label : string) :
  (min_error_probability self <= p)%Q →
  label ∉ [UNK_LABEL hp; PAD_LABEL hp; KEEP_LABEL hp] →
  startswith label "$REPLACE_" = false →
  startswith label "$TRANSFORM_" = false →
  startswith label "$APPEND_" = false →
  startswith label "$MERGE_" = false →
  label ≠ "$DELETE" →
  get_label_action hp self token idx p label
  = Raise (match String.index 0 "_" label with
           | Some _ => UnboundLocalError
           | None => ValueError
           end).
Proof.
  intros Hp Hs H1 H2 H3 H4 H5. unfold get_label_action.
  rewrite (Qltb_ge _ _ Hp), (not_sentinel _ _ Hs), H1, H2, H3, H4.
  rewrite (bool_decide_eq_false_2 _ H5). unfold str_index. cbn.
  by destruct (index 0 "_" label).
Qed.

Lemma decoder_unknown_family_raises_witness :
  get_label_action gector_helpers (demo_predictor 1 1 keep_model)
    "foo" 1 0.9%Q "$FOO_bar" = Raise UnboundLocalError.
Proof.
  refine (decoder_unknown_family_raises gector_helpers
            (demo_predictor 1 1 keep_model) "foo" 1 0.9%Q "$FOO_bar"
            _ _ eq_refl eq_refl eq_refl eq_refl _).
  - unfold Qle; simpl; lia.
  - intros H. repeat (apply elem_of_cons in H as [H|H]; [discriminate|]).
    by apply elem_of_nil in H.
  - discriminate.
Defined.

(** The exception of the decoder leaves [postprocess] and [handle_batch]:
    one unknown label ends the whole call. *)
Lemma unknown_family_aborts_batch :
  handle_batch gector_helpers (demo_predictor 1 1 (const_model [0; 5]))
    [["a"]; ["b"]]
  = Raise UnboundLocalError.
Proof. vm_compute. reflexivity. Qed.

(** The decoder at position 0 with a [$DELETE] label: the start is [-1]. *)
Lemma decoder_span_negative_at_start :
  ¬ (∀ (hp : Helpers) (self : Predictor) (token : string) (idx : Z) (p : Q)
       (label : string) (s e : Z) (rep : string) (c : Q),
       0 ≤ idx →
       get_label_action hp self token idx p label = Ok (Some (s, e, rep, c)) →
       0 ≤ s ≤ e).
Proof.
  intros H.
  assert (0 ≤ -1 ≤ 0) as [Hneg _]; [|lia].
  apply (H gector_helpers (demo_predictor 1 1 keep_model) "$START" 0 0.9%Q
           "$DELETE" (-1) 0 "" 0.9%Q); [lia | reflexivity].
Qed.

(** The two shapes of an edit the decoder returns for position [idx]. *)
Lemma get_label_action_inv (hp : Helpers) (self : Predictor) (token : string)
    (idx : Z) (p : Q) (label : string) (s e : Z) (rep : string) (c : Q) :
  get_label_action hp self token idx p label = Ok (Some (s, e, rep, c)) →
  c = p
  ∧ ((s = idx ∧ e = idx
      ∧ (startswith label "$APPEND_" = true
         ∨ startswith label "$MERGE_" = true))
     ∨ (s = idx - 1 ∧ e = idx
        ∧ (startswith label "$REPLACE_" = true
           ∨ startswith label "$TRANSFORM_" = true
           ∨ label = "$DELETE"))).
Proof.
  unfold get_label_action.
  destruct (Qltb p _); [discriminate|].
  destruct (bool_decide (label ∈ _)); [discriminate|].
  destruct (bool_decide (label = "$DELETE")) eqn:Ed.
  - apply bool_decide_eq_true in Ed. rewrite !orb_true_r. cbn.
    intros [= <- <- <- <-]. split; [done|]. right. repeat split; try lia; auto.
  - destruct (startswith label "$REPLACE_") eqn:E1,
      (startswith label "$TRANSFORM_") eqn:E2,
      (startswith label "$APPEND_") eqn:E3,
      (startswith label "$MERGE_") eqn:E4; cbn;
      try destruct (str_index label "_"); cbn;
      intros [= <- <- <- <-] || intros [=];
      (split; [done|]);
      solve [ left; repeat split; try lia; auto
            | right; repeat split; try lia; auto ].
Qed.

(** C5 (amended): an edit returned by the decoder for position [idx] has
    [end = idx], the label's probability as confidence, and its start is
    [idx] for [$APPEND_x] and [$MERGE_x] and [idx - 1] for [$REPLACE_x],
    [$TRANSFORM_x] and [$DELETE]. So [start <= end <= start + 1], and
    [0 <= start] as soon as [1 <= idx]. *)
Theorem decoder_span_bounds (hp : Helpers) (self : Predictor) (token : string)
    (idx : Z) (p : Q) (label : string) (s e : Z) (rep : string) (c : Q) :
  0 ≤ idx →
  get_label_action hp self token idx p label = Ok (Some (s, e, rep, c)) →
  s ≤ e ≤ s + 1 ∧ e = idx ∧ c = p ∧ (1 ≤ idx → 0 ≤ s)
  ∧ ((s = idx
      ∧ (startswith label "$APPEND_" = true
         ∨ startswith label "$MERGE_" = true))
     ∨ (s = idx - 1
        ∧ (startswith label "$REPLACE_" = true
           ∨ startswith label "$TRANSFORM_" = true
           ∨ label = "$DELETE"))).
Proof.
  intros Hidx Ha.
  destruct (get_label_action_inv _ _ _ _ _ _ _ _ _ _ Ha)
    as [-> [(-> & -> & Hfam)|(-> & -> & Hfam)]].
  - repeat split; try lia. by left.
  - repeat split; try lia. by right.
Qed.

Lemma decoder_span_bounds_witness :
  (0 ≤ 0 ≤ 0 + 1) ∧ 0 = 0 ∧ 0.9%Q = 0.9%Q ∧ (1 ≤ 0 → 0 ≤ 0)
  ∧ ((0 = 0
      ∧ (startswith "$APPEND_the" "$APPEND_" = true
         ∨ startswith "$APPEND_the" "$MERGE_" = true))
     ∨ (0 = 0 - 1
        ∧ (startswith "$APPEND_the" "$REPLACE_" = true
           ∨ startswith "$APPEND_the" "$TRANSFORM_" = true
           ∨ "$APPEND_the" = "$DELETE"))).
Proof.
  apply (decoder_span_bounds gector_helpers (demo_predictor 1 1 keep_model)
           "$START" 0 0.9%Q "$APPEND_the" 0 0 "the" 0.9%Q);
    [lia | reflexivity].
Defined.

(** ** The scan of a sentence *)

Lemma foldM_invariant {A B : Type} (body : B → A → result B) (I : B → Prop)
    (l : list A) (acc acc' : B) :
  (∀ b x b', x ∈ l → I b → body b x = Ok b' → I b') →
  I acc → foldM body acc l = Ok acc' → I acc'.
Proof.
  revert acc. induction l as [|x l IH]; intros acc Hstep Hacc; cbn.
  - by intros [= <-].
  - destruct (body acc x) as [b|] eqn:E; [|done]. cbn.
    apply IH; [intros ??? Hin; apply Hstep; set_solver|].
    eapply Hstep; [|done..]. set_solver.
Qed.

(** The positions the scan hands to the decoder are those of
    [range(truncated_seq_length)], so every edit it adds ends at a position
    below the truncated length and starts at most one position before its
    end, from [-1] on. *)
Lemma scan_edits_spans (hp : Helpers) (self : Predictor) (tokens : sentence)
    (r : row) (edits : list action) :
  scan_edits hp self tokens r [] = Ok edits →
  Forall (λ a : action, -1 ≤ a.1.1.1 ≤ a.1.1.2
                        ∧ a.1.1.2 < truncated_seq_length r) edits.
Proof.
  unfold scan_edits. apply foldM_invariant; [|constructor].
  intros es idx es' [Hlo Hhi]%elem_of_seqZ Hes. unfold scan_step.
  destruct (if bool_decide (idx = 0) then _ else _) as [token|]; [|done]. cbn.
  destruct (py_getitem (label_ids r) idx) as [label_id|]; [|done]. cbn.
  case_bool_decide; [by intros [= <-]|].
  destruct (re_search_space token); [by intros [= <-]|].
  destruct (py_getitem (label_probs r) idx) as [p|]; [|done]. cbn.
  destruct (get_label_action _ _ _ _ _ _) as [[[[[s e] rep] c]|]|] eqn:Ea;
    cbn; [| |done]; intros [= <-]; [|done].
  apply Forall_app. split; [done|]. apply Forall_singleton. cbn.
  destruct (get_label_action_inv _ _ _ _ _ _ _ _ _ _ Ea)
    as [_ [(-> & -> & _)|(-> & -> & _)]]; lia.
Qed.

(** The scan reaches the decoder at position 0: a [$DELETE] label on the
    start marker gives the sentence the edit [(-1, 0, "", 0.9)]. *)
Lemma scan_emits_negative_start :
  sentence_edits gector_helpers (demo_predictor 1 1 keep_model) ["a"]
    delete_start_row = Ok (Some [(-1, 0, "", 0.9%Q)]).
Proof. vm_compute. reflexivity. Qed.

(** ** The per-sentence decoding of [postprocess] *)

Lemma fold_left_max_const (k : Z) (l : list Z) :
  Forall (λ i, i = k) l → fold_left Z.max l k = k.
Proof.
  induction 1 as [|x l -> _ IH]; simpl; [done|]. by rewrite Z.max_id.
Qed.

Lemma py_max_all_eq (k : Z) (l : list Z) :
  l ≠ [] → Forall (λ i, i = k) l → py_max l = Ok k.
Proof.
  destruct l as [|x l]; [done|]. intros _ H.
  apply Forall_cons in H as [-> H]. simpl. by rewrite fold_left_max_const.
Qed.

Lemma py_max_nonempty (l : list Z) : l ≠ [] → ∃ m, py_max l = Ok m.
Proof. destruct l; [done|]. intros _. simpl. eauto. Qed.

(** When neither [continue] is taken the scan runs, and its edits are the
    edits of the sentence. *)
Lemma sentence_edits_scan (hp : Helpers) (self : Predictor) (tokens : sentence)
    (r : row) (m : Z) :
  py_max (label_ids r) = Ok m →
  bool_decide (m = keep_id self) && negb (debug_force_edit self) = false →
  Qltb (incor_prob r) (min_error_probability self) = false →
  sentence_edits hp self tokens r
  = (edits ← scan_edits hp self tokens r (forced_edits self tokens);
     Ok (Some edits)).
Proof.
  intros Hm Hk Hp. unfold sentence_edits. rewrite Hm. cbn. by rewrite Hk, Hp.
Qed.

(** C3: with the debug flag off, a sentence whose label ids are all the
    id of [KEEP], or whose error probability is strictly below the
    threshold, is proposed unchanged and the scan of its positions is not
    run ([sentence_edits] takes a [continue]); so whenever the scan ran to
    its end, neither of the two conditions held. *)
Theorem pre_decode_guard (hp : Helpers) (self : Predictor) (tokens : sentence)
    (r : row) :
  debug_force_edit self = false →
  label_ids r ≠ [] →
  (Forall (λ i, i = keep_id self) (label_ids r)
   ∨ (incor_prob r < min_error_probability self)%Q →
   sentence_edits hp self tokens r = Ok None
   ∧ postprocess_one hp self tokens r = Ok tokens)
  ∧ (∀ edits, sentence_edits hp self tokens r = Ok (Some edits) →
     ¬ Forall (λ i, i = keep_id self) (label_ids r)
     ∧ ¬ (incor_prob r < min_error_probability self)%Q).
Proof.
  intros Hd Hne.
  assert (Forall (λ i, i = keep_id self) (label_ids r)
          ∨ (incor_prob r < min_error_probability self)%Q →
          sentence_edits hp self tokens r = Ok None) as Hskip.
  { intros [Hall|Hlow]; unfold sentence_edits.
    - rewrite (py_max_all_eq _ _ Hne Hall). cbn.
      by rewrite bool_decide_eq_true_2, Hd.
    - destruct (py_max_nonempty _ Hne) as [m ->]. cbn.
      rewrite (Qltb_lt _ _ Hlow). by destruct (_ && _). }
  split.
  - intros H. split; [by apply Hskip|].
    unfold postprocess_one. by rewrite (Hskip H).
  - intros edits He. split; intros H.
    + rewrite Hskip in He by auto. discriminate.
    + rewrite Hskip in He by auto. discriminate.
Qed.

Lemma pre_decode_guard_witness :
  sentence_edits gector_helpers (demo_predictor 1 1 keep_model) ["a"; "b"]
    keep_row = Ok None
  ∧ postprocess_one gector_helpers (demo_predictor 1 1 keep_model) ["a"; "b"]
      keep_row = Ok ["a"; "b"].
Proof.
  refine (proj1 (pre_decode_guard gector_helpers (demo_predictor 1 1 keep_model)
            ["a"; "b"] keep_row eq_refl _) (or_introl _)).
  - discriminate.
  - repeat constructor.
Defined.

Lemma py_getitem_in_range {A : Type} (l : list A) (i : Z) :
  0 ≤ i < Z.of_nat (length l) → ∃ x, py_getitem l i = Ok x.
Proof.
  intros [Hlo Hhi]. unfold py_getitem. cbv zeta.
  assert (Hn : (i <? 0) = false) by (apply Z.ltb_ge; lia).
  assert (Hm : (Z.of_nat (length l) <=? i) = false) by (apply Z.leb_gt; lia).
  assert (Z.to_nat i < length l)%nat as Hlt by lia.
  destruct (lookup_lt_is_Some_2 l _ Hlt) as [x Hx].
  rewrite Hn, Hn, Hm, Hx. cbn. eauto.
Qed.

(** When the labels of the scanned positions are all [KEEP] the scan adds
    no edit and does not reach the decoder, whatever the labels behind the
    truncated length are. *)
Lemma scan_all_keep (hp : Helpers) (self : Predictor) (tokens : sentence)
    (r : row) (edits : list action) :
  truncated_seq_length r ≤ Z.of_nat (length tokens) + 1 →
  (∀ idx, 0 ≤ idx < truncated_seq_length r →
     py_getitem (label_ids r) idx = Ok (keep_id self)) →
  scan_edits hp self tokens r edits = Ok edits.
Proof.
  intros Hlen Hkeep. unfold scan_edits.
  assert (∀ l : list Z, Forall (λ idx, 0 ≤ idx < truncated_seq_length r) l →
            foldM (scan_step hp self tokens r) edits l = Ok edits) as Hfold.
  { induction 1 as [|idx l Hidx _ IH]; cbn; [done|].
    assert (scan_step hp self tokens r edits idx = Ok edits) as ->; [|done].
    unfold scan_step.
    assert (∃ token, (if bool_decide (idx = 0) then Ok (START_TOKEN hp)
                      else py_getitem tokens (idx - 1)) = Ok token)
      as [token ->].
    { case_bool_decide; [eauto|]. apply py_getitem_in_range. lia. }
    rewrite result_bind_ok, (Hkeep idx Hidx), result_bind_ok.
    by rewrite bool_decide_eq_true_2. }
  apply Hfold, Forall_seqZ. lia.
Qed.

(** So a sentence whose scanned positions are all [KEEP] is proposed as it
    is even when [max(label_ids)] is the id of another label found behind
    the truncated length. *)
Lemma postprocess_one_all_keep (hp : Helpers) (self : Predictor)
    (tokens : sentence) (r : row) :
  debug_force_edit self = false →
  label_ids r ≠ [] →
  truncated_seq_length r ≤ Z.of_nat (length tokens) + 1 →
  (∀ idx, 0 ≤ idx < truncated_seq_length r →
     py_getitem (label_ids r) idx = Ok (keep_id self)) →
  postprocess_one hp self tokens r = Ok tokens.
Proof.
  intros Hd Hne Hlen Hkeep. unfold postprocess_one, sentence_edits.
  destruct (py_max_nonempty _ Hne) as [m ->]. cbn.
  destruct (_ && _); [done|]. destruct (Qltb _ _); [done|].
  unfold forced_edits. rewrite Hd. cbn.
  by rewrite (scan_all_keep hp self tokens r [] Hlen Hkeep).
Qed.

(** ** [update_final_batch] *)

Section UpdateFacts.

Variable pred_batch : list sentence.

Lemma update_one_cases (i ori_id : nat) (st : merge_state)
    (cur pred : sentence) (h : list sentence) :
  m_final_batch st !! ori_id = Some cur →
  pred_batch !! i = Some pred →
  m_prev_preds_dict st !! ori_id = Some h →
  update_one pred_batch i ori_id st = Ok (merged ori_id cur pred h st).
Proof.
  intros H1 H2 H3. unfold update_one, list_item, dict_item, merged.
  rewrite H1, H2, H3. cbn.
  repeat case_bool_decide; try done; contradiction.
Qed.

Lemma update_one_inv (i ori_id : nat) (st st' : merge_state) :
  update_one pred_batch i ori_id st = Ok st' →
  ∃ cur pred h,
    m_final_batch st !! ori_id = Some cur
    ∧ pred_batch !! i = Some pred
    ∧ m_prev_preds_dict st !! ori_id = Some h
    ∧ st' = merged ori_id cur pred h st.
Proof.
  intros H.
  destruct (m_final_batch st !! ori_id) as [cur|] eqn:H1;
    [|by unfold update_one, list_item in H; rewrite H1 in H].
  destruct (pred_batch !! i) as [pred|] eqn:H2;
    [|by unfold update_one, list_item in H; rewrite H1, H2 in H].
  destruct (m_prev_preds_dict st !! ori_id) as [h|] eqn:H3;
    [|by unfold update_one, list_item, dict_item in H; rewrite H1, H2, H3 in H].
  rewrite (update_one_cases _ _ _ _ _ _ H1 H2 H3) in H.
  injection H as <-. eauto 10.
Qed.

Lemma merged_length ori_id cur pred h st :
  length (m_final_batch (merged ori_id cur pred h st))
  = length (m_final_batch st).
Proof.
  unfold merged. repeat case_bool_decide; cbn; by rewrite ?length_insert.
Qed.

Lemma merged_other ori_id cur pred h st (id : nat) :
  id ≠ ori_id →
  m_final_batch (merged ori_id cur pred h st) !! id = m_final_batch st !! id
  ∧ m_prev_preds_dict (merged ori_id cur pred h st) !! id
    = m_prev_preds_dict st !! id.
Proof.
  intros Hne. unfold merged. repeat case_bool_decide; cbn;
    rewrite ?list_lookup_insert_ne, ?lookup_insert_ne by done; done.
Qed.

Lemma update_loop_length (ids : list nat) (i : nat) (st st' : merge_state) :
  update_loop pred_batch i ids st = Ok st' →
  length (m_final_batch st') = length (m_final_batch st).
Proof.
  revert i st. induction ids as [|id ids IH]; intros i st; cbn.
  - by intros [= ->].
  - destruct (update_one pred_batch i id st) as [st1|] eqn:E; [|done]. cbn.
    intros H. apply IH in H. rewrite H.
    apply update_one_inv in E as (cur & pred & h & _ & _ & _ & ->).
    apply merged_length.
Qed.

Lemma update_loop_frame (ids : list nat) (i : nat) (st st' : merge_state)
    (id : nat) :
  update_loop pred_batch i ids st = Ok st' →
  id ∉ ids →
  m_final_batch st' !! id = m_final_batch st !! id
  ∧ m_prev_preds_dict st' !! id = m_prev_preds_dict st !! id.
Proof.
  revert i st. induction ids as [|id0 ids IH]; intros i st; cbn.
  - by intros [= ->].
  - destruct (update_one pred_batch i id0 st) as [st1|] eqn:E; [|done]. cbn.
    intros H Hid. apply not_elem_of_cons in Hid as [Hne Hid].
    destruct (IH _ _ H Hid) as [-> ->].
    apply update_one_inv in E as (cur & pred & h & _ & _ & _ & ->).
    by apply merged_other.
Qed.

(** The run of the loop over [ids]: the ids that stay active ([added]) and
    those that were cut for a repeated sequence ([cut]) are sublists of
    [ids], the counter grows by one for each of them, and every sentence
    meets exactly one of the three outcomes. *)
Lemma update_loop_outcome (ids : list nat) (i : nat) (st st' : merge_state) :
  NoDup ids →
  update_loop pred_batch i ids st = Ok st' →
  ∃ added cut,
    new_pred_ids st' = (new_pred_ids st ++ added)
    ∧ added `sublist_of` ids ∧ cut `sublist_of` ids
    ∧ total_updated st'
      = total_updated st + Z.of_nat (length added) + Z.of_nat (length cut)
    ∧ ∀ k id, ids !! k = Some id →
        ∃ cur pred h,
          m_final_batch st !! id = Some cur
          ∧ pred_batch !! (i + k)%nat = Some pred
          ∧ m_prev_preds_dict st !! id = Some h
          ∧ ((pred = cur ∧ m_final_batch st' !! id = Some cur
              ∧ m_prev_preds_dict st' !! id = Some h
              ∧ (id ∉ added) ∧ (id ∉ cut))
             ∨ (pred ≠ cur ∧ pred ∈ h ∧ m_final_batch st' !! id = Some pred
                ∧ m_prev_preds_dict st' !! id = Some h
                ∧ (id ∉ added) ∧ (id ∈ cut))
             ∨ (pred ≠ cur ∧ (pred ∉ h) ∧ m_final_batch st' !! id = Some pred
                ∧ m_prev_preds_dict st' !! id = Some (h ++ [pred])
                ∧ (id ∈ added) ∧ (id ∉ cut))).
Proof.
  revert i st. induction ids as [|id0 ids IH]; intros i st Hnd; cbn.
  - intros [= ->]. exists [], []. rewrite app_nil_r. repeat split; try done.
    cbn. lia.
  - destruct (update_one pred_batch i id0 st) as [st1|] eqn:E; [|done]. cbn.
    intros H. apply NoDup_cons in Hnd as [Hid0 Hnd].
    destruct (IH _ _ Hnd H) as (added & cut & Hnew & Hadd & Hcut & Htot & Hper).
    destruct (update_loop_frame _ _ _ _ id0 H Hid0) as [Hf Hp].
    pose proof (update_one_inv _ _ _ _ E) as (cur & pred & h & H1 & H2 & H3 & ->).
    assert (Hlt : (id0 < length (m_final_batch st))%nat)
      by (by eapply lookup_lt_Some).
    assert (id0 ∉ added) as Hna by (intros ?; apply Hid0; by eapply elem_of_sublist).
    assert (id0 ∉ cut) as Hnc by (intros ?; apply Hid0; by eapply elem_of_sublist).
    assert (∀ k id, ids !! k = Some id → id ≠ id0) as Hne.
    { intros k id Hk ->. apply Hid0. by eapply list_elem_of_lookup_2. }
    unfold merged in *. destruct (bool_decide (cur = pred)) eqn:Eeq.
    + (* converged *)
      apply bool_decide_eq_true in Eeq as <-.
      exists added, cut. split; [done|].
      split; [by apply sublist_cons|]. split; [by apply sublist_cons|].
      split; [done|]. intros [|k] id Hk; cbn in Hk.
      * injection Hk as <-. exists cur, cur, h. rewrite Nat.add_0_r.
        repeat split; try done. left. rewrite Hf, Hp. done.
      * destruct (Hper k id Hk) as (c & p & hh & ? & ? & ? & ?).
        exists c, p, hh. replace (i + S k)%nat with (S i + k)%nat by lia. done.
    + apply bool_decide_eq_false in Eeq.
      destruct (bool_decide (pred ∈ h)) eqn:Ein; cbn in *.
      * (* repeated sequence *)
        apply bool_decide_eq_true in Ein.
        exists added, (id0 :: cut). split; [done|].
        split; [by apply sublist_cons|]. split; [by apply sublist_skip|].
        split; [cbn [length]; lia|]. intros [|k] id Hk; cbn in Hk.
        -- injection Hk as <-. exists cur, pred, h. rewrite Nat.add_0_r.
           repeat split; try done. right; left.
           rewrite Hf, Hp, list_lookup_insert_eq by done.
           repeat split; try done; first [congruence | apply list_elem_of_here].
        -- destruct (Hper k id Hk) as (c & p & hh & Hc & Hpb & Hh & Hcases).
           pose proof (Hne k id Hk) as Hd.
           rewrite list_lookup_insert_ne in Hc by done.
           exists c, p, hh. replace (i + S k)%nat with (S i + k)%nat by lia.
           repeat split; try done.
           destruct Hcases as [(?&?&?&?&?)|[(?&?&?&?&?&?)|(?&?&?&?&?&?)]];
             [left|right;left|right;right]; repeat split; try done;
             first [by apply list_elem_of_further | by apply not_elem_of_cons].
      * (* new sequence *)
        apply bool_decide_eq_false in Ein.
        exists (id0 :: added), cut. split; [by rewrite Hnew, <- app_assoc|].
        split; [by apply sublist_skip|]. split; [by apply sublist_cons|].
        split; [cbn [length]; lia|]. intros [|k] id Hk; cbn in Hk.
        -- injection Hk as <-. exists cur, pred, h. rewrite Nat.add_0_r.
           repeat split; try done. right; right.
           rewrite Hf, Hp, list_lookup_insert_eq, lookup_insert_eq by done.
           repeat split; try done; first [congruence | apply list_elem_of_here].
        -- destruct (Hper k id Hk) as (c & p & hh & Hc & Hpb & Hh & Hcases).
           pose proof (Hne k id Hk) as Hd.
           rewrite list_lookup_insert_ne in Hc by done.
           rewrite lookup_insert_ne in Hh by done.
           exists c, p, hh. replace (i + S k)%nat with (S i + k)%nat by lia.
           repeat split; try done.
           destruct Hcases as [(?&?&?&?&?)|[(?&?&?&?&?&?)|(?&?&?&?&?&?)]];
             [left|right;left|right;right]; repeat split; try done;
             first [by apply list_elem_of_further | by apply not_elem_of_cons].
Qed.

(** The loop does not raise when every id is a position of the batch with
    a history and every position has a proposal. *)
Lemma update_loop_ok (ids : list nat) (i : nat) (st : merge_state) :
  (∀ id, id ∈ ids →
     (id < length (m_final_batch st))%nat
     ∧ is_Some (m_prev_preds_dict st !! id)) →
  (i + length ids ≤ length pred_batch)%nat →
  ∃ st', update_loop pred_batch i ids st = Ok st'.
Proof.
  revert i st. induction ids as [|id0 ids IH]; intros i st Hin Hlen; cbn.
  - eauto.
  - destruct (Hin id0) as [Hlt [h Hh]]; [apply list_elem_of_here|].
    destruct (lookup_lt_is_Some_2 _ _ Hlt) as [cur Hcur].
    destruct (lookup_lt_is_Some_2 pred_batch i) as [pred Hpred];
      [cbn in Hlen; lia|].
    rewrite (update_one_cases _ _ _ _ _ _ Hcur Hpred Hh). cbn.
    apply IH; [|cbn in Hlen; lia].
    intros id Hid.
    destruct (Hin id) as [Hl Hs]; [by apply list_elem_of_further|].
    rewrite merged_length. split; [done|].
    destruct (decide (id = id0)) as [->|Hne].
    + unfold merged. repeat case_bool_decide; cbn; rewrite ?lookup_insert_eq; eauto.
    + by rewrite (proj2 (merged_other id0 cur pred h st id Hne)).
Qed.

End UpdateFacts.

(** C4: [update_final_batch] over distinct active ids that are positions of
    the batch with a history, each with a proposal. It returns; the new
    active ids and the ids cut for a repeated sequence ([cut]) are
    sublists of the active ids and the counter is the number of both. For
    every active sentence: a proposal equal to the current sequence leaves
    the entry and the history as they are and the id in neither list (not
    active, not counted); a different proposal found in the history
    replaces the entry and the id is not active; a different proposal that
    is new replaces the entry, is appended to the history and the id is
    active and counted once. *)
Theorem update_final_batch_outcomes (final_batch : list sentence)
    (pred_ids : list nat) (pred_batch : list sentence)
    (prev : gmap nat (list sentence)) :
  NoDup pred_ids →
  (∀ id, id ∈ pred_ids →
     (id < length final_batch)%nat ∧ is_Some (prev !! id)) →
  (length pred_ids ≤ length pred_batch)%nat →
  ∃ m cut,
    update_final_batch final_batch pred_ids pred_batch prev = Ok m
    ∧ new_pred_ids m `sublist_of` pred_ids
    ∧ cut `sublist_of` pred_ids
    ∧ total_updated m
      = Z.of_nat (length (new_pred_ids m)) + Z.of_nat (length cut)
    ∧ ∀ i ori_id, pred_ids !! i = Some ori_id →
        ∃ cur pred h,
          final_batch !! ori_id = Some cur
          ∧ pred_batch !! i = Some pred
          ∧ prev !! ori_id = Some h
          ∧ ((pred = cur
              ∧ m_final_batch m !! ori_id = Some cur
              ∧ m_prev_preds_dict m !! ori_id = Some h
              ∧ (ori_id ∉ new_pred_ids m) ∧ (ori_id ∉ cut))
             ∨ (pred ≠ cur ∧ pred ∈ h
                ∧ m_final_batch m !! ori_id = Some pred
                ∧ m_prev_preds_dict m !! ori_id = Some h
                ∧ (ori_id ∉ new_pred_ids m) ∧ (ori_id ∈ cut))
             ∨ (pred ≠ cur ∧ (pred ∉ h)
                ∧ m_final_batch m !! ori_id = Some pred
                ∧ m_prev_preds_dict m !! ori_id = Some (h ++ [pred])
                ∧ (ori_id ∈ new_pred_ids m) ∧ (ori_id ∉ cut))).
Proof.
  intros Hnd Hin Hlen. unfold update_final_batch.
  destruct (update_loop_ok pred_batch pred_ids 0
              {| m_final_batch := final_batch; new_pred_ids := [];
                 total_updated := 0; m_prev_preds_dict := prev |})
    as [m Hm]; [done | cbn; lia |].
  destruct (update_loop_outcome _ _ _ _ _ Hnd Hm)
    as (added & cut & Hnew & Hadd & Hcut & Htot & Hper).
  cbn in Hnew, Htot. subst added.
  exists m, cut. repeat split; try done.
Qed.

Lemma update_final_batch_outcomes_witness :
  ∃ m cut,
    update_final_batch [["a"]; ["b"]; ["c"]] [0; 1; 2]%nat
      [["a"]; ["x"]; ["y"]] demo_history = Ok m
    ∧ new_pred_ids m `sublist_of` [0; 1; 2]%nat
    ∧ cut `sublist_of` [0; 1; 2]%nat
    ∧ total_updated m
      = Z.of_nat (length (new_pred_ids m)) + Z.of_nat (length cut)
    ∧ ∀ i ori_id, [0; 1; 2]%nat !! i = Some ori_id →
        ∃ cur pred h,
          [["a"]; ["b"]; ["c"]] !! ori_id = Some cur
          ∧ [["a"]; ["x"]; ["y"]] !! i = Some pred
          ∧ demo_history !! ori_id = Some h
          ∧ ((pred = cur
              ∧ m_final_batch m !! ori_id = Some cur
              ∧ m_prev_preds_dict m !! ori_id = Some h
              ∧ (ori_id ∉ new_pred_ids m) ∧ (ori_id ∉ cut))
             ∨ (pred ≠ cur ∧ pred ∈ h
                ∧ m_final_batch m !! ori_id = Some pred
                ∧ m_prev_preds_dict m !! ori_id = Some h
                ∧ (ori_id ∉ new_pred_ids m) ∧ (ori_id ∈ cut))
             ∨ (pred ≠ cur ∧ (pred ∉ h)
                ∧ m_final_batch m !! ori_id = Some pred
                ∧ m_prev_preds_dict m !! ori_id = Some (h ++ [pred])
                ∧ (ori_id ∈ new_pred_ids m) ∧ (ori_id ∉ cut))).
Proof.
  apply update_final_batch_outcomes.
  - repeat (apply NoDup_cons; split;
            [intros H; repeat (apply elem_of_cons in H as [H|H];
                               [discriminate|]); by apply elem_of_nil in H|]).
    apply NoDup_nil_2.
  - intros id H.
    repeat (apply elem_of_cons in H as [->|H];
            [split; [simpl; lia | by eexists]|]).
    by apply elem_of_nil in H.
  - simpl. lia.
Defined.

(** The outcome of the example: sentence 0 converged, sentence 1 was cut
    for a repeated sequence, sentence 2 stays active; the counter is 2. *)
Lemma update_final_batch_example :
  update_final_batch [["a"]; ["b"]; ["c"]] [0; 1; 2]%nat
    [["a"]; ["x"]; ["y"]] demo_history
  = Ok {| m_final_batch := [["a"]; ["x"]; ["y"]];
          new_pred_ids := [2%nat];
          total_updated := 2;
          m_prev_preds_dict :=
            <[2%nat := [["c"]; ["y"]]]> demo_history |}.
Proof. reflexivity. Qed.

(** ** The refinement loop *)

Lemma forM_inv {A B : Type} (f : A → result B) (l : list A) (ys : list B) :
  forM f l = Ok ys →
  length ys = length l
  ∧ ∀ k x, l !! k = Some x → ∃ y, ys !! k = Some y ∧ f x = Ok y.
Proof.
  revert ys. induction l as [|x l IH]; intros ys; cbn.
  - intros [= <-]. split; [done|]. intros k x Hk. by destruct k.
  - destruct (f x) as [y|] eqn:Ef; [|done]. cbn.
    destruct (forM f l) as [ys'|]; [|done]. cbn. intros [= <-].
    destruct (IH ys' eq_refl) as [Hlen Hel]. split; [cbn; by rewrite Hlen|].
    intros [|k] x' Hk; cbn in *; [injection Hk as <-; eauto | eauto].
Qed.

Lemma forM_ok {A B : Type} (f : A → result B) (g : A → B) (l : list A) :
  (∀ x, x ∈ l → f x = Ok (g x)) → forM f l = Ok (g <$> l).
Proof.
  induction l as [|x l IH]; intros H; cbn; [done|].
  rewrite H by set_solver. cbn. rewrite IH by set_solver. done.
Qed.

Section LoopFacts.

Variable hp : Helpers.
Variable self : Predictor.

Lemma imap_keys {A B : Type} (g : A → B) (l : list A) :
  (imap (λ idx x, (idx, g x)) l).*1 = seq 0 (length l).
Proof.
  rewrite fmap_imap.
  rewrite (imap_ext _ (λ j _, id j)) by done.
  by rewrite imap_seq_0, list_fmap_id.
Qed.

Lemma history_lookup (fb : list sentence) (idx : nat) :
  prev_preds_dict (init_state self fb) !! idx = (λ s, [s]) <$> fb !! idx.
Proof.
  unfold init_state. cbn.
  destruct (fb !! idx) as [s|] eqn:E; cbn.
  - apply elem_of_list_to_map; [rewrite imap_keys; apply NoDup_seq|].
    apply elem_of_lookup_imap. eauto.
  - apply not_elem_of_list_to_map. rewrite imap_keys, elem_of_seq.
    apply lookup_ge_None in E. lia.
Qed.

Lemma elem_of_init_pred_ids (fb : list sentence) (idx : nat) :
  idx ∈ pred_ids (init_state self fb)
  ↔ ∃ s, fb !! idx = Some s ∧ ¬ (Z.of_nat (length s) < min_seq_len self).
Proof.
  unfold init_state. cbn.
  rewrite list_elem_of_filter, elem_of_list_to_set, list_elem_of_bind, elem_of_seq.
  split.
  - intros [Hns [_ Hlt]]. cbn in Hlt.
    destruct (lookup_lt_is_Some_2 fb idx Hlt) as [s Hs].
    exists s. split; [done|]. intros Hshort. apply Hns.
    exists (idx, s). split; [|apply elem_of_lookup_imap; eauto].
    cbn. apply Z.ltb_lt in Hshort. rewrite Hshort. set_solver.
  - intros (s & Hs & Hlong). split; [|apply lookup_lt_Some in Hs; lia].
    intros ([j t] & Hin & (k & t' & [= -> ->] & Hk)%elem_of_lookup_imap).
    cbn in Hin. destruct (Z.ltb_spec (Z.of_nat (length t')) (min_seq_len self));
      [|set_solver].
    apply list_elem_of_singleton in Hin as ->.
    assert (Some s = Some t') as [= ->] by (rewrite <- Hs; exact Hk). done.
Qed.

Lemma NoDup_init_pred_ids (fb : list sentence) :
  NoDup (pred_ids (init_state self fb)).
Proof. unfold init_state. cbn. apply NoDup_filter, NoDup_seq. Qed.

Lemma init_pred_ids_nil (fb : list sentence) :
  Forall (λ s, Z.of_nat (length s) < min_seq_len self) fb →
  pred_ids (init_state self fb) = [].
Proof.
  intros Hall. destruct (pred_ids (init_state self fb)) as [|idx ids] eqn:E;
    [done|].
  assert (idx ∈ pred_ids (init_state self fb)) as Hin by (rewrite E; set_solver).
  apply elem_of_init_pred_ids in Hin as (s & Hs & Hlong).
  rewrite Forall_lookup in Hall. by specialize (Hall _ _ Hs).
Qed.

Lemma preprocess_dict_nonempty (seqs : list sentence) d l :
  preprocess hp self seqs = Some (d, l) →
  d = (λ words, START_TOKEN hp :: words) <$> seqs
  ∧ l = (λ words, encode_length self (START_TOKEN hp :: words)) <$> seqs
  ∧ d ≠ [] ∧ ∃ s, s ∈ seqs ∧ s ≠ [].
Proof.
  unfold preprocess.
  destruct (filter (λ seq : sentence, seq ≠ []) seqs) as [|s ss] eqn:E;
    cbn; [done|].
  intros [= <- <-]. assert (s ∈ filter (λ seq : sentence, seq ≠ []) seqs) as Hs
    by (rewrite E; set_solver).
  apply list_elem_of_filter in Hs as [Hne Hs].
  repeat split; [|eauto]. destruct seqs; [by apply elem_of_nil in Hs | done].
Qed.

(** A pass that does not raise went through both halves. *)
Lemma iteration_inv (n : nat) (st st' : loop_state) (stop : bool) :
  iteration hp self n st = Ok (st', stop) →
  ∃ pred_batch m,
    tagging hp self n st = Ok (Some pred_batch)
    ∧ update_final_batch (final_batch st) (pred_ids st) pred_batch
        (prev_preds_dict st) = Ok m
    ∧ st' = {| final_batch := m_final_batch m;
               pred_ids := new_pred_ids m;
               prev_preds_dict := m_prev_preds_dict m;
               total_updates := total_updates st + total_updated m |}
    ∧ stop = bool_decide (new_pred_ids m = []).
Proof.
  unfold iteration.
  destruct (tagging hp self n st) as [[pred_batch|]|] eqn:Et; [| |done].
  - destruct (update_final_batch _ _ _ _) as [m|] eqn:Em; cbn; [|done].
    intros [= <- <-]. eauto 10.
  - exfalso. unfold tagging in Et.
    destruct (forM _ _) as [ori_batch|]; cbn in Et; [|done].
    destruct (preprocess hp self ori_batch) as [[d l]|] eqn:Ep; [|done].
    apply preprocess_dict_nonempty in Ep as (_ & _ & Hd & _).
    destruct d; [done|].
    destruct (model self n _) as [[? ?] ?]. by destruct (postprocess _ _ _ _ _ _ _).
Qed.

Lemma update_loop_new_subset pred_batch (ids : list nat) (i : nat)
    (st st' : merge_state) (id : nat) :
  update_loop pred_batch i ids st = Ok st' →
  id ∈ new_pred_ids st' → id ∈ new_pred_ids st ∨ id ∈ ids.
Proof.
  revert i st. induction ids as [|id0 ids IH]; intros i st; cbn.
  - intros [= ->]. auto.
  - destruct (update_one pred_batch i id0 st) as [st1|] eqn:E; [|done]. cbn.
    intros H Hid. destruct (IH _ _ H Hid) as [Hin|Hin];
      [|right; by apply list_elem_of_further].
    apply update_one_inv in E as (cur & pred & h & _ & _ & _ & ->).
    unfold merged in Hin. repeat case_bool_decide; cbn in Hin; try (by left).
    apply elem_of_app in Hin as [?|Hin%list_elem_of_singleton];
      [by left | subst; right; apply list_elem_of_here].
Qed.

(** A pass leaves the inactive sentences alone. *)
Lemma iteration_frame (n : nat) (st st' : loop_state) (stop : bool) (i : nat) :
  iteration hp self n st = Ok (st', stop) →
  i ∉ pred_ids st →
  (i ∉ pred_ids st') ∧ final_batch st' !! i = final_batch st !! i.
Proof.
  intros (pb & m & _ & Hm & -> & _)%iteration_inv Hi. cbn.
  unfold update_final_batch in Hm. split.
  - intros Hin. destruct (update_loop_new_subset _ _ _ _ _ _ Hm Hin) as [H|H];
      [by apply elem_of_nil in H | done].
  - by destruct (update_loop_frame _ _ _ _ _ i Hm Hi) as [-> _].
Qed.

Lemma loop_reachable (fb : list sentence) (fuel n : nat) (st st' : loop_state) :
  reachable hp self fb n st →
  loop hp self fuel n st = Ok st' →
  ∃ n', reachable hp self fb n' st'.
Proof.
  revert n st. induction fuel as [|fuel IH]; intros n st Hr; cbn.
  - intros [= <-]. eauto.
  - destruct (iteration hp self n st) as [[st1 stop]|] eqn:E; [|done].
    pose proof (reach_pass _ _ _ _ _ _ _ Hr E) as Hr1.
    destruct stop; [intros [= <-]; eauto | by apply IH].
Qed.

End LoopFacts.

(** C2: an empty batch, or a batch of sentences that are all shorter than
    [min_seq_len], makes [handle_batch] raise [ValueError] in its first
    pass as soon as [iteration_count] is at least 1: no sentence is active,
    [preprocess] returns the bare [[]] and line 145 unpacks it into two
    names. *)
Theorem handle_batch_all_short_raises (hp : Helpers) (self : Predictor)
    (full_batch : list sentence) :
  Forall (λ s, Z.of_nat (length s) < min_seq_len self) full_batch →
  1 ≤ iteration_count self →
  handle_batch hp self full_batch = Raise ValueError.
Proof.
  intros Hall Hn. unfold handle_batch.
  destruct (Z.to_nat (iteration_count self)) as [|fuel] eqn:E; [lia|].
  cbn [loop]. unfold iteration, tagging.
  by rewrite (init_pred_ids_nil _ _ Hall).
Qed.

Lemma handle_batch_all_short_raises_witness :
  handle_batch gector_helpers (demo_predictor 1 2 keep_model) [] = Raise ValueError
  ∧ handle_batch gector_helpers (demo_predictor 1 2 keep_model) [["a"]]
    = Raise ValueError.
Proof.
  split.
  - apply handle_batch_all_short_raises; [constructor | simpl; lia].
  - apply handle_batch_all_short_raises; [|simpl; lia].
    repeat constructor.
Defined.

(** Without a pass the batch is returned as it is. *)
Lemma handle_batch_no_pass (hp : Helpers) (self : Predictor)
    (full_batch : list sentence) :
  iteration_count self ≤ 0 → handle_batch hp self full_batch = Ok (full_batch, 0).
Proof.
  intros Hn. unfold handle_batch.
  replace (Z.to_nat (iteration_count self)) with 0%nat by lia. done.
Qed.

(** C8: a sentence of the input that is shorter than [min_seq_len] is, in
    every state the loop goes through, not among the active ids and still
    the entry of its position; and it is the entry of its position in the
    batch that [handle_batch] returns. *)
Theorem short_sentences_untouched (hp : Helpers) (self : Predictor)
    (full_batch : list sentence) (i : nat) (s : sentence) :
  full_batch !! i = Some s →
  Z.of_nat (length s) < min_seq_len self →
  (∀ n st, reachable hp self full_batch n st →
     (i ∉ pred_ids st) ∧ final_batch st !! i = Some s)
  ∧ (∀ out total, handle_batch hp self full_batch = Ok (out, total) →
       out !! i = Some s).
Proof.
  intros Hi Hshort.
  assert (∀ n st, reachable hp self full_batch n st →
            (i ∉ pred_ids st) ∧ final_batch st !! i = Some s) as Hinv.
  { induction 1 as [|n st st' stop _ [IH1 IH2] Hit].
    - split; [|done]. intros (s' & Hs' & Hlong)%elem_of_init_pred_ids.
      congruence.
    - destruct (iteration_frame _ _ _ _ _ _ i Hit IH1) as [? ->]. done. }
  split; [done|]. intros out total. unfold handle_batch.
  destruct (loop _ _ _ _ _) as [st|] eqn:El; cbn; [|done]. intros [= <- <-].
  destruct (loop_reachable hp self full_batch _ _ _ _ (reach_init _ _ _) El)
    as [n' Hr].
  by apply Hinv in Hr as [_ ?].
Qed.

Lemma short_sentences_untouched_witness :
  handle_batch gector_helpers (demo_predictor 3 2 (const_model [0; 2; 0]))
    [["a"; "b"]; ["c"]] = Ok ([["c"; "b"]; ["c"]], 1)
  ∧ [["c"; "b"]; ["c"]] !! 1%nat = Some ["c"].
Proof.
  assert (handle_batch gector_helpers
            (demo_predictor 3 2 (const_model [0; 2; 0]))
            [["a"; "b"]; ["c"]] = Ok ([["c"; "b"]; ["c"]], 1)) as Hrun
    by (vm_compute; reflexivity).
  split; [exact Hrun|].
  refine (proj2 (short_sentences_untouched gector_helpers
                   (demo_predictor 3 2 (const_model [0; 2; 0]))
                   [["a"; "b"]; ["c"]] 1 ["c"] eq_refl _) _ _ Hrun).
  simpl. lia.
Defined.

(** ** Re-running a converged batch *)


(** The same failure through the unpacking at line 145: with a
    sentence-by-sentence tagger the run deletes a word, converges, and its
    output has no sentence of [min_seq_len] words left; the second run
    raises. *)
Lemma rerun_raises_when_output_is_short :
  handle_batch gector_helpers (demo_predictor 5 2 (const_model [0; 0; 1]))
    [["a"; "b"]] = Ok ([["a"]], 1)
  ∧ handle_batch gector_helpers
      (set_iteration_count 1 (demo_predictor 5 2 (const_model [0; 0; 1])))
      [["a"]] = Raise ValueError.
Proof. split; vm_compute; reflexivity. Qed.

Lemma forM_fmap {A B C : Type} (f : B → result C) (g : A → B) (l : list A) :
  forM f (g <$> l) = forM (λ x, f (g x)) l.
Proof. induction l as [|x l IH]; cbn; [done | by rewrite IH]. Qed.

Lemma zip_rows_fmap {A : Type} (f1 : A → Z) (f2 : A → list Q)
    (f3 : A → list Z) (f4 : A → Q) (l : list A) :
  zip_rows (f1 <$> l) (f2 <$> l) (f3 <$> l) (f4 <$> l)
  = (λ x, {| truncated_seq_length := f1 x; label_probs := f2 x;
             label_ids := f3 x; incor_prob := f4 x |}) <$> l.
Proof. induction l as [|x l IH]; cbn; [done | by rewrite IH]. Qed.

Lemma zip_fmap_diag {A B : Type} (g : A → B) (l : list A) :
  zip l (g <$> l) = (λ x, (x, g x)) <$> l.
Proof. induction l as [|x l IH]; cbn; [done | by rewrite IH]. Qed.

Section Convergence.

Variable hp : Helpers.
Variable self : Predictor.
Variable tag : list string → list Q * list Z * Q.
Hypothesis Htag : sentencewise self tag.

(** Under a sentence-by-sentence model the proposals of a pass are the
    proposals of the active sentences, one by one. *)
Lemma tagging_sentencewise (n : nat) (st : loop_state) :
  tagging hp self n st
  = (ori_batch ← forM (list_item (final_batch st)) (pred_ids st);
     match preprocess hp self ori_batch with
     | None => Raise ValueError
     | Some _ => pred_batch ← forM (propose hp self tag) ori_batch;
                 Ok (Some pred_batch)
     end).
Proof.
  unfold tagging. destruct (forM _ _) as [ori_batch|]; cbn; [|done].
  destruct (preprocess hp self ori_batch) as [[d l]|] eqn:Ep; [|done].
  apply preprocess_dict_nonempty in Ep as (-> & -> & Hd & _).
  destruct (_ <$> ori_batch) as [|w ws] eqn:Ed; [done|]. rewrite <- Ed.
  rewrite Htag. unfold postprocess, postprocess_rows.
  rewrite <- !list_fmap_compose.
  rewrite (zip_rows_fmap
             (λ words, encode_length self (START_TOKEN hp :: words))
             (λ words, (tag (START_TOKEN hp :: words)).1.1)
             (λ words, (tag (START_TOKEN hp :: words)).1.2)
             (λ words, (tag (START_TOKEN hp :: words)).2)).
  by rewrite zip_fmap_diag, forM_fmap.
Qed.

Lemma converged_pass_settled (n : nat) (st st' : loop_state) (stop : bool) :
  NoDup (pred_ids st) →
  iteration hp self n st = Ok (st', stop) →
  pass_by_convergence hp self n st st' →
  (∀ i s, final_batch st !! i = Some s → i ∉ pred_ids st → settled hp self tag s) →
  NoDup (pred_ids st')
  ∧ (∀ i s, final_batch st' !! i = Some s → i ∉ pred_ids st' → settled hp self tag s).
Proof.
  intros Hnd Hit (pb' & Htg' & Hconv) Hinv.
  pose proof (iteration_inv _ _ _ _ _ _ Hit) as (pb & m & Htg & Hm & -> & _).
  rewrite Htg in Htg'. injection Htg' as <-. cbn in *.
  unfold update_final_batch in Hm.
  destruct (update_loop_outcome _ _ _ _ _ Hnd Hm)
    as (added & cut & Hnew & Hadd & _ & _ & Hper). cbn in Hnew.
  split; [rewrite Hnew; by eapply sublist_NoDup|].
  intros i s Hs Hi.
  destruct (decide (i ∈ pred_ids st)) as [Hin|Hnin].
  - apply list_elem_of_lookup in Hin as [k Hk].
    destruct (Hper k i Hk) as (cur & pred & h & Hcur & Hpred & _ & Hcases).
    cbn in Hcur, Hpred, Hcases. specialize (Hconv k i Hk Hi).
    rewrite Hpred, Hcur in Hconv. injection Hconv as ->.
    destruct Hcases as [(_ & Hf & _)|[(Hne & _)|(Hne & _)]]; try done.
    rewrite Hf in Hs. injection Hs as <-. right.
    rewrite tagging_sentencewise in Htg.
    destruct (forM _ (pred_ids st)) as [ori_batch|] eqn:Eo; cbn in Htg; [|done].
    destruct (preprocess hp self ori_batch); [|done].
    destruct (forM (propose hp self tag) ori_batch) as [pb2|] eqn:Ep;
      cbn in Htg; [|done].
    injection Htg as ->.
    destruct (proj2 (forM_inv _ _ _ Eo) k i Hk) as (y & Hy & Hitem).
    unfold list_item in Hitem. rewrite Hcur in Hitem. injection Hitem as <-.
    destruct (proj2 (forM_inv _ _ _ Ep) k cur Hy) as (z & Hz & Hprop).
    rewrite Hpred in Hz. by injection Hz as <-.
  - destruct (update_loop_frame _ _ _ _ _ i Hm Hnin) as [Hf _]. cbn in Hf.
    rewrite Hf in Hs. eauto.
Qed.

Lemma converged_run_settled (fuel n : nat) (st st' : loop_state) :
  converged_run hp self fuel n st st' →
  NoDup (pred_ids st) →
  (∀ i s, final_batch st !! i = Some s → i ∉ pred_ids st → settled hp self tag s) →
  loop hp self fuel n st = Ok st'
  ∧ ∀ i s, final_batch st' !! i = Some s → settled hp self tag s.
Proof.
  induction 1 as [fuel n st st' Hit Hpass|fuel n st st1 st' Hit Hpass _ IH];
    intros Hnd Hinv; cbn [loop]; rewrite Hit.
  - split; [done|].
    destruct (converged_pass_settled _ _ _ _ Hnd Hit Hpass Hinv) as [_ Hs].
    apply iteration_inv in Hit as (pb & m & _ & _ & -> & Hstop).
    symmetry in Hstop. apply bool_decide_eq_true in Hstop. cbn in *.
    intros i s Hi. apply (Hs i s Hi). rewrite Hstop. apply not_elem_of_nil.
  - destruct (converged_pass_settled _ _ _ _ Hnd Hit Hpass Hinv) as [Hnd1 Hs].
    by apply IH.
Qed.

Lemma update_loop_all_equal (pred_batch : list sentence) (ids : list nat)
    (i : nat) (st : merge_state) :
  (∀ k id, ids !! k = Some id →
     ∃ cur, m_final_batch st !! id = Some cur
            ∧ pred_batch !! (i + k)%nat = Some cur
            ∧ is_Some (m_prev_preds_dict st !! id)) →
  update_loop pred_batch i ids st = Ok st.
Proof.
  revert i. induction ids as [|id0 ids IH]; intros i H; cbn; [done|].
  destruct (H 0%nat id0 eq_refl) as (cur & Hc & Hp & [h Hh]).
  rewrite Nat.add_0_r in Hp.
  rewrite (update_one_cases _ _ _ _ _ _ _ Hc Hp Hh). unfold merged.
  rewrite bool_decide_eq_true_2 by done. cbn. apply IH.
  intros k id Hk. replace (S i + k)%nat with (i + S k)%nat by lia.
  by apply (H (S k)).
Qed.

End Convergence.

Lemma preprocess_some (hp : Helpers) (self : Predictor) (seqs : list sentence)
    (s : sentence) :
  s ∈ seqs → s ≠ [] →
  preprocess hp self seqs
  = Some ((λ words, START_TOKEN hp :: words) <$> seqs,
          (λ words, encode_length self (START_TOKEN hp :: words)) <$> seqs).
Proof.
  intros Hin Hne. unfold preprocess.
  destruct (filter (λ seq : sentence, seq ≠ []) seqs) as [|x xs] eqn:E; [|done].
  exfalso. by eapply (filter_nil_not_elem_of _ _ s E).
Qed.

(** One pass over a batch of settled sentences changes nothing. *)
Lemma rerun_settled (hp : Helpers) (self : Predictor)
    (tag : list string → list Q * list Z * Q) (out : list sentence) :
  sentencewise self tag →
  Z.to_nat (iteration_count self) = 1%nat →
  (∀ i s, out !! i = Some s → settled hp self tag s) →
  (∃ i s, out !! i = Some s
          ∧ ¬ (Z.of_nat (length s) < min_seq_len self) ∧ s ≠ []) →
  handle_batch hp self out = Ok (out, 0).
Proof.
  intros Htag Hfuel Hset (i0 & s0 & Hi0 & Hlong0 & Hne0).
  unfold handle_batch. rewrite Hfuel. cbn [loop].
  pose (g := λ id : nat, default [] (out !! id)).
  assert (Hfb : final_batch (init_state self out) = out) by done.
  assert (Hact : ∀ id, id ∈ pred_ids (init_state self out) →
            ∃ s, out !! id = Some s ∧ g id = s
                 ∧ propose hp self tag s = Ok s).
  { intros id (s & Hs & Hlong)%elem_of_init_pred_ids.
    exists s. unfold g. rewrite Hs. repeat split; try done.
    by destruct (Hset id s Hs). }
  assert (Hori : forM (list_item out) (pred_ids (init_state self out))
                 = Ok (g <$> pred_ids (init_state self out))).
  { apply forM_ok. intros id (s & Hs & <- & _)%Hact.
    unfold list_item, g. by rewrite Hs. }
  assert (Hpb : forM (propose hp self tag) (g <$> pred_ids (init_state self out))
                = Ok (g <$> pred_ids (init_state self out))).
  { rewrite forM_fmap. apply forM_ok.
    intros id (s & Hs & -> & Hp)%Hact. done. }
  assert (Hpre : preprocess hp self (g <$> pred_ids (init_state self out)) ≠ None).
  { rewrite (preprocess_some hp self _ s0); [done| |done].
    apply list_elem_of_fmap. exists i0. unfold g. rewrite Hi0. split; [done|].
    apply elem_of_init_pred_ids. eauto. }
  assert (Hupd : update_final_batch out (pred_ids (init_state self out))
                   (g <$> pred_ids (init_state self out))
                   (prev_preds_dict (init_state self out))
                 = Ok {| m_final_batch := out; new_pred_ids := [];
                         total_updated := 0;
                         m_prev_preds_dict :=
                           prev_preds_dict (init_state self out) |}).
  { apply update_loop_all_equal. intros k id Hk.
    cbn [m_final_batch m_prev_preds_dict Nat.add].
    destruct (Hact id) as (s & Hs & Hg & _); [by eapply list_elem_of_lookup_2|].
    exists s. rewrite list_lookup_fmap, Hk, history_lookup, Hs.
    cbn [fmap option_fmap option_map]. rewrite Hg. eauto. }
  unfold iteration. rewrite (tagging_sentencewise hp self tag Htag).
  rewrite Hfb, Hori, result_bind_ok.
  destruct (preprocess hp self _); [|done].
  rewrite Hpb, result_bind_ok, Hupd, result_bind_ok. done.
Qed.



(** ** The store: what [handle_batch] writes *)

Section StoreFacts.

Variable hp : Helpers.
Variable self : Predictor.

(** The objects of the caller: the store at the time of the call. *)
Variable σ0 : Refs.store.

Lemma keeps_ret {A : Type} (a : A) (P : A → Prop) : P a → keeps σ0 (Refs.ret a) P.
Proof. intros HP σ Hσ. split; [done|]. by intros a' [= <-]. Qed.

Lemma keeps_lift {A : Type} (r : result A) : keeps σ0 (Refs.lift r) (λ _, True).
Proof. by intros σ Hσ. Qed.

Lemma keeps_raise {A : Type} (e : exn) (P : A → Prop) :
  keeps σ0 (Refs.lift (Raise e)) P.
Proof. by intros σ Hσ. Qed.

Lemma keeps_weaken {A : Type} (m : Refs.M A) (P Q : A → Prop) :
  keeps σ0 m P → (∀ a, P a → Q a) → keeps σ0 m Q.
Proof.
  intros Hm HPQ σ Hσ. destruct (Hm σ Hσ) as [H1 H2]. split; [done|]. eauto.
Qed.

Lemma keeps_bind {A B : Type} (m : Refs.M A) (k : A → Refs.M B)
    (P : A → Prop) (Q : B → Prop) :
  keeps σ0 m P → (∀ a, P a → keeps σ0 (k a) Q) → keeps σ0 (Refs.bind m k) Q.
Proof.
  intros Hm Hk σ Hσ. unfold Refs.bind.
  destruct (Hm σ Hσ) as [H1 H2]. destruct (m σ) as [[a|e] σ1]; cbn in *.
  - by apply (Hk a (H2 a eq_refl)).
  - split; [done|]. intros b [=].
Qed.

Lemma keeps_alloc (o : Refs.obj) :
  keeps σ0 (Refs.alloc o) (λ l, (length σ0 ≤ l)%nat).
Proof.
  intros σ Hσ. cbn. split; [by apply prefix_app_r|].
  intros a [= <-]. by apply prefix_length.
Qed.

Lemma keeps_read_words (l : Refs.loc) : keeps σ0 (Refs.read_words l) (λ _, True).
Proof. intros σ Hσ. unfold Refs.read_words. repeat case_match; cbn; split; auto. Qed.

Lemma keeps_read_refs (l : Refs.loc) : keeps σ0 (Refs.read_refs l) (λ _, True).
Proof. intros σ Hσ. unfold Refs.read_refs. repeat case_match; cbn; split; auto. Qed.

(** A write to an object that [σ0] does not hold. *)
Lemma keeps_set_item (b : Refs.loc) (i : nat) (r : Refs.loc) :
  (length σ0 ≤ b)%nat → keeps σ0 (Refs.set_item b i r) (λ _, True).
Proof.
  intros Hb σ [k ->]. unfold Refs.set_item.
  repeat case_match; cbn; (split; [|done]);
    first [ by exists k | rewrite insert_app_r_alt by done; by eexists ].
Qed.

Lemma keeps_forS {A B : Type} (f : A → Refs.M B) (l : list A) :
  (∀ x, keeps σ0 (f x) (λ _, True)) → keeps σ0 (Refs.forS f l) (λ _, True).
Proof.
  intros Hf. induction l as [|x l IH]; cbn.
  - by apply keeps_ret.
  - eapply keeps_bind; [apply Hf|]. intros y _.
    eapply keeps_bind; [apply IH|]. intros ys _. by apply keeps_ret.
Qed.

Lemma keeps_postprocess_one (tokens : Refs.loc) (r : row) :
  keeps σ0 (Refs.postprocess_one hp self tokens r) (λ _, True).
Proof.
  unfold Refs.postprocess_one.
  eapply keeps_bind; [apply keeps_read_words|]. intros ws _.
  eapply keeps_bind; [apply keeps_lift|]. intros [[|a edits]|] _;
    try (by apply keeps_ret).
  eapply keeps_weaken; [apply keeps_alloc | done].
Qed.

Lemma keeps_update_one (fb : Refs.loc) (pred_batch : list Refs.loc)
    (i ori_id : nat) (st : Refs.merge_state) :
  (length σ0 ≤ fb)%nat →
  keeps σ0 (Refs.update_one fb pred_batch i ori_id st) (λ _, True).
Proof.
  intros Hfb. unfold Refs.update_one.
  eapply keeps_bind; [apply keeps_read_refs|]. intros refs _.
  eapply keeps_bind; [apply keeps_lift|]. intros ori_tokens _.
  eapply keeps_bind; [apply keeps_lift|]. intros pred_tokens _.
  eapply keeps_bind; [apply keeps_lift|]. intros prev_preds _.
  eapply keeps_bind; [apply keeps_read_words|]. intros ori_words _.
  eapply keeps_bind; [apply keeps_read_words|]. intros pred_words _.
  case_bool_decide; [|by apply keeps_ret].
  eapply keeps_bind; [apply keeps_forS, keeps_read_words|]. intros prev_words _.
  case_bool_decide;
    (eapply keeps_bind; [by apply keeps_set_item|]; intros _ _;
     by apply keeps_ret).
Qed.

Lemma keeps_update_loop (fb : Refs.loc) (pred_batch : list Refs.loc)
    (ids : list nat) (i : nat) (st : Refs.merge_state) :
  (length σ0 ≤ fb)%nat →
  keeps σ0 (Refs.update_loop fb pred_batch i ids st) (λ _, True).
Proof.
  intros Hfb. revert i st. induction ids as [|id ids IH]; intros i st; cbn.
  - by apply keeps_ret.
  - eapply keeps_bind; [by apply keeps_update_one|]. intros st' _. apply IH.
Qed.

Lemma keeps_iteration (n : nat) (st : Refs.loop_state) :
  (length σ0 ≤ Refs.final_batch st)%nat →
  keeps σ0 (Refs.iteration hp self n st)
    (λ r, Refs.final_batch r.1 = Refs.final_batch st).
Proof.
  intros Hfb. unfold Refs.iteration.
  eapply keeps_bind; [apply keeps_read_refs|]. intros refs _.
  eapply keeps_bind; [apply keeps_lift|]. intros ori_batch _.
  eapply keeps_bind; [apply keeps_forS, keeps_read_words|]. intros ori_words _.
  destruct (preprocess hp self ori_words) as [[d l]|];
    [|apply keeps_raise].
  destruct d; [by apply keeps_ret|].
  destruct (model self n _) as [[lp li] inc].
  eapply keeps_bind.
  { unfold Refs.postprocess. apply keeps_forS. intros tr.
    apply keeps_postprocess_one. }
  intros pred_batch _.
  eapply keeps_bind; [by apply keeps_update_loop|]. intros m _.
  by apply keeps_ret.
Qed.

Lemma keeps_loop (fuel n : nat) (st : Refs.loop_state) :
  (length σ0 ≤ Refs.final_batch st)%nat →
  keeps σ0 (Refs.loop hp self fuel n st)
    (λ st', Refs.final_batch st' = Refs.final_batch st).
Proof.
  revert n st. induction fuel as [|fuel IH]; intros n st Hfb; cbn.
  - by apply keeps_ret.
  - eapply keeps_bind; [by apply keeps_iteration|]. intros [st1 stop] Heq.
    cbn in *. destruct stop; [by apply keeps_ret|].
    rewrite <- Heq. apply IH. by rewrite Heq.
Qed.

Lemma keeps_handle_batch (full_batch : Refs.loc) :
  keeps σ0 (Refs.handle_batch hp self full_batch)
    (λ r, (length σ0 ≤ r.1)%nat).
Proof.
  unfold Refs.handle_batch.
  eapply keeps_bind with (P := λ st, (length σ0 ≤ Refs.final_batch st)%nat).
  - unfold Refs.init_state.
    eapply keeps_bind; [apply keeps_read_refs|]. intros refs _.
    eapply keeps_bind; [apply keeps_alloc|]. intros fb Hfb.
    eapply keeps_bind; [apply keeps_forS, keeps_read_words|]. intros sents _.
    by apply keeps_ret.
  - intros st0 Hfb.
    eapply keeps_bind; [by apply keeps_loop|]. intros st Heq.
    apply keeps_ret. cbn. by rewrite Heq.
Qed.

End StoreFacts.

Lemma batch_value_prefix (σ σ' : Refs.store) (b : Refs.loc)
    (vs : list sentence) :
  σ `prefix_of` σ' →
  Refs.batch_value σ b = Some vs → Refs.batch_value σ' b = Some vs.
Proof.
  intros Hpre. unfold Refs.batch_value.
  destruct (σ !! b) as [[ws|rs]|] eqn:Eb; try done.
  rewrite (prefix_lookup_Some _ _ _ _ Eb Hpre). clear Eb.
  revert vs. induction rs as [|r rs IH]; intros vs; cbn; [done|].
  destruct (σ !! r) as [[ws|rs']|] eqn:Er; try done.
  rewrite (prefix_lookup_Some _ _ _ _ Er Hpre). cbn.
  destruct (mapM _ rs) as [vs'|] eqn:Em; [|done]. cbn.
  intros [= <-]. by rewrite (IH vs' eq_refl).
Qed.

(** C10: whatever [handle_batch] does, by return or by exception, every
    list object that exists when it is called still has the items it had:
    the store after the call extends the store before it. So the input
    list and the sentences it holds have the values they had, and the
    batch that is returned is a new list object. *)
Theorem handle_batch_keeps_input (hp : Helpers) (self : Predictor)
    (full_batch : Refs.loc) (σ : Refs.store) :
  σ `prefix_of` (Refs.handle_batch hp self full_batch σ).2
  ∧ (∀ l o, σ !! l = Some o →
       (Refs.handle_batch hp self full_batch σ).2 !! l = Some o)
  ∧ (∀ vs, Refs.batch_value σ full_batch = Some vs →
       Refs.batch_value (Refs.handle_batch hp self full_batch σ).2 full_batch
       = Some vs)
  ∧ (∀ b n, (Refs.handle_batch hp self full_batch σ).1 = Ok (b, n) →
       (length σ ≤ b)%nat).
Proof.
  destruct (keeps_handle_batch hp self σ full_batch σ) as [Hpre Hnew]; [done|].
  repeat split; [done| | |].
  - intros l o Hl. by eapply prefix_lookup_Some.
  - intros vs. by apply batch_value_prefix.
  - intros b n Hr. by apply (Hnew (b, n)).
Qed.

Lemma handle_batch_keeps_input_witness :
  Refs.batch_value demo_store 2%nat = Some [["a"; "b"]; ["c"]]
  ∧ Refs.batch_value
      (Refs.handle_batch gector_helpers
         (demo_predictor 3 2 (const_model [0; 2; 0])) 2%nat demo_store).2
      2%nat = Some [["a"; "b"]; ["c"]].
Proof.
  split; [reflexivity|].
  apply (proj1 (proj2 (proj2 (handle_batch_keeps_input gector_helpers
           (demo_predictor 3 2 (const_model [0; 2; 0])) 2%nat demo_store)))).
  reflexivity.
Defined.

(** The run of the example: the returned batch is the new object 3, whose
    first item is the new sentence 4; the objects 0, 1 and 2 of the caller
    are as they were. *)
Lemma handle_batch_store_example :
  Refs.handle_batch gector_helpers
    (demo_predictor 3 2 (const_model [0; 2; 0])) 2%nat demo_store
  = (Ok (3%nat, 1),
     demo_store ++ [Refs.ORefs [4%nat; 1%nat]; Refs.OWords ["c"; "b"];
                    Refs.OWords ["c"; "b"]]).
Proof. vm_compute. reflexivity. Qed.

(** ** The store embedding computes what the value embedding computes *)

Lemma holds_prefix (σ σ' : Refs.store) ls vs :
  σ `prefix_of` σ' → holds σ ls vs → holds σ' ls vs.
Proof.
  intros Hpre H. eapply Forall2_impl; [exact H|]. intros l ws Hl. cbn in *.
  exact (prefix_lookup_Some _ _ _ _ Hl Hpre).
Qed.

Lemma agree_bind {A B C D : Type} (P : Refs.store → A → B → Prop)
    (Q : Refs.store → C → D → Prop) (m : Refs.M A) (k : A → Refs.M C)
    (r : result B) (k' : B → result D) (σ : Refs.store) :
  agree P (m σ) r →
  (∀ σ' a b, P σ' a b → agree Q (k a σ') (k' b)) →
  agree Q (Refs.bind m k σ) (r ≫= k').
Proof.
  unfold Refs.bind. intros Hm Hk.
  destruct (m σ) as [[a|e] σ'], r as [b|e']; cbn in *; try done.
  by apply Hk.
Qed.

Lemma agree_weaken {A B : Type} (P Q : Refs.store → A → B → Prop) x y :
  agree P x y → (∀ σ a b, P σ a b → Q σ a b) → agree Q x y.
Proof. destruct x as [[a|e] σ], y as [b|e']; cbn; auto. Qed.

Lemma read_words_at (σ : Refs.store) (l : Refs.loc) (ws : sentence) :
  σ !! l = Some (Refs.OWords ws) → Refs.read_words l σ = (Ok ws, σ).
Proof. intros H. unfold Refs.read_words. by rewrite H. Qed.

(** Reading the words behind references that stand for [vs] gives [vs]. *)
Lemma read_words_holds (σ : Refs.store) ls vs :
  holds σ ls vs → Refs.forS Refs.read_words ls σ = (Ok vs, σ).
Proof.
  induction 1 as [|l ws ls vs Hl _ IH]; cbn; [done|].
  unfold Refs.bind, Refs.read_words at 1. rewrite Hl. cbn.
  by rewrite IH.
Qed.

Lemma list_item_agree (σ : Refs.store) refs vs (id : nat) :
  holds σ refs vs →
  match list_item refs id, list_item vs id with
  | Ok l, Ok ws =>
      σ !! l = Some (Refs.OWords ws) ∧ refs !! id = Some l ∧ vs !! id = Some ws
  | Raise e, Raise e' => e = e'
  | _, _ => False
  end.
Proof.
  intros Hh. unfold list_item. destruct (refs !! id) as [l|] eqn:El.
  - by destruct (Forall2_lookup_l _ _ _ _ _ Hh El) as (ws & -> & Hl).
  - apply lookup_ge_None in El. rewrite (Forall2_length _ _ _ Hh) in El.
    apply lookup_ge_None in El. by rewrite El.
Qed.

Lemma list_item_holds (σ : Refs.store) refs vs (ids : list nat) :
  holds σ refs vs →
  match forM (list_item refs) ids, forM (list_item vs) ids with
  | Ok ls, Ok ws => holds σ ls ws
  | Raise e, Raise e' => e = e'
  | _, _ => False
  end.
Proof.
  intros Hh. induction ids as [|id ids IH]; cbn; [constructor|].
  pose proof (list_item_agree σ refs vs id Hh) as Hid.
  destruct (list_item refs id) as [l|], (list_item vs id) as [ws|];
    cbn; try done.
  destruct (forM (list_item refs) ids) as [ls|],
    (forM (list_item vs) ids) as [wss|]; cbn; try done.
  constructor; [apply Hid | done].
Qed.

Lemma dict_item_agree (σ : Refs.store) (dh : gmap nat (list Refs.loc))
    (dv : gmap nat (list sentence)) (id : nat) :
  (∀ id, option_Forall2 (holds σ) (dh !! id) (dv !! id)) →
  match dict_item dh id, dict_item dv id with
  | Ok hl, Ok hv => holds σ hl hv ∧ dh !! id = Some hl ∧ dv !! id = Some hv
  | Raise e, Raise e' => e = e'
  | _, _ => False
  end.
Proof.
  intros H. unfold dict_item. by destruct (H id).
Qed.

Lemma holds_words_kept (σ σ' : Refs.store) ls vs :
  words_kept σ σ' → holds σ ls vs → holds σ' ls vs.
Proof.
  intros Hk H. eapply Forall2_impl; [exact H|]. intros l ws Hl. by apply Hk.
Qed.

Lemma words_kept_prefix (σ σ' : Refs.store) :
  σ `prefix_of` σ' → words_kept σ σ'.
Proof. intros Hpre l ws Hl. exact (prefix_lookup_Some _ _ _ _ Hl Hpre). Qed.

Lemma words_kept_refl (σ : Refs.store) : words_kept σ σ.
Proof. by intros l ws Hl. Qed.

Lemma words_kept_trans (σ1 σ2 σ3 : Refs.store) :
  words_kept σ1 σ2 → words_kept σ2 σ3 → words_kept σ1 σ3.
Proof. intros H1 H2 l ws Hl. by apply H2, H1. Qed.

Section Simulation.

Variable hp : Helpers.
Variable self : Predictor.

Lemma sim_postprocess_one (σ : Refs.store) (tokens : Refs.loc)
    (ws : sentence) (r : row) :
  σ !! tokens = Some (Refs.OWords ws) →
  agree (λ σ' l v, σ `prefix_of` σ' ∧ σ' !! l = Some (Refs.OWords v))
    (Refs.postprocess_one hp self tokens r σ) (postprocess_one hp self ws r).
Proof.
  intros Ht. unfold Refs.postprocess_one, postprocess_one, Refs.bind,
    Refs.read_words, Refs.lift. rewrite Ht.
  destruct (sentence_edits hp self ws r) as [[[|a es]|]|]; cbn; try done.
  split; [by apply prefix_app_r|].
  by rewrite lookup_app_r, Nat.sub_diag.
Qed.

Lemma sim_postprocess_rows (bh : list Refs.loc) (bv : list sentence)
    (rows : list row) (σ : Refs.store) :
  holds σ bh bv →
  agree (λ σ' ls vs, σ `prefix_of` σ' ∧ holds σ' ls vs)
    (Refs.forS (λ tr, Refs.postprocess_one hp self tr.1 tr.2) (zip bh rows) σ)
    (postprocess_rows hp self bv rows).
Proof.
  unfold postprocess_rows. intros Hh. revert rows σ Hh.
  revert bv. induction bh as [|l bh IH]; intros bv rows σ Hh.
  - apply Forall2_nil_inv_l in Hh as ->. cbn. by split; [|constructor].
  - apply Forall2_cons_inv_l in Hh as (v & bv' & Hl & Hh & ->).
    destruct rows as [|r rows]; cbn; [by split; [|constructor]|].
    eapply agree_bind; [by apply sim_postprocess_one|].
    intros σ1 l1 v1 [Hpre1 Hl1]. cbn.
    eapply agree_bind; [apply IH; by eapply holds_prefix|].
    intros σ2 ls vs [Hpre2 Hls]. cbn. split; [by etrans|].
    constructor; [|done]. exact (prefix_lookup_Some _ _ _ _ Hl1 Hpre2).
Qed.

Lemma sim_update_one (σ : Refs.store) (fb : Refs.loc)
    (pbh : list Refs.loc) (pbv : list sentence) (i id : nat)
    (mh : Refs.merge_state) (mv : merge_state) :
  holds σ pbh pbv →
  sim_merge σ fb mh mv →
  agree (λ σ' mh' mv', words_kept σ σ' ∧ sim_merge σ' fb mh' mv')
    (Refs.update_one fb pbh i id mh σ) (update_one pbv i id mv).
Proof.
  intros Hpb ((refs & Hfb & Hrefs) & Hnew & Htot & Hhist).
  unfold Refs.update_one, update_one, Refs.bind, Refs.read_refs, Refs.lift.
  rewrite Hfb.
  pose proof (list_item_agree σ refs (m_final_batch mv) id Hrefs) as H1.
  destruct (list_item refs id) as [lo|], (list_item (m_final_batch mv) id)
    as [cur|]; cbn; try done. destruct H1 as (Hlo & Hrid & Hvid).
  pose proof (list_item_agree σ pbh pbv i Hpb) as H2.
  destruct (list_item pbh i) as [lp|], (list_item pbv i) as [pred|];
    cbn; try done. destruct H2 as (Hlp & _ & _).
  pose proof (dict_item_agree σ _ _ id Hhist) as H3.
  destruct (dict_item (Refs.m_prev_preds_dict mh) id) as [hl|],
    (dict_item (m_prev_preds_dict mv) id) as [hv|]; cbn; try done.
  destruct H3 as (Hh & Hdh & Hdv).
  rewrite (read_words_at _ _ _ Hlo). cbv beta iota.
  rewrite (read_words_at _ _ _ Hlp).
  assert (Hlt : (id < length refs)%nat) by (by eapply lookup_lt_Some).
  assert (Hfblt : (fb < length σ)%nat) by (by eapply lookup_lt_Some).
  assert (Hkept : words_kept σ (<[fb := Refs.ORefs (<[id := lp]> refs)]> σ)).
  { intros l ws Hl. rewrite list_lookup_insert_ne; [done|].
    intros ->. rewrite Hfb in Hl. discriminate. }
  assert (Hbatch : ∃ refs', <[fb := Refs.ORefs (<[id := lp]> refs)]> σ !! fb
                            = Some (Refs.ORefs refs')
                   ∧ holds (<[fb := Refs.ORefs (<[id := lp]> refs)]> σ) refs'
                       (<[id := pred]> (m_final_batch mv))).
  { eexists. split; [by apply list_lookup_insert_eq|].
    apply Forall2_insert; [by eapply holds_words_kept | by apply Hkept]. }
  cbv beta iota. case_bool_decide.
  - rewrite (read_words_holds _ _ _ Hh). cbv beta iota.
    case_bool_decide; unfold Refs.set_item; cbv beta; rewrite Hfb;
      rewrite bool_decide_eq_true_2 by done; cbn.
    + split; [done|]. split; [done|]. cbn. rewrite Hnew, Htot.
      repeat split; try done. intros id'.
      destruct (decide (id' = id)) as [->|Hne].
      * rewrite !lookup_insert_eq. constructor.
        apply Forall2_app; [by eapply holds_words_kept|].
        constructor; [by apply Hkept | constructor].
      * rewrite !lookup_insert_ne by done.
        destruct (Hhist id'); constructor. by eapply holds_words_kept.
    + split; [done|]. split; [done|]. cbn. rewrite Hnew, Htot.
      repeat split; try done. intros id'.
      destruct (Hhist id'); constructor. by eapply holds_words_kept.
  - cbn. split; [apply words_kept_refl|]. repeat split; try done. eauto.
Qed.

Lemma sim_update_loop (fb : Refs.loc) (pbh : list Refs.loc)
    (pbv : list sentence) (ids : list nat) (i : nat)
    (mh : Refs.merge_state) (mv : merge_state) (σ : Refs.store) :
  holds σ pbh pbv →
  sim_merge σ fb mh mv →
  agree (λ σ' mh' mv', words_kept σ σ' ∧ sim_merge σ' fb mh' mv')
    (Refs.update_loop fb pbh i ids mh σ) (update_loop pbv i ids mv).
Proof.
  revert i mh mv σ. induction ids as [|id ids IH]; intros i mh mv σ Hpb Hm.
  - cbn. split; [apply words_kept_refl | done].
  - cbn. eapply agree_bind; [by apply sim_update_one|].
    intros σ1 mh1 mv1 [Hk1 Hm1]. cbn.
    eapply agree_weaken; [apply IH; [by eapply holds_words_kept | done]|].
    intros σ2 mh2 mv2 [Hk2 Hm2]. split; [by eapply words_kept_trans | done].
Qed.

Lemma sim_iteration (n : nat) (sh : Refs.loop_state) (sv : loop_state)
    (σ : Refs.store) :
  sim_state σ sh sv →
  agree (λ σ' rh rv,
           rh.2 = rv.2 ∧ Refs.final_batch rh.1 = Refs.final_batch sh
           ∧ sim_state σ' rh.1 rv.1)
    (Refs.iteration hp self n sh σ) (iteration hp self n sv).
Proof.
  intros Hsim. pose proof Hsim as ((refs & Hfb & Hrefs) & Hids & Htot & Hhist).
  unfold Refs.iteration, iteration, tagging, Refs.bind, Refs.read_refs,
    Refs.lift. rewrite Hfb. cbv beta iota. rewrite Hids.
  pose proof (list_item_holds σ refs (final_batch sv) (pred_ids sv) Hrefs) as H1.
  destruct (forM (list_item refs) (pred_ids sv)) as [obh|],
    (forM (list_item (final_batch sv)) (pred_ids sv)) as [obv|];
    cbn [mbind result_bind]; try done.
  rewrite (read_words_holds _ _ _ H1). cbv beta iota.
  destruct (preprocess hp self obv) as [[d l]|]; [|done].
  destruct d as [|w d]; [done|].
  destruct (model self n (w :: d)) as [[lp li] inc].
  unfold Refs.postprocess, postprocess.
  pose proof (sim_postprocess_rows obh obv (zip_rows l lp li inc) σ H1) as H2.
  destruct (Refs.forS _ _ σ) as [[pbh|e] σ1],
    (postprocess_rows hp self obv (zip_rows l lp li inc)) as [pbv|e'];
    cbn in H2; cbn [mbind result_bind]; try done.
  destruct H2 as [Hpre Hpb].
  unfold Refs.update_final_batch, update_final_batch.
  match goal with
  | |- context [Refs.update_loop ?fb ?pb 0 ?ids ?mh σ1] =>
      pose proof (sim_update_loop fb pb pbv ids 0 mh
                    {| m_final_batch := final_batch sv; new_pred_ids := [];
                       total_updated := 0;
                       m_prev_preds_dict := prev_preds_dict sv |} σ1 Hpb) as H3
  end.
  destruct (Refs.update_loop _ _ _ _ _ σ1) as [[mh'|e] σ2],
    (update_loop pbv 0 (pred_ids sv) _) as [mv'|e']; cbn in H3 |- *.
  - destruct H3 as (_ & (Hb & Hn & Ht & Hh)).
    { repeat split; cbn; try done.
      - exists refs. split; [exact (prefix_lookup_Some _ _ _ _ Hfb Hpre)|].
        by eapply holds_prefix.
      - intros id. destruct (Hhist id); constructor. by eapply holds_prefix. }
    cbn. rewrite Hn, Ht, Htot. repeat split; done.
  - exfalso. apply H3. repeat split; cbn; try done.
    + exists refs. split; [exact (prefix_lookup_Some _ _ _ _ Hfb Hpre)|].
      by eapply holds_prefix.
    + intros id. destruct (Hhist id); constructor. by eapply holds_prefix.
  - exfalso. apply H3. repeat split; cbn; try done.
    + exists refs. split; [exact (prefix_lookup_Some _ _ _ _ Hfb Hpre)|].
      by eapply holds_prefix.
    + intros id. destruct (Hhist id); constructor. by eapply holds_prefix.
  - apply H3. repeat split; cbn; try done.
    + exists refs. split; [exact (prefix_lookup_Some _ _ _ _ Hfb Hpre)|].
      by eapply holds_prefix.
    + intros id. destruct (Hhist id); constructor. by eapply holds_prefix.
Qed.

Lemma sim_loop (fuel n : nat) (sh : Refs.loop_state) (sv : loop_state)
    (σ : Refs.store) :
  sim_state σ sh sv →
  agree (λ σ' sh' sv', sim_state σ' sh' sv')
    (Refs.loop hp self fuel n sh σ) (loop hp self fuel n sv).
Proof.
  revert n sh sv σ. induction fuel as [|fuel IH]; intros n sh sv σ Hsim; cbn.
  - done.
  - pose proof (sim_iteration n sh sv σ Hsim) as H. unfold Refs.bind.
    destruct (Refs.iteration hp self n sh σ) as [[[sh1 b1]|e] σ1],
      (iteration hp self n sv) as [[sv1 b2]|e']; cbn in *; try done.
    destruct H as (-> & _ & Hsim1). destruct b2; [done|]. by apply IH.
Qed.

End Simulation.

Lemma singleton_map_lookup {A : Type} (l : list A) (idx : nat) :
  (list_to_map (imap (λ idx x, (idx, [x])) l) : gmap nat (list A)) !! idx
  = (λ x, [x]) <$> l !! idx.
Proof.
  destruct (l !! idx) as [x|] eqn:E; cbn.
  - apply elem_of_list_to_map; [rewrite imap_keys; apply NoDup_seq|].
    apply elem_of_lookup_imap. eauto.
  - apply not_elem_of_list_to_map. rewrite imap_keys, elem_of_seq.
    apply lookup_ge_None in E. lia.
Qed.

Lemma batch_value_holds (σ : Refs.store) (b : Refs.loc) (vs : list sentence) :
  Refs.batch_value σ b = Some vs
  ↔ ∃ refs, σ !! b = Some (Refs.ORefs refs) ∧ holds σ refs vs.
Proof.
  unfold Refs.batch_value, holds. split.
  - destruct (σ !! b) as [[ws|refs]|]; try done. intros H%mapM_Some.
    exists refs. split; [done|]. eapply Forall2_impl; [exact H|].
    intros l ws Hl. cbn in Hl. by destruct (σ !! l) as [[]|]; simplify_eq.
  - intros (refs & -> & H). apply mapM_Some.
    eapply Forall2_impl; [exact H|]. intros l ws Hl. cbn in *. by rewrite Hl.
Qed.

Lemma sim_init_state (self : Predictor) (fb : Refs.loc) (σ : Refs.store)
    (vs : list sentence) :
  Refs.batch_value σ fb = Some vs →
  agree (λ σ' sh sv, sim_state σ' sh sv)
    (Refs.init_state self fb σ) (Ok (init_state self vs)).
Proof.
  intros (refs & Hfb & Hrefs)%batch_value_holds.
  unfold Refs.init_state, Refs.bind, Refs.read_refs, Refs.alloc.
  rewrite Hfb. cbv beta iota.
  assert (Hrefs1 : holds (σ ++ [Refs.ORefs refs]) refs vs)
    by (eapply holds_prefix; [by apply prefix_app_r | done]).
  rewrite (read_words_holds _ _ _ Hrefs1). cbn.
  repeat split; cbn.
  - exists refs. split; [by rewrite lookup_app_r, Nat.sub_diag | done].
  - by rewrite (Forall2_length _ _ _ Hrefs).
  - intros id. rewrite !singleton_map_lookup.
    destruct (refs !! id) as [l|] eqn:El.
    + destruct (Forall2_lookup_l _ _ _ _ _ Hrefs1 El) as (ws & -> & Hl).
      cbn. constructor. constructor; [done | constructor].
    + apply lookup_ge_None in El. rewrite (Forall2_length _ _ _ Hrefs) in El.
      apply lookup_ge_None in El. rewrite El. constructor.
Qed.

(** Started on a reference to a list that stands for [vs], [handle_batch]
    over the store raises the exception [handle_batch] raises on [vs], or
    returns the same count and a reference that stands for the batch
    [handle_batch] returns. *)
Lemma store_run_agrees (hp : Helpers) (self : Predictor) (fb : Refs.loc)
    (σ : Refs.store) (vs : list sentence) :
  Refs.batch_value σ fb = Some vs →
  agree (λ σ' rh rv, rh.2 = rv.2 ∧ Refs.batch_value σ' rh.1 = Some rv.1)
    (Refs.handle_batch hp self fb σ) (handle_batch hp self vs).
Proof.
  intros Hb. unfold Refs.handle_batch, handle_batch.
  change (loop hp self (Z.to_nat (iteration_count self)) 0 (init_state self vs)
          ≫= (λ st, Ok (final_batch st, total_updates st)))
    with (Ok (init_state self vs)
          ≫= (λ st0, loop hp self (Z.to_nat (iteration_count self)) 0 st0
                     ≫= (λ st, Ok (final_batch st, total_updates st)))).
  eapply agree_bind; [by apply sim_init_state|]. intros σ1 sh0 sv0 Hsim0.
  eapply agree_bind; [by apply sim_loop|]. intros σ2 sh sv Hsim. cbn.
  destruct Hsim as (Hbv & _ & Htot & _). split; [done|].
  by apply batch_value_holds.
Qed.

(** * More facts *)

(** ** The outcomes of the decoder *)

Lemma span_family_decodes (hp : Helpers) (self : Predictor) (token : string)
    (idx : Z) (p : Q) (label : string) :
  (min_error_probability self <= p)%Q →
  label ∉ [UNK_LABEL hp; PAD_LABEL hp; KEEP_LABEL hp] →
  span_family label = true →
  ∃ a, get_label_action hp self token idx p label = Ok (Some a).
Proof.
  intros Hp Hs. unfold span_family.
  rewrite !orb_true_iff, bool_decide_eq_true.
  intros [[[[H|H]|H]|H]|H].
  - apply startswith_app in H as [x ->]. rewrite decode_replace; eauto.
  - apply startswith_app in H as [x ->]. rewrite decode_transform; eauto.
  - subst. rewrite decode_delete; eauto.
  - apply startswith_app in H as [x ->]. rewrite decode_append; eauto.
  - apply startswith_app in H as [x ->]. rewrite decode_merge; eauto.
Qed.

Lemma other_family_raises (hp : Helpers) (self : Predictor) (token : string)
    (idx : Z) (p : Q) (label : string) :
  (min_error_probability self <= p)%Q →
  label ∉ [UNK_LABEL hp; PAD_LABEL hp; KEEP_LABEL hp] →
  span_family label = false →
  ∃ e, get_label_action hp self token idx p label = Raise e.
Proof.
  intros Hp Hs. unfold span_family.
  rewrite !orb_false_iff, bool_decide_eq_false.
  intros [[[[H1 H2] H3] H4] H5]. unfold get_label_action.
  rewrite (Qltb_ge _ _ Hp), (not_sentinel _ _ Hs), H1, H2, H4, H5.
  rewrite (bool_decide_eq_false_2 _ H3). unfold str_index. cbn.
  destruct (index 0 "_" label); cbn; eauto.
Qed.

(** X1. The decoder has three outcomes, each decided by the threshold, the
    sentinel test and the family of the label: no edit below the threshold
    or for a sentinel; otherwise an edit for a label of the five families
    and an exception for any other label. *)
Theorem decoder_outcomes (hp : Helpers) (self : Predictor) (token : string)
    (idx : Z) (p : Q) (label : string) :
  (get_label_action hp self token idx p label = Ok None
   ↔ (p < min_error_probability self)%Q
     ∨ label ∈ [UNK_LABEL hp; PAD_LABEL hp; KEEP_LABEL hp])
  ∧ ((∃ a, get_label_action hp self token idx p label = Ok (Some a))
     ↔ (min_error_probability self <= p)%Q
       ∧ (label ∉ [UNK_LABEL hp; PAD_LABEL hp; KEEP_LABEL hp])
       ∧ span_family label = true)
  ∧ ((∃ e, get_label_action hp self token idx p label = Raise e)
     ↔ (min_error_probability self <= p)%Q
       ∧ (label ∉ [UNK_LABEL hp; PAD_LABEL hp; KEEP_LABEL hp])
       ∧ span_family label = false).
Proof.
  destruct (Qlt_le_dec p (min_error_probability self)) as [Hlt|Hle].
  { assert (get_label_action hp self token idx p label = Ok None) as ->.
    { unfold get_label_action. by rewrite (Qltb_lt _ _ Hlt). }
    split; [|split]; (split; [|done || idtac]).
    - auto.
    - intros [? ?]; discriminate.
    - intros [Hle _]. by apply Qle_not_lt in Hle.
    - intros [? ?]; discriminate.
    - intros [Hle _]. by apply Qle_not_lt in Hle. }
  destruct (decide (label ∈ [UNK_LABEL hp; PAD_LABEL hp; KEEP_LABEL hp]))
    as [Hs|Hs].
  { assert (get_label_action hp self token idx p label = Ok None) as ->.
    { unfold get_label_action.
      by rewrite (Qltb_ge _ _ Hle), bool_decide_eq_true_2. }
    split; [|split]; (split; [|done || idtac]).
    - auto.
    - intros [? ?]; discriminate.
    - by intros (_ & ? & _).
    - intros [? ?]; discriminate.
    - by intros (_ & ? & _). }
  destruct (span_family label) eqn:Ef.
  - destruct (span_family_decodes hp self token idx p label Hle Hs Ef)
      as [a ->].
    split; [|split]; split.
    + discriminate.
    + intros [Hlt|?]; [by apply Qle_not_lt in Hle | done].
    + done.
    + eauto.
    + intros [? ?]; discriminate.
    + by intros (_ & _ & ?).
  - destruct (other_family_raises hp self token idx p label Hle Hs Ef)
      as [e ->].
    split; [|split]; split.
    + discriminate.
    + intros [Hlt|?]; [by apply Qle_not_lt in Hle | done].
    + intros [? ?]; discriminate.
    + by intros (_ & _ & ?).
    + done.
    + eauto.
Qed.

(** ** What the scan puts into the edit list *)

Lemma Qltb_false_ge (p m : Q) : Qltb p m = false → (m <= p)%Q.
Proof.
  unfold Qltb. intros H. apply Qle_bool_iff.
  by destruct (Qle_bool m p).
Qed.

Lemma py_getitem_ok_range {A : Type} (l : list A) (i : Z) (x : A) :
  0 ≤ i → py_getitem l i = Ok x →
  i < Z.of_nat (length l) ∧ l !! Z.to_nat i = Some x.
Proof.
  intros Hi. unfold py_getitem. cbv zeta.
  assert (Hn : (i <? 0) = false) by (apply Z.ltb_ge; lia).
  rewrite Hn, Hn. cbn.
  destruct (Z.leb_spec (Z.of_nat (length l)) i); [done|].
  destruct (l !! Z.to_nat i); [|done]. by intros [= ->].
Qed.

(** One position of the scan leaves the edit list as it is or appends one
    edit; the appended edit ends at the position, its label is not [KEEP]
    and not a sentinel, its token has no whitespace and its confidence is
    the probability of the position, which is not below the threshold. *)
Lemma scan_step_inv (hp : Helpers) (self : Predictor) (tokens : sentence)
    (r : row) (es es' : list action) (idx : Z) :
  scan_step hp self tokens r es idx = Ok es' →
  (∃ token label_id,
     token_at hp tokens idx = Ok token
     ∧ py_getitem (label_ids r) idx = Ok label_id)
  ∧ (es' = es
     ∨ ∃ a token label_id,
         es' = es ++ [a]
         ∧ edit_end a = idx
         ∧ (edit_start a = idx ∨ edit_start a = idx - 1)
         ∧ token_at hp tokens idx = Ok token
         ∧ re_search_space token = false
         ∧ py_getitem (label_ids r) idx = Ok label_id
         ∧ label_id ≠ keep_id self
         ∧ py_getitem (label_probs r) idx = Ok (edit_confidence a)
         ∧ (min_error_probability self <= edit_confidence a)%Q
         ∧ get_label_action hp self token idx (edit_confidence a)
             (id2tag self label_id) = Ok (Some a)).
Proof.
  unfold scan_step. fold (token_at hp tokens idx).
  destruct (token_at hp tokens idx) as [token|] eqn:Et; [|done]. cbn.
  destruct (py_getitem (label_ids r) idx) as [label_id|] eqn:El; [|done]. cbn.
  intros H. split; [eauto|]. revert H.
  case_bool_decide as Hk; [intros [= <-]; by left|].
  destruct (re_search_space token) eqn:Ew; [intros [= <-]; by left|].
  destruct (py_getitem (label_probs r) idx) as [p|] eqn:Ep; [|done]. cbn.
  destruct (get_label_action _ _ _ _ _ _) as [[a|]|] eqn:Ea; cbn; [| |done];
    intros [= <-]; [|by left].
  right. destruct a as [[[s e] rep] c].
  destruct (get_label_action_inv _ _ _ _ _ _ _ _ _ _ Ea)
    as [-> [(-> & -> & _)|(-> & -> & _)]];
    eexists _, token, label_id; (split; [reflexivity|]); cbn;
    (repeat split; try done; auto);
    apply Qltb_false_ge; unfold get_label_action in Ea;
    by destruct (Qltb p _).
Qed.

Lemma foldM_app {A B : Type} (body : B → A → result B) (acc : B)
    (l1 l2 : list A) :
  foldM body acc (l1 ++ l2)
  = match foldM body acc l1 with
    | Ok acc' => foldM body acc' l2
    | Raise e => Raise e
    end.
Proof.
  revert acc. induction l1 as [|x l1 IH]; intros acc; cbn; [done|].
  destruct (body acc x) as [b|]; cbn; [apply IH|done].
Qed.

(** An invariant of a loop over [range(n)] that follows the position. *)
Lemma foldM_range_invariant {B : Type} (body : B → Z → result B)
    (I : Z → B → Prop) (n : Z) (acc acc' : B) :
  I 0 acc →
  (∀ i b b', 0 ≤ i < n → I i b → body b i = Ok b' → I (i + 1) b') →
  foldM body acc (seqZ 0 n) = Ok acc' →
  I (Z.max 0 n) acc'.
Proof.
  intros H0 Hstep.
  assert (Hk : ∀ k : nat, Z.of_nat k ≤ Z.max 0 n → ∀ b,
             foldM body acc (seqZ 0 (Z.of_nat k)) = Ok b → I (Z.of_nat k) b).
  { induction k as [|k IH]; intros Hle b.
    - cbn. by intros [= <-].
    - rewrite seqZ_S, foldM_app.
      destruct (foldM body acc (seqZ 0 (Z.of_nat k))) as [b1|] eqn:E1; [|done].
      cbn. destruct (body b1 (0 + Z.of_nat k)) as [b2|] eqn:E2; [|done].
      cbn. intros [= <-]. rewrite Nat2Z.inj_succ, <- Z.add_1_r.
      rewrite Z.add_0_l in E2.
      eapply Hstep; [|apply IH; [lia|done]|done]. lia. }
  intros H. destruct (Z.le_gt_cases n 0) as [Hn|Hn].
  - rewrite seqZ_nil in H by lia. injection H as <-.
    by rewrite Z.max_l by lia.
  - rewrite Z.max_r by lia. rewrite <- (Z2Nat.id n) by lia.
    apply Hk; [lia|]. by rewrite Z2Nat.id by lia.
Qed.

Lemma get_label_action_some_not_sentinel (hp : Helpers) (self : Predictor)
    (token : string) (idx : Z) (p : Q) (label : string) (a : action) :
  get_label_action hp self token idx p label = Ok (Some a) →
  label ∉ [UNK_LABEL hp; PAD_LABEL hp; KEEP_LABEL hp].
Proof.
  unfold get_label_action. destruct (Qltb p _); [done|].
  case_bool_decide; done.
Qed.



(** X3. The edits the scan appends are in the order of their positions and
    do not overlap: of two of them the earlier one ends strictly before the
    later one ends and not after the later one starts, so no position gets
    two edits; and every edit covers one word or none. *)
Theorem scan_edits_ordered (hp : Helpers) (self : Predictor)
    (tokens : sentence) (r : row) (edits0 edits : list action) :
  scan_edits hp self tokens r edits0 = Ok edits →
  ∃ news, edits = edits0 ++ news
    ∧ (∀ a, a ∈ news →
         edit_start a = edit_end a ∨ edit_start a + 1 = edit_end a)
    ∧ (∀ (i j : nat) a b, (i < j)%nat →
         news !! i = Some a → news !! j = Some b →
         edit_end a < edit_end b ∧ edit_end a ≤ edit_start b)
    ∧ Z.of_nat (length news) ≤ Z.max 0 (truncated_seq_length r).
Proof.
  unfold scan_edits. intros H.
  apply (foldM_range_invariant _
           (λ n es, ∃ news, es = edits0 ++ news
              ∧ (∀ a, a ∈ news →
                   edit_end a < n
                   ∧ (edit_start a = edit_end a
                      ∨ edit_start a + 1 = edit_end a))
              ∧ (∀ (i j : nat) a b, (i < j)%nat →
                   news !! i = Some a → news !! j = Some b →
                   edit_end a < edit_end b ∧ edit_end a ≤ edit_start b)
              ∧ Z.of_nat (length news) ≤ n)) in H.
  - destruct H as (news & -> & Hin & Hord & Hlen).
    exists news. split; [done|]. split; [|by split].
    intros a Ha. by apply Hin.
  - exists []. split; [by rewrite app_nil_r|]. split; [|split].
    + intros a Ha. inversion Ha.
    + intros i j a b _ Hi. by rewrite lookup_nil in Hi.
    + cbn. lia.
  - intros n es es' Hn (news & -> & Hin & Hord & Hlen) Hs.
    apply scan_step_inv in Hs as [_ [->|(x & _ & _ & -> & He & Hst & _)]].
    + exists news. split; [done|]. split; [|split; [done|lia]].
      intros a Ha. apply Hin in Ha. split; [lia|tauto].
    + exists (news ++ [x]). split; [by rewrite app_assoc|].
      assert (Hx : ∀ (j : nat) b, (news ++ [x]) !! j = Some b →
                (j < length news)%nat ∧ news !! j = Some b
                ∨ j = length news ∧ b = x).
      { intros j b Hj. apply lookup_app_Some in Hj as [Hj|[Hge Hj]].
        - left. split; [by eapply lookup_lt_Some|done].
        - apply list_lookup_singleton_Some in Hj as [Hj ->]. right.
          split; [lia|done]. }
      split; [|split].
      * intros a [Ha|Ha%list_elem_of_singleton]%elem_of_app.
        -- apply Hin in Ha. split; [lia|tauto].
        -- subst a. split; [lia|]. destruct Hst as [->| ->]; [by left|right; lia].
      * intros i j a b Hij Hi Hj.
        apply Hx in Hi as [[Hil Hi]|[-> ->]];
          apply Hx in Hj as [[Hjl Hj]|[-> ->]]; try lia.
        -- exact (Hord i j a b Hij Hi Hj).
        -- apply list_elem_of_lookup_2 in Hi. apply Hin in Hi.
           destruct Hst as [Hst|Hst]; lia.
      * rewrite length_app. cbn. lia.
Qed.

Lemma scan_edits_ordered_witness :
  scan_edits gector_helpers (demo_predictor 1 1 keep_model) ["a"; "b"]
    edit_row [] = Ok [(0, 1, "c", 0.9%Q); (2, 2, "the", 0.9%Q)]
  ∧ ∃ news, [(0, 1, "c", 0.9%Q); (2, 2, "the", 0.9%Q)] = [] ++ news
    ∧ (∀ a, a ∈ news →
         edit_start a = edit_end a ∨ edit_start a + 1 = edit_end a)
    ∧ (∀ (i j : nat) a b, (i < j)%nat →
         news !! i = Some a → news !! j = Some b →
         edit_end a < edit_end b ∧ edit_end a ≤ edit_start b)
    ∧ Z.of_nat (length news) ≤ Z.max 0 (truncated_seq_length edit_row).
Proof.
  split; [vm_compute; reflexivity|].
  apply (scan_edits_ordered gector_helpers (demo_predictor 1 1 keep_model)
           ["a"; "b"] edit_row []).
  vm_compute. reflexivity.
Defined.

(** X4. The scan reads [label_ids[idx]] and, from the second position on,
    [tokens[idx - 1]] at every position of [range(truncated_seq_length)]:
    it ends without an exception only if the row has a label id for each of
    these positions and the truncated length is at most the number of words
    plus one for the start marker. *)
Theorem scan_needs_labels_and_words (hp : Helpers) (self : Predictor)
    (tokens : sentence) (r : row) (edits0 edits : list action) :
  scan_edits hp self tokens r edits0 = Ok edits →
  truncated_seq_length r ≤ Z.of_nat (length (label_ids r))
  ∧ truncated_seq_length r ≤ Z.of_nat (length tokens) + 1.
Proof.
  unfold scan_edits. intros H.
  apply (foldM_range_invariant _
           (λ n _, n ≤ Z.of_nat (length (label_ids r))
                   ∧ n ≤ Z.of_nat (length tokens) + 1)) in H; [lia|lia|].
  intros i es es' Hi _ Hs.
  apply scan_step_inv in Hs as [(token & label_id & Ht & Hl) _].
  apply py_getitem_ok_range in Hl as [Hl _]; [|lia].
  split; [lia|]. unfold token_at in Ht.
  case_bool_decide as H0; [lia|].
  apply py_getitem_ok_range in Ht as [Ht _]; lia.
Qed.

Lemma scan_needs_labels_and_words_witness :
  truncated_seq_length edit_row ≤ Z.of_nat (length (label_ids edit_row))
  ∧ truncated_seq_length edit_row ≤ Z.of_nat (length ["a"; "b"]) + 1.
Proof.
  apply (scan_needs_labels_and_words gector_helpers
           (demo_predictor 1 1 keep_model) ["a"; "b"] edit_row []
           [(0, 1, "c", 0.9%Q); (2, 2, "the", 0.9%Q)]).
  vm_compute. reflexivity.
Defined.

(** ** The debug mode *)

Lemma elem_of_py_range3 (start stop : Z) (i : Z) :
  i ∈ py_range3 start stop 3 →
  start ≤ i < stop ∧ ∃ k, 0 ≤ k ∧ i = start + 3 * k.
Proof.
  unfold py_range3. intros (k & -> & Hk)%list_elem_of_fmap.
  apply elem_of_seqZ in Hk.
  assert (3 * ((stop - start + 3 - 1) `div` 3) ≤ stop - start + 3 - 1)
    by (apply Z.mul_div_le; lia).
  split; [lia|]. exists k. lia.
Qed.

(** X5. The forced debug edits of lines 217-223. There are none unless the
    debug flag is set and the sentence has more than three words. Each of
    them replaces one word at position 2, 5 or 8 of the sentence, that word
    exists, its replacement is [FORCED_EDIT_] followed by the position and
    its confidence is 1. *)
Theorem forced_edits_in_bounds (self : Predictor) (tokens : sentence)
    (a : action) :
  a ∈ forced_edits self tokens →
  debug_force_edit self = true
  ∧ 3 < Z.of_nat (length tokens)
  ∧ (edit_start a = 2 ∨ edit_start a = 5 ∨ edit_start a = 8)
  ∧ edit_start a < Z.of_nat (length tokens)
  ∧ edit_end a = edit_start a + 1
  ∧ edit_replacement a = "FORCED_EDIT_" +:+ str_of_int (edit_start a)
  ∧ edit_confidence a = 1%Q.
Proof.
  unfold forced_edits.
  destruct (debug_force_edit self); [|intros H; inversion H].
  destruct (Z.ltb_spec 3 (Z.of_nat (length tokens))) as [Hlen|Hlen];
    cbn [andb]; [|intros H; inversion H].
  intros (i & -> & Hi)%list_elem_of_fmap.
  apply elem_of_py_range3 in Hi as [[Hlo Hhi] (k & Hk & ->)].
  cbn. repeat split; try done; lia.
Qed.

Lemma forced_edits_in_bounds_witness :
  (2, 3, "FORCED_EDIT_2", 1%Q) ∈ forced_edits debug_predictor
                                    ["a"; "b"; "c"; "d"]
  ∧ debug_force_edit debug_predictor = true
  ∧ 3 < Z.of_nat (length ["a"; "b"; "c"; "d"])
  ∧ (edit_start (2, 3, "FORCED_EDIT_2", 1%Q) = 2
     ∨ edit_start (2, 3, "FORCED_EDIT_2", 1%Q) = 5
     ∨ edit_start (2, 3, "FORCED_EDIT_2", 1%Q) = 8)
  ∧ edit_start (2, 3, "FORCED_EDIT_2", 1%Q)
    < Z.of_nat (length ["a"; "b"; "c"; "d"])
  ∧ edit_end (2, 3, "FORCED_EDIT_2", 1%Q)
    = edit_start (2, 3, "FORCED_EDIT_2", 1%Q) + 1
  ∧ edit_replacement (2, 3, "FORCED_EDIT_2", 1%Q)
    = "FORCED_EDIT_" +:+ str_of_int (edit_start (2, 3, "FORCED_EDIT_2", 1%Q))
  ∧ edit_confidence (2, 3, "FORCED_EDIT_2", 1%Q) = 1%Q.
Proof.
  assert (H : (2, 3, "FORCED_EDIT_2", 1%Q)
              ∈ forced_edits debug_predictor ["a"; "b"; "c"; "d"])
    by (vm_compute; apply list_elem_of_here).
  split; [exact H|].
  exact (forced_edits_in_bounds debug_predictor ["a"; "b"; "c"; "d"] _ H).
Defined.

Lemma forced_edits_nonempty (self : Predictor) (tokens : sentence) :
  debug_force_edit self = true → 3 < Z.of_nat (length tokens) →
  ∃ l, forced_edits self tokens = (2, 3, "FORCED_EDIT_2", 1%Q) :: l.
Proof.
  intros Hd Hlen. unfold forced_edits, py_range3. rewrite Hd.
  destruct (Z.ltb_spec 3 (Z.of_nat (length tokens))); [|lia]. cbn [andb].
  assert (Hq : 1 ≤ (Z.min (Z.of_nat (length tokens)) 10 - 2 + 3 - 1) `div` 3)
    by (apply Z.div_le_lower_bound; lia).
  rewrite (seqZ_cons 0) by lia. rewrite fmap_cons. eauto.
Qed.

Lemma sentence_edits_guard_low (hp : Helpers) (self : Predictor)
    (tokens : sentence) (r : row) :
  label_ids r ≠ [] →
  (incor_prob r < min_error_probability self)%Q →
  sentence_edits hp self tokens r = Ok None.
Proof.
  intros Hne Hlow. unfold sentence_edits.
  destruct (py_max_nonempty _ Hne) as [m ->]. cbn.
  rewrite (Qltb_lt _ _ Hlow). by destruct (_ && _).
Qed.

(** X6. With the debug flag set, the all-[KEEP] test of line 226 no longer
    skips a sentence: a sentence of more than three words whose error
    probability reaches the threshold is always handed to the edit applier,
    with the forced edits first and the edits of the scan after them, also
    when every label is [KEEP]. The probability test of line 232 still
    skips a sentence and drops its forced edits. *)
Theorem debug_mode_forces_edits (hp : Helpers) (self : Predictor)
    (tokens : sentence) (r : row) :
  debug_force_edit self = true →
  label_ids r ≠ [] →
  ((incor_prob r < min_error_probability self)%Q →
     postprocess_one hp self tokens r = Ok tokens)
  ∧ (¬ (incor_prob r < min_error_probability self)%Q →
     3 < Z.of_nat (length tokens) →
     (∀ edits,
        scan_edits hp self tokens r (forced_edits self tokens) = Ok edits →
        (∃ l, edits = (2, 3, "FORCED_EDIT_2", 1%Q) :: l)
        ∧ postprocess_one hp self tokens r
          = Ok (get_target_sent_by_edits hp tokens edits))
     ∧ (truncated_seq_length r ≤ Z.of_nat (length tokens) + 1 →
        (∀ idx, 0 ≤ idx < truncated_seq_length r →
           py_getitem (label_ids r) idx = Ok (keep_id self)) →
        postprocess_one hp self tokens r
        = Ok (get_target_sent_by_edits hp tokens (forced_edits self tokens)))).
Proof.
  intros Hd Hne. split.
  - intros Hlow. unfold postprocess_one.
    by rewrite (sentence_edits_guard_low _ _ _ _ Hne Hlow).
  - intros Hhigh Hlen.
    destruct (py_max_nonempty _ Hne) as [m Hm].
    assert (Hse : sentence_edits hp self tokens r
                  = (edits ← scan_edits hp self tokens r
                               (forced_edits self tokens);
                     Ok (Some edits))).
    { apply (sentence_edits_scan _ _ _ _ m Hm).
      - rewrite Hd. apply andb_false_r.
      - apply Qltb_ge. by apply Qnot_lt_le. }
    destruct (forced_edits_nonempty self tokens Hd Hlen) as [l0 Hf].
    assert (Hscan : ∀ edits,
              scan_edits hp self tokens r (forced_edits self tokens) = Ok edits →
              (∃ l, edits = (2, 3, "FORCED_EDIT_2", 1%Q) :: l)
              ∧ postprocess_one hp self tokens r
                = Ok (get_target_sent_by_edits hp tokens edits)).
    { intros edits Hs. unfold postprocess_one. rewrite Hse, Hs. cbn.
      unfold scan_edits in Hs.
      apply (foldM_invariant _
               (λ es, ∃ l, es = (2, 3, "FORCED_EDIT_2", 1%Q) :: l)) in Hs.
      - destruct Hs as [l ->]. eauto.
      - intros es idx es' _ [l ->] Hstep.
        apply scan_step_inv in Hstep as [_ [->|(a & _ & _ & -> & _)]]; eauto.
      - eauto. }
    split; [exact Hscan|].
    intros Htr Hkeep. apply Hscan. by apply scan_all_keep.
Qed.

Lemma debug_mode_forces_edits_witness :
  postprocess_one gector_helpers debug_predictor ["a"; "b"; "c"; "d"] keep_row5
  = Ok ["a"; "b"; "FORCED_EDIT_2"; "d"].
Proof.
  assert (Hd : debug_force_edit debug_predictor = true) by reflexivity.
  assert (Hne : label_ids keep_row5 ≠ []) by discriminate.
  destruct (debug_mode_forces_edits gector_helpers debug_predictor
              ["a"; "b"; "c"; "d"] keep_row5 Hd Hne) as [_ H].
  assert (Hhigh : ¬ (incor_prob keep_row5
                     < min_error_probability debug_predictor)%Q)
    by (vm_compute; discriminate).
  assert (Hlen : 3 < Z.of_nat (length ["a"; "b"; "c"; "d"])) by (cbn; lia).
  destruct (H Hhigh Hlen) as [_ Hk].
  rewrite Hk; [vm_compute; reflexivity|cbn; lia|].
  intros idx Hidx. cbn in Hidx.
  assert (idx = 0 ∨ idx = 1 ∨ idx = 2 ∨ idx = 3 ∨ idx = 4) as
    [->|[->|[->|[->| ->]]]] by lia; reflexivity.
Defined.

(** ** The shape of the proposals *)

Lemma zip_rows_length (lens : list Z) (probs : list (list Q))
    (ids : list (list Z)) (incor : list Q) :
  length (zip_rows lens probs ids incor)
  = (length lens `min` (length probs `min` (length ids `min` length incor)))%nat.
Proof.
  revert probs ids incor.
  induction lens as [|n lens IH]; intros [|p probs] [|i ids] [|c incor];
    cbn; try done.
  by rewrite IH.
Qed.

Lemma zip_rows_lookup (lens : list Z) (probs : list (list Q))
    (ids : list (list Z)) (incor : list Q) (k : nat) (r : row) :
  zip_rows lens probs ids incor !! k = Some r →
  lens !! k = Some (truncated_seq_length r)
  ∧ probs !! k = Some (label_probs r)
  ∧ ids !! k = Some (label_ids r)
  ∧ incor !! k = Some (incor_prob r).
Proof.
  revert probs ids incor k.
  induction lens as [|n lens IH]; intros [|p probs] [|i ids] [|c incor] k;
    cbn; try done.
  destruct k as [|k]; cbn; [by intros [= <-]|apply IH].
Qed.

(** X7. [postprocess] walks the [zip] of its five lists: it returns as
    many proposals as the shortest of them has entries, sentences beyond
    that are dropped without an exception, and the proposal at a position
    is what the body of the loop makes of the sentence and the four row
    entries at that position. *)
Theorem postprocess_zip (hp : Helpers) (self : Predictor)
    (batch : list sentence) (lens : list Z) (probs : list (list Q))
    (ids : list (list Z)) (incor : list Q) (out : list sentence) :
  postprocess hp self batch lens probs ids incor = Ok out →
  length out
  = (length batch `min` (length lens `min` (length probs
       `min` (length ids `min` length incor))))%nat
  ∧ ∀ k s, out !! k = Some s →
      ∃ tokens r,
        batch !! k = Some tokens
        ∧ lens !! k = Some (truncated_seq_length r)
        ∧ probs !! k = Some (label_probs r)
        ∧ ids !! k = Some (label_ids r)
        ∧ incor !! k = Some (incor_prob r)
        ∧ postprocess_one hp self tokens r = Ok s.
Proof.
  unfold postprocess, postprocess_rows. intros H.
  apply forM_inv in H as [Hlen Hk]. split.
  - by rewrite Hlen, length_zip, zip_rows_length.
  - intros k s Hs.
    destruct (lookup_lt_is_Some_2 (zip batch (zip_rows lens probs ids incor)) k)
      as [[tokens r] Htr]; [rewrite <- Hlen; by eapply lookup_lt_Some|].
    destruct (Hk _ _ Htr) as (s' & Hs' & Hp). cbn in Hp.
    assert (s' = s) as -> by congruence.
    apply lookup_zip_with_Some in Htr as (t' & r' & [= <- <-] & Ht & Hr).
    apply zip_rows_lookup in Hr as (? & ? & ? & ?).
    by exists tokens, r.
Qed.

Lemma postprocess_zip_witness :
  length [["a"]]
  = (length [["a"]; ["b"]] `min` (length [2] `min` (length [[1%Q; 1%Q]]
       `min` (length [[0; 0]] `min` length [0.9%Q]))))%nat
  ∧ ∀ k s, [["a"]] !! k = Some s →
      ∃ tokens r,
        [["a"]; ["b"]] !! k = Some tokens
        ∧ [2] !! k = Some (truncated_seq_length r)
        ∧ [[1%Q; 1%Q]] !! k = Some (label_probs r)
        ∧ [[0; 0]] !! k = Some (label_ids r)
        ∧ [0.9%Q] !! k = Some (incor_prob r)
        ∧ postprocess_one gector_helpers (demo_predictor 1 1 keep_model)
            tokens r = Ok s.
Proof.
  apply (postprocess_zip gector_helpers (demo_predictor 1 1 keep_model)
           [["a"]; ["b"]] [2] [[1%Q; 1%Q]] [[0; 0]] [0.9%Q] [["a"]]).
  vm_compute. reflexivity.
Defined.

(** ** When the merge returns *)

Section MergeReturns.

Variable pred_batch : list sentence.

Lemma merged_dom ori_id cur pred h st (id : nat) :
  m_prev_preds_dict st !! ori_id = Some h →
  is_Some (m_prev_preds_dict (merged ori_id cur pred h st) !! id)
  ↔ is_Some (m_prev_preds_dict st !! id).
Proof.
  intros Hh. unfold merged. repeat case_bool_decide; cbn; try done.
  destruct (decide (id = ori_id)) as [->|Hne].
  - rewrite lookup_insert_eq, Hh. split; eauto.
  - by rewrite lookup_insert_ne.
Qed.

(** A loop that returns found, for every id, an entry of the batch, a
    history and a proposal. *)
Lemma update_loop_ok_inv (ids : list nat) (i : nat) (st st' : merge_state) :
  update_loop pred_batch i ids st = Ok st' →
  (∀ id, id ∈ ids →
     (id < length (m_final_batch st))%nat
     ∧ is_Some (m_prev_preds_dict st !! id))
  ∧ (ids = [] ∨ (i + length ids ≤ length pred_batch)%nat).
Proof.
  revert i st. induction ids as [|id0 ids IH]; intros i st; cbn.
  - intros _. split; [|by left]. intros id Hid. inversion Hid.
  - destruct (update_one pred_batch i id0 st) as [st1|] eqn:E1; [|done]. cbn.
    intros H. apply IH in H as [Hin Hlen].
    apply update_one_inv in E1 as (cur & pred & h & Hcur & Hpred & Hh & ->).
    split.
    + intros id [->|Hid]%elem_of_cons.
      * split; [by eapply lookup_lt_Some|eauto].
      * destruct (Hin id Hid) as [Hl Hs].
        rewrite merged_length in Hl. split; [done|].
        by apply (merged_dom id0 cur pred h st id Hh).
    + right. apply lookup_lt_Some in Hpred.
      destruct Hlen as [->|Hlen]; cbn; lia.
Qed.

(** What the loop raises. *)
Lemma update_loop_raises (ids : list nat) (i : nat) (st : merge_state)
    (e : exn) :
  update_loop pred_batch i ids st = Raise e → e = IndexError ∨ e = KeyError.
Proof.
  revert i st. induction ids as [|id0 ids IH]; intros i st; cbn; [done|].
  destruct (update_one pred_batch i id0 st) as [st1|e1] eqn:E1; cbn.
  - apply IH.
  - intros [= <-]. unfold update_one, list_item, dict_item in E1.
    destruct (m_final_batch st !! id0); cbn in E1; [|injection E1; auto].
    destruct (pred_batch !! i); cbn in E1; [|injection E1; auto].
    destruct (m_prev_preds_dict st !! id0); cbn in E1; [|injection E1; auto].
    repeat case_bool_decide; done.
Qed.

End MergeReturns.

(** X8. [update_final_batch] returns exactly when every active id is a
    position of the batch with a history and there is a proposal for each
    active id; in every other case it raises [IndexError] or [KeyError]. A
    list of proposals that is too long is accepted. *)
Theorem update_final_batch_returns_iff (final_batch : list sentence)
    (pred_ids : list nat) (pred_batch : list sentence)
    (prev : gmap nat (list sentence)) :
  ((∃ m, update_final_batch final_batch pred_ids pred_batch prev = Ok m)
   ↔ (∀ id, id ∈ pred_ids →
        (id < length final_batch)%nat ∧ is_Some (prev !! id))
     ∧ (length pred_ids ≤ length pred_batch)%nat)
  ∧ ∀ e, update_final_batch final_batch pred_ids pred_batch prev = Raise e →
      e = IndexError ∨ e = KeyError.
Proof.
  unfold update_final_batch. split; [split|].
  - intros [m Hm]. apply update_loop_ok_inv in Hm as [Hin Hlen].
    split; [exact Hin|]. destruct Hlen as [->|Hlen]; cbn in *; lia.
  - intros [Hin Hlen]. apply update_loop_ok; [exact Hin|cbn; lia].
  - intros e. apply update_loop_raises.
Qed.

(** ** The counter of a run *)

(** The merge loop counts the entries it replaces: the counter grows by at
    most one per id and by at least one per id it keeps active, and a
    counter that did not move means that nothing was written. *)
Lemma update_loop_count (pred_batch : list sentence) (ids : list nat)
    (i : nat) (st st' : merge_state) :
  update_loop pred_batch i ids st = Ok st' →
  total_updated st ≤ total_updated st'
  ∧ total_updated st' ≤ total_updated st + Z.of_nat (length ids)
  ∧ (length (new_pred_ids st') ≤ length (new_pred_ids st) + length ids)%nat
  ∧ Z.of_nat (length (new_pred_ids st')) - Z.of_nat (length (new_pred_ids st))
    ≤ total_updated st' - total_updated st
  ∧ (total_updated st' = total_updated st → st' = st).
Proof.
  revert i st. induction ids as [|id0 ids IH]; intros i st; cbn.
  - intros [= <-]. repeat split; lia.
  - destruct (update_one pred_batch i id0 st) as [st1|] eqn:E1; [|done]. cbn.
    intros H. apply IH in H as (Hlo & Hhi & Hnew & Hact & Heq).
    apply update_one_inv in E1 as (cur & pred & h & _ & _ & _ & ->).
    unfold merged in *.
    repeat case_bool_decide; cbn in *; rewrite ?length_app in *; cbn in *;
      (repeat split; [lia..|]); intros Ht; try lia.
    by apply Heq.
Qed.

Section CounterFacts.

Variable hp : Helpers.
Variable self : Predictor.

Lemma iteration_count_bounds (n : nat) (st st' : loop_state) (stop : bool) :
  iteration hp self n st = Ok (st', stop) →
  length (final_batch st') = length (final_batch st)
  ∧ (length (pred_ids st') ≤ length (pred_ids st))%nat
  ∧ total_updates st + Z.of_nat (length (pred_ids st')) ≤ total_updates st'
  ∧ total_updates st' ≤ total_updates st + Z.of_nat (length (pred_ids st))
  ∧ (total_updates st' = total_updates st → final_batch st' = final_batch st).
Proof.
  intros (pb & m & _ & Hm & -> & _)%iteration_inv. cbn.
  unfold update_final_batch in Hm.
  pose proof (update_loop_length _ _ _ _ _ Hm) as Hlen.
  apply update_loop_count in Hm as (Hlo & Hhi & Hnew & Hact & Heq).
  cbn in *. repeat split; try lia; try done.
  intros Ht. rewrite Heq; [done|lia].
Qed.

Lemma loop_count_bounds (fuel n : nat) (st st' : loop_state) :
  loop hp self fuel n st = Ok st' →
  length (final_batch st') = length (final_batch st)
  ∧ total_updates st ≤ total_updates st'
  ∧ total_updates st'
    ≤ total_updates st + Z.of_nat fuel * Z.of_nat (length (pred_ids st))
  ∧ (total_updates st' = total_updates st → final_batch st' = final_batch st).
Proof.
  revert n st. induction fuel as [|fuel IH]; intros n st; cbn [loop].
  - intros [= <-]. repeat split; lia.
  - destruct (iteration hp self n st) as [[st1 stop]|] eqn:E; [|done].
    apply iteration_count_bounds in E as (Hlen & Hids & Hlo & Hhi & Heq).
    destruct stop.
    + intros [= <-]. repeat split; try done; nia.
    + intros H. apply IH in H as (Hlen' & Hlo' & Hhi' & Heq').
      repeat split; try congruence; try nia.
      intros Ht. rewrite Heq', Heq; [done|lia..].
Qed.

End CounterFacts.

(** The sentences that are active before the first pass are those that
    are not shorter than [min_seq_len]. *)
Lemma filter_indexed_length {A : Type} (P : A → Prop) `{!∀ x, Decision (P x)}
    (g : nat → A → nat * A) (l : list A) :
  (∀ i x, (g i x).2 = x) →
  length (filter (λ p : nat * A, P p.2) (imap g l)) = length (filter P l).
Proof.
  revert g. induction l as [|x l IH]; intros g Hg; [done|].
  rewrite imap_cons, !filter_cons, Hg.
  specialize (IH (g ∘ S) (λ i y, Hg (S i) y)).
  destruct (decide (P x)); cbn; by rewrite IH.
Qed.

Lemma init_pred_ids_length (self : Predictor) (fb : list sentence) :
  (length (pred_ids (init_state self fb))
   ≤ length (filter (λ s : sentence,
                       ¬ (Z.of_nat (length s) < min_seq_len self)%Z) fb))%nat.
Proof.
  rewrite <- (filter_indexed_length
                (λ s : sentence, ¬ (Z.of_nat (length s) < min_seq_len self))
                pair fb) by done.
  rewrite <- (length_fmap fst).
  apply submseteq_length, NoDup_submseteq; [apply NoDup_init_pred_ids|].
  intros id (s & Hs & Hlong)%elem_of_init_pred_ids.
  apply list_elem_of_fmap. exists (id, s). split; [done|].
  apply list_elem_of_filter. split; [done|].
  apply elem_of_lookup_imap. eauto.
Qed.

(** X9. What [handle_batch] returns: a batch with as many sentences as
    the input, and a counter that is not negative and at most the number
    of passes times the number of sentences that were long enough to be
    tagged. A counter of 0 means that the batch returned is the input. *)
Theorem handle_batch_count (hp : Helpers) (self : Predictor)
    (full_batch out : list sentence) (total : Z) :
  handle_batch hp self full_batch = Ok (out, total) →
  length out = length full_batch
  ∧ 0 ≤ total
  ∧ total ≤ Z.max 0 (iteration_count self)
            * Z.of_nat (length (filter
                 (λ s : sentence,
                    ¬ (Z.of_nat (length s) < min_seq_len self)) full_batch))
  ∧ (total = 0 → out = full_batch).
Proof.
  unfold handle_batch.
  destruct (loop hp self _ 0 (init_state self full_batch)) as [st|] eqn:E;
    [|done].
  cbn. intros [= <- <-].
  apply loop_count_bounds in E as (Hlen & Hlo & Hhi & Heq).
  change (total_updates (init_state self full_batch)) with 0 in *.
  change (final_batch (init_state self full_batch)) with full_batch in *.
  pose proof (init_pred_ids_length self full_batch) as Hact.
  split; [done|]. split; [done|]. split; [|exact Heq].
  rewrite ZifyInst.of_nat_to_nat_eq in Hhi. nia.
Qed.

Lemma handle_batch_count_witness :
  length [["a"]] = length [["a"; "b"]]
  ∧ 0 ≤ 1
  ∧ 1 ≤ Z.max 0 (iteration_count
                   (demo_predictor 5 2 (const_model [0; 0; 1])))
        * Z.of_nat (length (filter
             (λ s : sentence,
                ¬ (Z.of_nat (length s)
                   < min_seq_len (demo_predictor 5 2 (const_model [0; 0; 1]))))
             [["a"; "b"]]))
  ∧ (1 = 0 → [["a"]] = [["a"; "b"]]).
Proof.
  apply (handle_batch_count gector_helpers
           (demo_predictor 5 2 (const_model [0; 0; 1]))
           [["a"; "b"]] [["a"]] 1).
  vm_compute. reflexivity.
Defined.

(** ** The histories and the active ids of a run *)

Section RunFacts.

Variable hp : Helpers.
Variable self : Predictor.
Variable fb : list sentence.

(** What one pass does to the sentences, seen from the state before it. *)
Lemma iteration_outcome (n : nat) (st st' : loop_state) (stop : bool) :
  NoDup (pred_ids st) →
  iteration hp self n st = Ok (st', stop) →
  pred_ids st' `sublist_of` pred_ids st
  ∧ (∀ id, id ∉ pred_ids st →
       final_batch st' !! id = final_batch st !! id
       ∧ prev_preds_dict st' !! id = prev_preds_dict st !! id)
  ∧ (∀ id, id ∈ pred_ids st →
       ∃ cur pred h,
         final_batch st !! id = Some cur
         ∧ prev_preds_dict st !! id = Some h
         ∧ final_batch st' !! id = Some pred
         ∧ ((pred = cur ∧ prev_preds_dict st' !! id = Some h
             ∧ id ∉ pred_ids st')
            ∨ (pred ≠ cur ∧ pred ∈ h ∧ prev_preds_dict st' !! id = Some h
               ∧ id ∉ pred_ids st')
            ∨ (pred ≠ cur ∧ (pred ∉ h)
               ∧ prev_preds_dict st' !! id = Some (h ++ [pred])
               ∧ id ∈ pred_ids st'))).
Proof.
  intros Hnd (pb & m & _ & Hm & -> & _)%iteration_inv. cbn.
  unfold update_final_batch in Hm.
  destruct (update_loop_outcome _ _ _ _ _ Hnd Hm)
    as (added & cut & Hnew & Hadd & _ & _ & Hper).
  cbn in Hnew. rewrite Hnew. split; [done|]. split.
  - intros id Hid. exact (update_loop_frame _ _ _ _ _ id Hm Hid).
  - intros id (k & Hk)%list_elem_of_lookup_1.
    destruct (Hper k id Hk) as (cur & pred & h & Hc & _ & Hh & Hcases).
    cbn in Hc, Hh.
    destruct Hcases as [(-> & Hf & Hd & Ha & _)|[(Hne & Hin & Hf & Hd & Ha & _)
      |(Hne & Hin & Hf & Hd & Ha & _)]].
    + exists cur, cur, h. repeat split; try done. left. by repeat split.
    + exists cur, pred, h. repeat split; try done. right. left.
      by repeat split.
    + exists cur, pred, h. repeat split; try done. right. right.
      by repeat split.
Qed.

Lemma reachable_NoDup (n : nat) (st : loop_state) :
  reachable hp self fb n st → NoDup (pred_ids st).
Proof.
  induction 1 as [|n st st' stop _ IH Hit]; [apply NoDup_init_pred_ids|].
  destruct (iteration_outcome _ _ _ _ IH Hit) as [Hsub _].
  by eapply sublist_NoDup.
Qed.

Lemma reachable_fun (n : nat) (st st' : loop_state) :
  reachable hp self fb n st → reachable hp self fb n st' → st = st'.
Proof.
  intros H. revert st'.
  induction H as [|n st st1 stop _ IH Hit]; intros st' H'.
  - by inversion H'.
  - inversion H' as [|n' st0 st1' stop' Hr Hit' Hn]; subst.
    rewrite <- (IH _ Hr) in Hit'. congruence.
Qed.

End RunFacts.

(** X10. The histories of a run. In the state after [n] passes the
    active ids are distinct, and every sentence of the batch has a history
    in [prev_preds_dict] that has no sequence twice, starts with the
    sentence of the input, contains the current sequence and has at most
    [n + 1] entries. The history of an active sentence ends with its
    current sequence and has exactly [n + 1] entries: such a sentence got
    a new sequence in every pass. *)
Theorem history_invariant (hp : Helpers) (self : Predictor)
    (fb : list sentence) (n : nat) (st : loop_state) :
  reachable hp self fb n st →
  NoDup (pred_ids st)
  ∧ ∀ id s, final_batch st !! id = Some s →
      ∃ h, prev_preds_dict st !! id = Some h
        ∧ NoDup h
        ∧ head h = fb !! id
        ∧ s ∈ h
        ∧ (length h ≤ S n)%nat
        ∧ (id ∈ pred_ids st → last h = Some s ∧ length h = S n).
Proof.
  induction 1 as [|n st st' stop Hr [Hnd IH] Hit].
  - split; [apply NoDup_init_pred_ids|]. intros id s Hs.
    change (final_batch (init_state self fb)) with fb in Hs.
    exists [s]. rewrite history_lookup, Hs. cbn.
    repeat split; try done; [apply NoDup_singleton|apply list_elem_of_here].
  - destruct (iteration_outcome _ _ _ _ _ _ Hnd Hit) as (Hsub & Hout & Hin).
    split; [by eapply sublist_NoDup|]. intros id s Hs.
    destruct (decide (id ∈ pred_ids st)) as [Hact|Hact].
    + destruct (Hin id Hact) as (cur & pred & h & Hc & Hh & Hf & Hcases).
      assert (pred = s) as -> by congruence.
      destruct (IH id cur Hc) as (h' & Hh' & Hndh & Hhd & Hcur & Hlen & Hl).
      assert (h' = h) as -> by congruence.
      destruct (Hl Hact) as [Hlast Hlen'].
      destruct Hcases as [(-> & Hd & Hna)|[(Hne & Hmem & Hd & Hna)
        |(Hne & Hmem & Hd & Ha)]].
      * exists h. repeat split; try done; lia.
      * exists h. repeat split; try done; lia.
      * exists (h ++ [s]). split; [done|]. split; [|split; [|split; [|split]]].
        -- apply NoDup_app. split; [done|]. split; [|apply NoDup_singleton].
           intros x Hx ->%list_elem_of_singleton. done.
        -- destruct h; [by apply elem_of_nil in Hcur|done].
        -- apply elem_of_app. right. apply list_elem_of_here.
        -- rewrite length_app. cbn. lia.
        -- intros _. rewrite last_snoc, length_app. cbn. split; [done|lia].
    + destruct (Hout id Hact) as [Hf Hd]. rewrite Hf in Hs.
      destruct (IH id s Hs) as (h & Hh & Hndh & Hhd & Hcur & Hlen & _).
      exists h. rewrite Hd. repeat split; try done; try lia;
        exfalso; apply Hact; by eapply elem_of_sublist.
Qed.

Lemma history_invariant_witness :
  NoDup (pred_ids (first_pass gector_helpers
                     (demo_predictor 5 2 (const_model [0; 0; 1]))
                     [["a"; "b"]]))
  ∧ ∀ id s,
      final_batch (first_pass gector_helpers
                     (demo_predictor 5 2 (const_model [0; 0; 1]))
                     [["a"; "b"]]) !! id = Some s →
      ∃ h, prev_preds_dict
             (first_pass gector_helpers
                (demo_predictor 5 2 (const_model [0; 0; 1]))
                [["a"; "b"]]) !! id = Some h
        ∧ NoDup h
        ∧ head h = [["a"; "b"]] !! id
        ∧ s ∈ h
        ∧ (length h ≤ 2)%nat
        ∧ (id ∈ pred_ids
                  (first_pass gector_helpers
                     (demo_predictor 5 2 (const_model [0; 0; 1]))
                     [["a"; "b"]]) →
           last h = Some s ∧ length h = 2%nat).
Proof.
  apply (history_invariant gector_helpers
           (demo_predictor 5 2 (const_model [0; 0; 1])) [["a"; "b"]] 1).
  eapply (reach_pass _ _ _ 0 _ _ false); [apply reach_init|].
  vm_compute. reflexivity.
Defined.

(** X11. Leaving the active list is final. Between the state after [n]
    passes and the state after [m ≥ n] passes the active ids only get
    fewer, and a sentence that is not active after [n] passes is not
    active later and keeps its sequence and its history. *)
Theorem deactivation_is_final (hp : Helpers) (self : Predictor)
    (fb : list sentence) (n m : nat) (st st' : loop_state) :
  reachable hp self fb n st →
  reachable hp self fb m st' →
  (n ≤ m)%nat →
  pred_ids st' `sublist_of` pred_ids st
  ∧ ∀ id, id ∉ pred_ids st →
      (id ∉ pred_ids st')
      ∧ final_batch st' !! id = final_batch st !! id
      ∧ prev_preds_dict st' !! id = prev_preds_dict st !! id.
Proof.
  intros Hn Hm. revert n st Hn.
  induction Hm as [|m st1 st' stop Hr IH Hit]; intros n st Hn Hle.
  - assert (n = 0)%nat as -> by lia.
    rewrite (reachable_fun _ _ _ _ _ _ Hn (reach_init _ _ _)). split; [done|].
    by intros id Hid.
  - destruct (decide (n = S m)) as [->|Hne].
    + rewrite (reachable_fun _ _ _ _ _ _ Hn (reach_pass _ _ _ _ _ _ _ Hr Hit)).
      split; [done|]. by intros id Hid.
    + destruct (IH n st Hn) as [Hsub Hfr]; [lia|].
      pose proof (reachable_NoDup _ _ _ _ _ Hr) as Hnd.
      destruct (iteration_outcome _ _ _ _ _ _ Hnd Hit) as (Hsub' & Hout & _).
      split; [by etrans|]. intros id Hid.
      destruct (Hfr id Hid) as (Hna & Hf & Hd).
      destruct (Hout id Hna) as [Hf' Hd'].
      split; [|split; congruence].
      intros Hin. apply Hna. by eapply elem_of_sublist.
Qed.

Lemma deactivation_is_final_witness :
  pred_ids (first_pass gector_helpers
              (demo_predictor 5 2 (const_model [0; 0; 1])) [["a"; "b"]; ["c"]])
    `sublist_of`
    pred_ids (init_state (demo_predictor 5 2 (const_model [0; 0; 1]))
                [["a"; "b"]; ["c"]])
  ∧ ∀ id,
      id ∉ pred_ids (init_state (demo_predictor 5 2 (const_model [0; 0; 1]))
                       [["a"; "b"]; ["c"]]) →
      (id ∉ pred_ids (first_pass gector_helpers
                        (demo_predictor 5 2 (const_model [0; 0; 1]))
                        [["a"; "b"]; ["c"]]))
      ∧ final_batch (first_pass gector_helpers
                       (demo_predictor 5 2 (const_model [0; 0; 1]))
                       [["a"; "b"]; ["c"]]) !! id
        = final_batch (init_state (demo_predictor 5 2 (const_model [0; 0; 1]))
                         [["a"; "b"]; ["c"]]) !! id
      ∧ prev_preds_dict (first_pass gector_helpers
                           (demo_predictor 5 2 (const_model [0; 0; 1]))
                           [["a"; "b"]; ["c"]]) !! id
        = prev_preds_dict
            (init_state (demo_predictor 5 2 (const_model [0; 0; 1]))
               [["a"; "b"]; ["c"]]) !! id.
Proof.
  apply (deactivation_is_final gector_helpers
           (demo_predictor 5 2 (const_model [0; 0; 1]))
           [["a"; "b"]; ["c"]] 0 1).
  - apply reach_init.
  - eapply (reach_pass _ _ _ 0 _ _ false); [apply reach_init|].
    vm_compute. reflexivity.
  - lia.
Defined.

(** ** Passes that cannot be tagged *)

Lemma forM_const_ok {A B : Type} (f : A → result B) (y : B) (l : list A) :
  (∀ x, x ∈ l → f x = Ok y) → forM f l = Ok ((λ _, y) <$> l).
Proof. apply (forM_ok f (λ _, y)). Qed.

Lemma preprocess_all_empty (hp : Helpers) (self : Predictor) {A : Type}
    (l : list A) :
  preprocess hp self ((λ _, []) <$> l) = None.
Proof.
  unfold preprocess.
  assert (H : filter (λ seq : sentence, seq ≠ []) ((λ _ : A, []) <$> l) = []).
  { induction l as [|x l IH]; [done|]. rewrite fmap_cons, filter_cons.
    by destruct (decide _). }
  by rewrite H.
Qed.

(** X12. A pass that starts with no active sentence, or with active
    sentences that are all empty, raises [ValueError]: [preprocess] returns
    the bare [[]] and line 145 unpacks it into two names. So [handle_batch]
    raises [ValueError] on every batch whose sentences are all empty or
    shorter than [min_seq_len], also for a [min_seq_len] of 0. *)
Theorem empty_active_raises (hp : Helpers) (self : Predictor) :
  (∀ fuel n st,
     (∀ id, id ∈ pred_ids st → final_batch st !! id = Some []) →
     loop hp self (S fuel) n st = Raise ValueError)
  ∧ (∀ full_batch,
       1 ≤ iteration_count self →
       Forall (λ s, Z.of_nat (length s) < min_seq_len self ∨ s = [])
         full_batch →
       handle_batch hp self full_batch = Raise ValueError).
Proof.
  assert (Hloop : ∀ fuel n st,
            (∀ id, id ∈ pred_ids st → final_batch st !! id = Some []) →
            loop hp self (S fuel) n st = Raise ValueError).
  { intros fuel n st Hempty. cbn [loop]. unfold iteration, tagging.
    rewrite (forM_const_ok _ [] (pred_ids st)).
    - cbn. by rewrite preprocess_all_empty.
    - intros id Hid. unfold list_item. by rewrite (Hempty id Hid). }
  split; [exact Hloop|].
  intros fb Hn Hall. unfold handle_batch.
  destruct (Z.to_nat (iteration_count self)) as [|fuel] eqn:E; [lia|].
  rewrite Hloop; [done|].
  intros id (s & Hs & Hlong)%elem_of_init_pred_ids.
  change (final_batch (init_state self fb)) with fb. rewrite Hs.
  rewrite Forall_lookup in Hall. destruct (Hall id s Hs) as [?| ->]; done.
Qed.

Lemma empty_active_raises_witness :
  handle_batch gector_helpers (demo_predictor 1 0 keep_model) [[]; []]
  = Raise ValueError.
Proof.
  apply (proj2 (empty_active_raises gector_helpers
                  (demo_predictor 1 0 keep_model))).
  - cbn. lia.
  - constructor; [by right|]. constructor; [by right|]. constructor.
Defined.

(** ** Runs that end where they started *)

Lemma postprocess_rows_identity (hp : Helpers) (self : Predictor)
    (batch : list sentence) (rows : list row) :
  length rows = length batch →
  (∀ k tokens r, batch !! k = Some tokens → rows !! k = Some r →
     postprocess_one hp self tokens r = Ok tokens) →
  postprocess_rows hp self batch rows = Ok batch.
Proof.
  unfold postprocess_rows. revert rows.
  induction batch as [|tokens batch IH]; intros [|r rows] Hlen Hrow;
    try done.
  cbn. rewrite (Hrow 0%nat tokens r) by done. cbn.
  rewrite IH; [done|by injection Hlen|].
  intros k t' r' Hk Hr. by apply (Hrow (S k)).
Qed.

Lemma postprocess_one_skipped (hp : Helpers) (self : Predictor)
    (tokens : sentence) (r : row) :
  debug_force_edit self = false →
  py_max (label_ids r) = Ok (keep_id self)
  ∨ (label_ids r ≠ [] ∧ (incor_prob r < min_error_probability self)%Q) →
  postprocess_one hp self tokens r = Ok tokens.
Proof.
  intros Hd [Hk|[Hne Hlow]]; unfold postprocess_one.
  - unfold sentence_edits. rewrite Hk, Hd. cbn.
    by rewrite bool_decide_eq_true_2.
  - by rewrite (sentence_edits_guard_low _ _ _ _ Hne Hlow).
Qed.

(** X13. A tagger under which every sentence is skipped leaves every
    batch as it is: without the debug flag, with at least one pass and a
    batch that has a non-empty sentence of at least [min_seq_len] words,
    [handle_batch] returns the input batch and a counter of 0 after a
    single pass, whatever [iteration_count] is. *)
Theorem skipped_batch_is_returned (hp : Helpers) (self : Predictor)
    (full_batch : list sentence) :
  debug_force_edit self = false →
  skips_every_sentence hp self →
  1 ≤ iteration_count self →
  (∃ i s, full_batch !! i = Some s
          ∧ ¬ (Z.of_nat (length s) < min_seq_len self) ∧ s ≠ []) →
  handle_batch hp self full_batch = Ok (full_batch, 0)
  ∧ iteration hp self 0 (init_state self full_batch)
    = Ok ({| final_batch := full_batch; pred_ids := [];
             prev_preds_dict := prev_preds_dict (init_state self full_batch);
             total_updates := 0 |}, true).
Proof.
  intros Hd Hskip Hn (i0 & s0 & Hi0 & Hlong0 & Hne0).
  pose (g := λ id : nat, default [] (full_batch !! id)).
  pose (ids := pred_ids (init_state self full_batch)).
  assert (Hact : ∀ id, id ∈ ids → full_batch !! id = Some (g id)).
  { intros id (s & Hs & _)%elem_of_init_pred_ids. unfold g. by rewrite Hs. }
  assert (Hori : forM (list_item full_batch) ids = Ok (g <$> ids)).
  { apply forM_ok. intros id Hid. unfold list_item. by rewrite (Hact id Hid). }
  assert (Hpre : preprocess hp self (g <$> ids)
                 = Some ((λ words, START_TOKEN hp :: words) <$> (g <$> ids),
                         (λ words, encode_length self (START_TOKEN hp :: words))
                           <$> (g <$> ids))).
  { apply (preprocess_some hp self _ s0); [|done].
    apply list_elem_of_fmap. exists i0. unfold g. rewrite Hi0. split; [done|].
    apply elem_of_init_pred_ids. eauto. }
  assert (Hids : ids ≠ []).
  { intros Hnil. assert (i0 ∈ ids) as Hin by (apply elem_of_init_pred_ids; eauto).
    rewrite Hnil in Hin. by apply elem_of_nil in Hin. }
  assert (Htag : tagging hp self 0 (init_state self full_batch)
                 = Ok (Some (g <$> ids))).
  { unfold tagging.
    change (final_batch (init_state self full_batch)) with full_batch.
    fold ids. rewrite Hori, result_bind_ok, Hpre.
    destruct ((λ words, START_TOKEN hp :: words) <$> (g <$> ids))
      as [|w ws] eqn:Ed.
    { apply fmap_nil_inv, fmap_nil_inv in Ed. done. }
    cbv beta iota. rewrite <- Ed.
    specialize (Hskip 0%nat (g <$> ids)). cbv zeta in Hskip.
    destruct (model self 0 _) as [[probs lids] incor].
    cbn [fst snd] in Hskip. destruct Hskip as (Hp & Hl & Hc & Hrows).
    unfold postprocess. rewrite postprocess_rows_identity; [done| |].
    - rewrite zip_rows_length, Hp, Hl, Hc, length_fmap. lia.
    - intros k tokens r _ (_ & _ & Hr2 & Hr3)%zip_rows_lookup.
      apply postprocess_one_skipped; [done|].
      exact (Hrows k _ _ Hr2 Hr3). }
  assert (Hupd : update_final_batch full_batch ids (g <$> ids)
                   (prev_preds_dict (init_state self full_batch))
                 = Ok {| m_final_batch := full_batch; new_pred_ids := [];
                         total_updated := 0;
                         m_prev_preds_dict :=
                           prev_preds_dict (init_state self full_batch) |}).
  { apply update_loop_all_equal. intros k id Hk.
    cbn [m_final_batch m_prev_preds_dict Nat.add].
    assert (Hid : id ∈ ids) by (by eapply list_elem_of_lookup_2).
    exists (g id). rewrite list_lookup_fmap, Hk, history_lookup, (Hact id Hid).
    cbn. eauto. }
  assert (Hit : iteration hp self 0 (init_state self full_batch)
                = Ok ({| final_batch := full_batch; pred_ids := [];
                         prev_preds_dict :=
                           prev_preds_dict (init_state self full_batch);
                         total_updates := 0 |}, true)).
  { unfold iteration. rewrite Htag.
    change (final_batch (init_state self full_batch)) with full_batch.
    fold ids. by rewrite Hupd. }
  split; [|exact Hit]. unfold handle_batch.
  destruct (Z.to_nat (iteration_count self)) as [|fuel] eqn:E; [lia|].
  cbn [loop]. by rewrite Hit.
Qed.

Lemma keep_model_skips :
  skips_every_sentence gector_helpers (demo_predictor 3 1 keep_model).
Proof.
  intros n seqs. cbn. rewrite !length_fmap. repeat split.
  intros k l c Hl _. left.
  rewrite !list_lookup_fmap in Hl.
  destruct (seqs !! k) as [s|]; [|done]. cbn in Hl. injection Hl as <-.
  apply (py_max_all_eq 0); [done|].
  constructor; [done|]. apply Forall_fmap, Forall_forall. done.
Qed.

Lemma skipped_batch_is_returned_witness :
  handle_batch gector_helpers (demo_predictor 3 1 keep_model) [["a"; "b"]; []]
  = Ok ([["a"; "b"]; []], 0)
  ∧ iteration gector_helpers (demo_predictor 3 1 keep_model) 0
      (init_state (demo_predictor 3 1 keep_model) [["a"; "b"]; []])
    = Ok ({| final_batch := [["a"; "b"]; []]; pred_ids := [];
             prev_preds_dict :=
               prev_preds_dict
                 (init_state (demo_predictor 3 1 keep_model) [["a"; "b"]; []]);
             total_updates := 0 |}, true).
Proof.
  apply (skipped_batch_is_returned gector_helpers
           (demo_predictor 3 1 keep_model) [["a"; "b"]; []]).
  - reflexivity.
  - exact keep_model_skips.
  - cbn. lia.
  - exists 0%nat, ["a"; "b"]. repeat split; [cbn; lia|done].
Defined.

Lemma init_pred_ids_single (self : Predictor) (A : sentence) :
  ¬ (Z.of_nat (length A) < min_seq_len self) →
  pred_ids (init_state self [A]) = [0%nat].
Proof.
  intros Hlong.
  assert (H0 : 0%nat ∈ pred_ids (init_state self [A]))
    by (apply elem_of_init_pred_ids; eauto).
  pose proof (NoDup_init_pred_ids self [A]) as Hnd.
  assert (Hall : ∀ id, id ∈ pred_ids (init_state self [A]) → id = 0%nat).
  { intros id (s & Hs & _)%elem_of_init_pred_ids.
    apply lookup_lt_Some in Hs. cbn in Hs. lia. }
  destruct (pred_ids (init_state self [A])) as [|x [|y l]].
  - by apply elem_of_nil in H0.
  - by rewrite (Hall x (list_elem_of_here _ _)).
  - exfalso. apply NoDup_cons in Hnd as [Hx _]. apply Hx.
    rewrite (Hall x), (Hall y); [apply list_elem_of_here| |apply list_elem_of_here].
    apply list_elem_of_further, list_elem_of_here.
Qed.

(** X14. A sentence whose proposals alternate between two sequences:
    with a sentence-by-sentence tagger that turns [A] into [B] and [B] into
    [A], and at least two passes, [handle_batch] on the batch [[A]] writes
    [B] in the first pass, finds [A] in the history in the second, writes
    it back and stops. The batch returned is the input, and the counter is
    2: a positive counter does not mean that the batch has changed. *)
Theorem oscillation_counts_twice (hp : Helpers) (self : Predictor)
    (tag : list string → list Q * list Z * Q) (A B : sentence) :
  sentencewise self tag →
  2 ≤ iteration_count self →
  ¬ (Z.of_nat (length A) < min_seq_len self) →
  A ≠ [] → B ≠ [] → A ≠ B →
  propose hp self tag A = Ok B →
  propose hp self tag B = Ok A →
  handle_batch hp self [A] = Ok ([A], 2).
Proof.
  intros Htag Hn Hlong HA HB HAB HpA HpB. unfold handle_batch.
  destruct (Z.to_nat (iteration_count self)) as [|[|fuel]] eqn:E; [lia..|].
  assert (Hhist : prev_preds_dict (init_state self [A]) !! 0%nat = Some [A])
    by (by rewrite history_lookup).
  assert (H1 : iteration hp self 0 (init_state self [A])
               = Ok ({| final_batch := [B]; pred_ids := [0%nat];
                        prev_preds_dict :=
                          <[0%nat := [A; B]]>
                            (prev_preds_dict (init_state self [A]));
                        total_updates := 1 |}, false)).
  { unfold iteration. rewrite (tagging_sentencewise hp self tag Htag).
    rewrite (init_pred_ids_single self A Hlong).
    change (final_batch (init_state self [A])) with [A].
    change (forM (list_item [A]) [0%nat]) with (Ok [A]).
    rewrite !result_bind_ok.
    rewrite (preprocess_some hp self [A] A) by (done || apply list_elem_of_here).
    cbn [forM]. rewrite HpA, !result_bind_ok.
    unfold update_final_batch. cbn [update_loop].
    rewrite (update_one_cases [B] 0 0 _ A B [A]) by done.
    unfold merged. rewrite bool_decide_eq_false_2 by done.
    rewrite bool_decide_eq_false_2.
    - done.
    - intros Hin%list_elem_of_singleton. by apply HAB. }
  assert (H2 : iteration hp self 1
                 {| final_batch := [B]; pred_ids := [0%nat];
                    prev_preds_dict :=
                      <[0%nat := [A; B]]>
                        (prev_preds_dict (init_state self [A]));
                    total_updates := 1 |}
               = Ok ({| final_batch := [A]; pred_ids := [];
                        prev_preds_dict :=
                          <[0%nat := [A; B]]>
                            (prev_preds_dict (init_state self [A]));
                        total_updates := 2 |}, true)).
  { unfold iteration. rewrite (tagging_sentencewise hp self tag Htag).
    cbn [final_batch pred_ids prev_preds_dict total_updates].
    change (forM (list_item [B]) [0%nat]) with (Ok [B]).
    rewrite !result_bind_ok.
    rewrite (preprocess_some hp self [B] B) by (done || apply list_elem_of_here).
    cbn [forM]. rewrite HpB, !result_bind_ok.
    unfold update_final_batch. cbn [update_loop].
    rewrite (update_one_cases [A] 0 0 _ B A [A; B]);
      [|done|done|cbn; by rewrite lookup_insert_eq].
    unfold merged. rewrite bool_decide_eq_false_2 by done.
    rewrite bool_decide_eq_true_2 by apply list_elem_of_here.
    done. }
  cbn [loop]. rewrite H1, H2. done.
Qed.

Lemma oscillation_counts_twice_witness :
  handle_batch gector_helpers (demo_predictor 2 1 flip_model) [["c"]]
  = Ok ([["c"]], 2).
Proof.
  apply (oscillation_counts_twice gector_helpers
           (demo_predictor 2 1 flip_model) flip_tag ["c"] ["z"]).
  - intros n batch. reflexivity.
  - cbn. lia.
  - cbn. lia.
  - discriminate.
  - discriminate.
  - discriminate.
  - vm_compute. reflexivity.
  - vm_compute. reflexivity.
Defined.

(** ** A sentence does not depend on its batch *)

Section Independence.

Variable hp : Helpers.
Variable self : Predictor.
Variable tag : list string → list Q * list Z * Q.
Hypothesis Htag : sentencewise self tag.

(** Under a sentence-by-sentence tagger, what a pass does to an active
    sentence is decided by the proposal for its current sequence. *)
Lemma iteration_proposals (n : nat) (st st' : loop_state) (stop : bool)
    (id : nat) :
  NoDup (pred_ids st) →
  iteration hp self n st = Ok (st', stop) →
  id ∈ pred_ids st →
  ∃ cur pred h,
    final_batch st !! id = Some cur
    ∧ prev_preds_dict st !! id = Some h
    ∧ propose hp self tag cur = Ok pred
    ∧ final_batch st' !! id = Some pred
    ∧ ((pred = cur ∧ prev_preds_dict st' !! id = Some h
        ∧ id ∉ pred_ids st')
       ∨ (pred ≠ cur ∧ pred ∈ h ∧ prev_preds_dict st' !! id = Some h
          ∧ id ∉ pred_ids st')
       ∨ (pred ≠ cur ∧ (pred ∉ h)
          ∧ prev_preds_dict st' !! id = Some (h ++ [pred])
          ∧ id ∈ pred_ids st')).
Proof.
  intros Hnd Hit (k & Hk)%list_elem_of_lookup_1.
  apply iteration_inv in Hit as (pb & m & Htg & Hm & -> & _). cbn.
  rewrite (tagging_sentencewise hp self tag Htag) in Htg.
  destruct (forM (list_item (final_batch st)) (pred_ids st))
    as [ori_batch|] eqn:Eo; [|done].
  rewrite result_bind_ok in Htg.
  destruct (preprocess hp self ori_batch); [|done].
  destruct (forM (propose hp self tag) ori_batch) as [pb'|] eqn:Ep; [|done].
  rewrite result_bind_ok in Htg. injection Htg as ->.
  apply forM_inv in Eo as [_ Ho]. apply forM_inv in Ep as [_ Hp].
  destruct (Ho k id Hk) as (cur & Hcur & Hli).
  destruct (Hp k cur Hcur) as (pred & Hpred & Hprop).
  unfold list_item in Hli.
  destruct (final_batch st !! id) as [cur'|] eqn:Ef; [|done].
  injection Hli as ->.
  unfold update_final_batch in Hm.
  destruct (update_loop_outcome _ _ _ _ _ Hnd Hm)
    as (added & cut & Hnew & _ & _ & _ & Hper).
  cbn in Hnew. rewrite Hnew.
  destruct (Hper k id Hk) as (cur' & pred' & h & Hc & Hpb & Hh & Hcases).
  cbn in Hc, Hpb, Hh.
  assert (cur' = cur) as -> by congruence.
  assert (pred' = pred) as -> by congruence.
  exists cur, pred, h. split; [done|]. split; [done|]. split; [done|].
  destruct Hcases as [(-> & Hf' & Hd & Ha & _)|[(Hne & Hin & Hf' & Hd & Ha & _)
    |(Hne & Hin & Hf' & Hd & Ha & _)]].
  - split; [done|]. left. by repeat split.
  - split; [done|]. right. left. by repeat split.
  - split; [done|]. right. right. by repeat split.
Qed.

(** The sentence at position [i] of a batch goes through the states of
    [track], whatever the other sentences are. *)
Lemma reachable_track (fb : list sentence) (n : nat) (st : loop_state)
    (i : nat) (s0 : sentence) :
  reachable hp self fb n st →
  fb !! i = Some s0 →
  ∃ t, track hp self tag n s0 = Ok t
    ∧ final_batch st !! i = Some (t_cur t)
    ∧ prev_preds_dict st !! i = Some (t_hist t)
    ∧ (i ∈ pred_ids st ↔ t_active t = true).
Proof.
  intros Hr Hi. induction Hr as [|n st st' stop Hr IH Hit].
  - eexists. split; [reflexivity|]. cbn [t_cur t_hist t_active].
    split; [done|]. split; [by rewrite history_lookup, Hi|].
    rewrite elem_of_init_pred_ids, negb_true_iff, Z.ltb_ge. split.
    + intros (s & Hs & Hlong). assert (s = s0) as -> by congruence. lia.
    + intros Hlong. exists s0. split; [done|lia].
  - destruct IH as (t & Ht & Hcur & Hhist & Hact).
    pose proof (reachable_NoDup _ _ _ _ _ Hr) as Hnd.
    cbn [track]. rewrite Ht, result_bind_ok. unfold track_step.
    destruct (t_active t) eqn:Ea.
    + assert (Hin : i ∈ pred_ids st) by (by apply Hact).
      destruct (iteration_proposals _ _ _ _ _ Hnd Hit Hin)
        as (cur & pred & h & Hc & Hh & Hp & Hf & Hcases).
      assert (cur = t_cur t) as -> by congruence.
      assert (h = t_hist t) as -> by congruence.
      rewrite Hp, result_bind_ok.
      destruct Hcases as [(-> & Hd & Hna)|[(Hne & Hmem & Hd & Hna)
        |(Hne & Hmem & Hd & Ha)]].
      * rewrite bool_decide_eq_false_2 by (intros H; by apply H).
        eexists. split; [reflexivity|]. cbn. repeat split; try done.
      * rewrite bool_decide_eq_true_2 by (intros H; by apply Hne).
        rewrite bool_decide_eq_false_2 by (intros H; by apply H).
        eexists. split; [reflexivity|]. cbn. repeat split; try done.
      * rewrite bool_decide_eq_true_2 by (intros H; by apply Hne).
        rewrite bool_decide_eq_true_2 by done.
        eexists. split; [reflexivity|]. cbn. repeat split; try done.
    + assert (Hout : i ∉ pred_ids st).
      { intros Hin. apply Hact in Hin. congruence. }
      destruct (iteration_outcome _ _ _ _ _ _ Hnd Hit) as (Hsub & Hfr & _).
      destruct (Hfr i Hout) as [Hf Hd].
      exists t. rewrite Hf, Hd, Ea. repeat split; try done.
      intros Hin. exfalso. apply Hout. by eapply elem_of_sublist.
Qed.

(** Once a sentence is inactive its state stays as it is. *)
Lemma track_inactive (n m : nat) (s0 : sentence) (t : track_state) :
  track hp self tag n s0 = Ok t → t_active t = false → (n ≤ m)%nat →
  track hp self tag m s0 = Ok t.
Proof.
  intros Ht Ha Hle. induction Hle as [|m Hle IH]; [done|].
  cbn [track]. rewrite IH, result_bind_ok. unfold track_step. by rewrite Ha.
Qed.

(** Where the loop ends: after all its passes, or after a pass that left
    no sentence active. *)
Lemma loop_end (fb : list sentence) (fuel n : nat) (st st' : loop_state) :
  reachable hp self fb n st →
  loop hp self fuel n st = Ok st' →
  ∃ n', reachable hp self fb n' st'
    ∧ (n ≤ n' ≤ n + fuel)%nat
    ∧ (n' = (n + fuel)%nat ∨ pred_ids st' = []).
Proof.
  revert n st. induction fuel as [|fuel IH]; intros n st Hr; cbn [loop].
  - intros [= <-]. exists n. split; [done|]. split; [lia|left; lia].
  - destruct (iteration hp self n st) as [[st1 stop]|] eqn:E; [|done].
    pose proof (reach_pass _ _ _ _ _ _ _ Hr E) as Hr1.
    destruct stop.
    + intros [= <-]. exists (S n). split; [done|]. split; [lia|]. right.
      apply iteration_inv in E as (pb & m & _ & _ & -> & Hstop). cbn.
      symmetry in Hstop. by apply bool_decide_eq_true in Hstop.
    + intros H. destruct (IH _ _ Hr1 H) as (n' & Hr' & Hn' & Hend).
      exists n'. split; [done|]. split; [lia|].
      destruct Hend as [->|Hend]; [left; lia|by right].
Qed.

End Independence.



(** ** The exceptions of a run *)

Lemma forM_raises {A B : Type} (f : A → result B) (l : list A) (e : exn) :
  forM f l = Raise e → ∃ x, x ∈ l ∧ f x = Raise e.
Proof.
  induction l as [|x l IH]; cbn; [done|].
  destruct (f x) as [y|e'] eqn:Ef; cbn.
  - destruct (forM f l) as [ys|e'']; cbn; [done|].
    intros [= ->]. destruct (IH eq_refl) as (x' & Hin & Hx').
    exists x'. split; [by apply list_elem_of_further|done].
  - intros [= ->]. exists x. split; [apply list_elem_of_here|done].
Qed.

Lemma foldM_raises {A B : Type} (body : B → A → result B) (acc : B)
    (l : list A) (e : exn) :
  foldM body acc l = Raise e → ∃ b x, x ∈ l ∧ body b x = Raise e.
Proof.
  revert acc. induction l as [|x l IH]; intros acc; cbn; [done|].
  destruct (body acc x) as [b|e'] eqn:Eb; cbn.
  - intros H. destruct (IH _ H) as (b' & x' & Hin & Hx').
    exists b', x'. split; [by apply list_elem_of_further|done].
  - intros [= ->]. exists acc, x. split; [apply list_elem_of_here|done].
Qed.

Lemma py_getitem_raises {A : Type} (l : list A) (i : Z) (e : exn) :
  py_getitem l i = Raise e → e = IndexError.
Proof.
  unfold py_getitem. cbv zeta. destruct (_ || _); [congruence|].
  destruct (l !! _); congruence.
Qed.

Lemma get_label_action_raises (hp : Helpers) (self : Predictor)
    (token : string) (idx : Z) (p : Q) (label : string) (e : exn) :
  get_label_action hp self token idx p label = Raise e →
  e = ValueError ∨ e = UnboundLocalError.
Proof.
  unfold get_label_action. destruct (Qltb p _); [done|].
  destruct (bool_decide (label ∈ _)); [done|].
  destruct (bool_decide (label = "$DELETE")); cbn.
  - destruct (_ || _); [done|]. destruct (_ || _); [done|].
    intros [= <-]. by right.
  - destruct (startswith label "$TRANSFORM_" || startswith label "$MERGE_");
      cbn.
    + destruct (_ || _); [done|]. destruct (_ || _); [done|].
      intros [= <-]. by right.
    + unfold str_index. destruct (index 0 "_" label); cbn.
      * destruct (_ || _); [done|]. destruct (_ || _); [done|].
        intros [= <-]. by right.
      * intros [= <-]. by left.
Qed.

Lemma postprocess_one_raises (hp : Helpers) (self : Predictor)
    (tokens : sentence) (r : row) (e : exn) :
  postprocess_one hp self tokens r = Raise e →
  e = ValueError ∨ e = IndexError ∨ e = UnboundLocalError.
Proof.
  unfold postprocess_one, sentence_edits.
  destruct (py_max (label_ids r)) as [m|e'] eqn:Em; cbn.
  - destruct (_ && _); [done|]. destruct (Qltb _ _); [done|].
    destruct (scan_edits hp self tokens r _) as [es|e'] eqn:Es; cbn.
    + by destruct es.
    + intros [= ->]. unfold scan_edits in Es.
      apply foldM_raises in Es as (es & idx & _ & Hs).
      unfold scan_step in Hs.
      destruct (if bool_decide (idx = 0) then _ else _) as [token|e1] eqn:Et;
        cbn in Hs.
      * destruct (py_getitem (label_ids r) idx) as [lid|e2] eqn:El; cbn in Hs.
        -- destruct (bool_decide (lid = keep_id self)); [done|].
           destruct (re_search_space token); [done|].
           destruct (py_getitem (label_probs r) idx) as [p|e3] eqn:Ep;
             cbn in Hs.
           ++ destruct (get_label_action _ _ _ _ _ _) as [[a|]|e4] eqn:Ea;
                cbn in Hs; try done.
              injection Hs as ->.
              apply get_label_action_raises in Ea as [->| ->]; auto.
           ++ injection Hs as ->. apply py_getitem_raises in Ep as ->. auto.
        -- injection Hs as ->. apply py_getitem_raises in El as ->. auto.
      * injection Hs as ->. case_bool_decide; [done|].
        apply py_getitem_raises in Et as ->. auto.
  - intros [= ->]. destruct (label_ids r); [|done]. injection Em as <-. auto.
Qed.

Lemma update_loop_raises_index (pred_batch : list sentence) (ids : list nat)
    (i : nat) (st : merge_state) (e : exn) :
  (∀ id, id ∈ ids →
     (id < length (m_final_batch st))%nat
     ∧ is_Some (m_prev_preds_dict st !! id)) →
  update_loop pred_batch i ids st = Raise e → e = IndexError.
Proof.
  revert i st. induction ids as [|id0 ids IH]; intros i st Hin; cbn; [done|].
  destruct (Hin id0) as [Hlt [h Hh]]; [apply list_elem_of_here|].
  destruct (lookup_lt_is_Some_2 _ _ Hlt) as [cur Hcur].
  destruct (pred_batch !! i) as [pred|] eqn:Hpred.
  - rewrite (update_one_cases _ _ _ _ _ _ _ Hcur Hpred Hh). cbn.
    apply IH. intros id Hid.
    destruct (Hin id) as [Hl Hs]; [by apply list_elem_of_further|].
    rewrite merged_length. split; [done|].
    by apply (merged_dom id0 cur pred h st id Hh).
  - unfold update_one, list_item. rewrite Hcur, Hpred. cbn. congruence.
Qed.

Section RunExceptions.

Variable hp : Helpers.
Variable self : Predictor.
Variable fb : list sentence.

(** In every state of a run the active ids are positions of the batch
    with a history. *)
Lemma reachable_ids_ok (n : nat) (st : loop_state) (id : nat) :
  reachable hp self fb n st → id ∈ pred_ids st →
  (id < length (final_batch st))%nat ∧ is_Some (prev_preds_dict st !! id).
Proof.
  intros Hr. revert id. induction Hr as [|n st st' stop Hr IH Hit]; intros id.
  - intros (s & Hs & _)%elem_of_init_pred_ids.
    rewrite history_lookup, Hs. split; [by eapply lookup_lt_Some|by eexists].
  - pose proof (reachable_NoDup _ _ _ _ _ Hr) as Hnd.
    destruct (iteration_outcome _ _ _ _ _ _ Hnd Hit) as (Hsub & _ & Hin).
    intros Hid. assert (Hid0 : id ∈ pred_ids st) by (by eapply elem_of_sublist).
    destruct (Hin id Hid0) as (cur & pred & h & _ & _ & Hf & Hcases).
    split; [by eapply lookup_lt_Some|].
    destruct Hcases as [(_ & -> & _)|[(_ & _ & -> & _)|(_ & _ & -> & _)]];
      by eexists.
Qed.

Lemma iteration_raises (n : nat) (st : loop_state) (e : exn) :
  reachable hp self fb n st →
  iteration hp self n st = Raise e →
  e = ValueError ∨ e = IndexError ∨ e = UnboundLocalError.
Proof.
  intros Hr. unfold iteration.
  destruct (tagging hp self n st) as [[pb|]|e'] eqn:Et.
  - destruct (update_final_batch _ _ _ _) as [m|e'] eqn:Em; cbn; [done|].
    intros [= ->]. unfold update_final_batch in Em.
    apply update_loop_raises_index in Em as ->; [auto|].
    intros id Hid. by apply (reachable_ids_ok n).
  - done.
  - intros [= ->]. unfold tagging in Et.
    destruct (forM (list_item (final_batch st)) (pred_ids st))
      as [ori_batch|e0] eqn:Eo; cbn in Et.
    + destruct (preprocess hp self ori_batch) as [[d l]|]; [|injection Et; auto].
      destruct d; [done|].
      destruct (model self n _) as [[probs ids] incor].
      destruct (postprocess hp self ori_batch l probs ids incor)
        as [pb|e1] eqn:Ep; cbn in Et; [done|]. injection Et as ->.
      unfold postprocess, postprocess_rows in Ep.
      apply forM_raises in Ep as ([tokens r] & _ & Hp).
      by apply postprocess_one_raises in Hp.
    + injection Et as ->. apply forM_raises in Eo as (id & _ & Hid).
      unfold list_item in Hid. destruct (final_batch st !! id); [done|].
      injection Hid as <-. auto.
Qed.

End RunExceptions.



(** ** The run over the store and the run over values *)

(** X17. The embedding that keeps the list objects and the embedding over
    values describe the same run. Called with a reference to a list whose
    items stand for the sentences [vs], [handle_batch] over the store
    raises what [handle_batch] raises on [vs]; and when one returns, so
    does the other, with the same counter and with a reference to a list
    that stands for the batch returned on [vs]. *)
Theorem handle_batch_over_store (hp : Helpers) (self : Predictor)
    (full_batch : Refs.loc) (σ : Refs.store) (vs : list sentence) :
  Refs.batch_value σ full_batch = Some vs →
  (∀ e, handle_batch hp self vs = Raise e
        ↔ (Refs.handle_batch hp self full_batch σ).1 = Raise e)
  ∧ (∀ out total,
       handle_batch hp self vs = Ok (out, total)
       ↔ ∃ b, (Refs.handle_batch hp self full_batch σ).1 = Ok (b, total)
              ∧ Refs.batch_value (Refs.handle_batch hp self full_batch σ).2 b
                = Some out).
Proof.
  intros Hb. pose proof (store_run_agrees hp self full_batch σ vs Hb) as Hag.
  unfold agree in Hag.
  destruct (Refs.handle_batch hp self full_batch σ) as [[[b n]|e1] σ'];
    destruct (handle_batch hp self vs) as [[out total]|e2]; cbn in *;
    try done.
  - destruct Hag as [-> Hv]. split.
    + intros e. split; discriminate.
    + intros out' total'. split.
      * intros [= <- <-]. eauto.
      * intros (b' & [= <- <-] & Hv'). congruence.
  - subst e2. split.
    + intros e. split; intros [= <-]; done.
    + intros out total. split; [discriminate|]. by intros (b & ? & _).
Qed.

Lemma handle_batch_over_store_witness :
  (∀ e, handle_batch gector_helpers (demo_predictor 5 2 (const_model [0; 0; 1]))
          [["a"; "b"]; ["c"]] = Raise e
        ↔ (Refs.handle_batch gector_helpers
             (demo_predictor 5 2 (const_model [0; 0; 1])) 2%nat demo_store).1
          = Raise e)
  ∧ (∀ out total,
       handle_batch gector_helpers (demo_predictor 5 2 (const_model [0; 0; 1]))
         [["a"; "b"]; ["c"]] = Ok (out, total)
       ↔ ∃ b, (Refs.handle_batch gector_helpers
                 (demo_predictor 5 2 (const_model [0; 0; 1])) 2%nat
                 demo_store).1 = Ok (b, total)
              ∧ Refs.batch_value
                  (Refs.handle_batch gector_helpers
                     (demo_predictor 5 2 (const_model [0; 0; 1])) 2%nat
                     demo_store).2 b
                = Some out).
Proof.
  apply (handle_batch_over_store gector_helpers
           (demo_predictor 5 2 (const_model [0; 0; 1])) 2%nat demo_store
           [["a"; "b"]; ["c"]]).
  reflexivity.
Defined.

(** ** The items of the returned batch *)

Section Preserves.

Context {P : Refs.store → Prop}.

Lemma preserves_ret {A : Type} (a : A) (Q : A → Prop) :
  Q a → preserves P (Refs.ret a) Q.
Proof. intros HQ σ Hσ. split; [done|]. by intros a' [= <-]. Qed.

Lemma preserves_lift {A : Type} (r : result A) :
  preserves P (Refs.lift r) (λ a, r = Ok a).
Proof. intros σ Hσ. split; [done|]. by intros a Ha. Qed.

Lemma preserves_weaken {A : Type} (m : Refs.M A) (Q R : A → Prop) :
  preserves P m Q → (∀ a, Q a → R a) → preserves P m R.
Proof.
  intros Hm HQR σ Hσ. destruct (Hm σ Hσ) as [H1 H2]. split; [done|]. eauto.
Qed.

Lemma preserves_bind {A B : Type} (m : Refs.M A) (k : A → Refs.M B)
    (Q : A → Prop) (R : B → Prop) :
  preserves P m Q → (∀ a, Q a → preserves P (k a) R) →
  preserves P (Refs.bind m k) R.
Proof.
  intros Hm Hk σ Hσ. unfold Refs.bind.
  destruct (Hm σ Hσ) as [H1 H2]. destruct (m σ) as [[a|e] σ1]; cbn in *.
  - by apply (Hk a (H2 a eq_refl)).
  - split; [done|]. intros b [=].
Qed.

Lemma preserves_forS {A B : Type} (f : A → Refs.M B) (Q : A → B → Prop)
    (l : list A) :
  (∀ x, preserves P (f x) (Q x)) →
  preserves P (Refs.forS f l) (λ ys, Forall2 Q l ys).
Proof.
  intros Hf. induction l as [|x l IH]; cbn.
  - apply preserves_ret. constructor.
  - eapply preserves_bind; [apply Hf|]. intros y Hy.
    eapply preserves_bind; [apply IH|]. intros ys Hys.
    apply preserves_ret. by constructor.
Qed.

End Preserves.

Section SharesFacts.

Variable hp : Helpers.
Variable self : Predictor.
Variable refs0 : list Refs.loc.
Variable n0 : nat.
Variable b : Refs.loc.

Abbreviation Sh := (shares refs0 n0 b).

Lemma shares_read_words (l : Refs.loc) :
  preserves Sh (Refs.read_words l) (λ _, True).
Proof.
  intros σ Hσ. unfold Refs.read_words. repeat case_match; cbn; split; auto.
Qed.

Lemma shares_read_refs :
  preserves Sh (Refs.read_refs b)
    (λ rs, length rs = length refs0
           ∧ ∀ i l, rs !! i = Some l → shared_or_new refs0 n0 i l).
Proof.
  intros σ Hσ. unfold Refs.read_refs.
  destruct Hσ as [Hn (rs & Hb & Hlen & Hrs)]. rewrite Hb. cbn.
  split; [split; eauto|]. by intros a [= <-].
Qed.

Lemma shares_alloc (o : Refs.obj) :
  preserves Sh (Refs.alloc o) (λ l, (n0 ≤ l)%nat).
Proof.
  intros σ [Hn (rs & Hb & Hlen & Hrs)]. cbn. split.
  - split; [rewrite length_app; lia|]. exists rs.
    split; [|done]. rewrite lookup_app_l; [done|by eapply lookup_lt_Some].
  - by intros a [= <-].
Qed.

Lemma shares_set_item (i : nat) (r : Refs.loc) :
  shared_or_new refs0 n0 i r →
  preserves Sh (Refs.set_item b i r) (λ _, True).
Proof.
  intros Hr σ [Hn (rs & Hb & Hlen & Hrs)]. unfold Refs.set_item. rewrite Hb.
  case_bool_decide as Hi; cbn; (split; [|done]).
  - split; [by rewrite length_insert|]. exists (<[i := r]> rs).
    split; [apply list_lookup_insert_eq; by eapply lookup_lt_Some|].
    split; [by rewrite length_insert|].
    intros j l Hj. destruct (decide (j = i)) as [->|Hne].
    + rewrite list_lookup_insert_eq in Hj by done. by injection Hj as <-.
    + rewrite list_lookup_insert_ne in Hj by done. by apply Hrs.
  - split; [done|]. by exists rs.
Qed.

Lemma shares_postprocess_one (tokens : Refs.loc) (r : row) :
  preserves Sh (Refs.postprocess_one hp self tokens r)
    (λ l, l = tokens ∨ (n0 ≤ l)%nat).
Proof.
  unfold Refs.postprocess_one.
  eapply preserves_bind; [apply shares_read_words|]. intros ws _.
  eapply preserves_bind; [apply preserves_lift|]. intros [[|a edits]|] _;
    try (apply preserves_ret; by left).
  eapply preserves_weaken; [apply shares_alloc|]. intros l Hl. by right.
Qed.

Lemma shares_update_one (pred_batch : list Refs.loc) (i ori_id : nat)
    (st : Refs.merge_state) :
  (∀ l, pred_batch !! i = Some l → shared_or_new refs0 n0 ori_id l) →
  preserves Sh (Refs.update_one b pred_batch i ori_id st) (λ _, True).
Proof.
  intros Hgood. unfold Refs.update_one.
  eapply preserves_bind; [apply shares_read_refs|]. intros refs _.
  eapply preserves_bind; [apply preserves_lift|]. intros ori_tokens _.
  eapply preserves_bind; [apply preserves_lift|]. intros pred_tokens Hpred.
  assert (Hp : shared_or_new refs0 n0 ori_id pred_tokens).
  { apply Hgood. unfold list_item in Hpred.
    destruct (pred_batch !! i); [by injection Hpred as ->|done]. }
  eapply preserves_bind; [apply preserves_lift|]. intros prev_preds _.
  eapply preserves_bind; [apply shares_read_words|]. intros ori_words _.
  eapply preserves_bind; [apply shares_read_words|]. intros pred_words _.
  case_bool_decide; [|by apply preserves_ret].
  eapply preserves_bind.
  { apply (preserves_forS _ (λ _ _, True)). intros x. apply shares_read_words. }
  intros prev_words _.
  case_bool_decide;
    (eapply preserves_bind; [by apply shares_set_item|]; intros _ _;
     by apply preserves_ret).
Qed.

Lemma shares_update_loop (pred_batch : list Refs.loc) (ids : list nat)
    (i : nat) (st : Refs.merge_state) :
  (∀ k id l, ids !! k = Some id → pred_batch !! (i + k)%nat = Some l →
     shared_or_new refs0 n0 id l) →
  preserves Sh (Refs.update_loop b pred_batch i ids st) (λ _, True).
Proof.
  revert i st. induction ids as [|id ids IH]; intros i st Hgood; cbn.
  - by apply preserves_ret.
  - eapply preserves_bind.
    + apply shares_update_one. intros l Hl. apply (Hgood 0%nat id l); [done|].
      by rewrite Nat.add_0_r.
    + intros st' _. apply IH. intros k id' l Hk Hl.
      apply (Hgood (S k) id' l); [done|].
      by replace (i + S k)%nat with (S i + k)%nat by lia.
Qed.

Lemma shares_iteration (n : nat) (st : Refs.loop_state) :
  Refs.final_batch st = b →
  preserves Sh (Refs.iteration hp self n st)
    (λ r, Refs.final_batch r.1 = b).
Proof.
  intros Hfb. unfold Refs.iteration. rewrite Hfb.
  eapply preserves_bind; [apply shares_read_refs|]. intros refs [_ Hrefs].
  eapply preserves_bind; [apply preserves_lift|]. intros ori_batch Hori.
  eapply preserves_bind.
  { apply (preserves_forS _ (λ _ _, True)). intros x. apply shares_read_words. }
  intros ori_words _.
  destruct (preprocess hp self ori_words) as [[d l]|];
    [|intros σ Hσ; by split].
  destruct d; [by apply preserves_ret|].
  destruct (model self n _) as [[lp li] inc].
  eapply preserves_bind.
  { unfold Refs.postprocess.
    apply (preserves_forS _ (λ tr l, l = tr.1 ∨ (n0 ≤ l)%nat)).
    intros tr. apply shares_postprocess_one. }
  intros pred_batch Hpb.
  eapply preserves_bind; [|intros m _; by apply preserves_ret].
  apply shares_update_loop. intros k id pl Hk Hpl. cbn in Hpl.
  destruct (Forall2_lookup_r _ _ _ _ _ Hpb Hpl) as ([tokens r] & Hz & Hl).
  cbn in Hl. destruct Hl as [->|Hnew]; [|by right].
  apply lookup_zip_with_Some in Hz as (t' & r' & [= <- <-] & Ht & _).
  apply forM_inv in Hori as [_ Hori].
  destruct (Hori k id Hk) as (t' & Ht' & Hli).
  assert (t' = tokens) as -> by congruence.
  unfold list_item in Hli. destruct (refs !! id) as [x|] eqn:Ex; [|done].
  injection Hli as ->. by apply Hrefs.
Qed.

Lemma shares_loop (fuel n : nat) (st : Refs.loop_state) :
  Refs.final_batch st = b →
  preserves Sh (Refs.loop hp self fuel n st)
    (λ st', Refs.final_batch st' = b).
Proof.
  revert n st. induction fuel as [|fuel IH]; intros n st Hfb; cbn.
  - by apply preserves_ret.
  - eapply preserves_bind; [by apply shares_iteration|]. intros [st1 stop] Heq.
    cbn in *. destruct stop; [by apply preserves_ret|]. by apply IH.
Qed.

End SharesFacts.

(** X18. Which objects the returned batch holds. [handle_batch] returns a
    new list object with as many items as the input list, and each of its
    items is the very sentence object the input list holds at that position
    or an object created during the call: a sentence that was not replaced
    is shared with the caller, not copied. *)
Theorem returned_batch_shares_or_new (hp : Helpers) (self : Predictor)
    (full_batch : Refs.loc) (σ σ' : Refs.store) (refs0 : list Refs.loc)
    (b : Refs.loc) (n : Z) :
  σ !! full_batch = Some (Refs.ORefs refs0) →
  Refs.handle_batch hp self full_batch σ = (Ok (b, n), σ') →
  b = length σ
  ∧ ∃ rs, σ' !! b = Some (Refs.ORefs rs)
      ∧ length rs = length refs0
      ∧ ∀ i l, rs !! i = Some l →
          refs0 !! i = Some l ∨ (length σ < l)%nat.
Proof.
  intros Hfb. unfold Refs.handle_batch, Refs.init_state.
  unfold Refs.bind at 1 2. unfold Refs.read_refs at 1. rewrite Hfb.
  unfold Refs.bind at 1. cbn [Refs.alloc].
  set (σ1 := σ ++ [Refs.ORefs refs0]).
  assert (Hsh : shares refs0 (S (length σ)) (length σ) σ1).
  { split; [unfold σ1; rewrite length_app; cbn; lia|]. exists refs0.
    split; [unfold σ1; by rewrite lookup_app_r, Nat.sub_diag by lia|].
    split; [done|]. intros i l Hl. by left. }
  unfold Refs.bind at 1.
  destruct (preserves_forS (P := shares refs0 (S (length σ)) (length σ))
              Refs.read_words (λ _ _, True) refs0
              (λ x, shares_read_words refs0 _ _ x) σ1 Hsh) as [Hsh2 _].
  destruct (Refs.forS Refs.read_words refs0 σ1) as [[sents|e] σ2];
    [|discriminate].
  cbn [fst snd] in Hsh2. unfold Refs.ret at 1.
  unfold Refs.bind at 1.
  match goal with
  | |- context [Refs.loop hp self ?f 0 ?st] =>
      destruct (shares_loop hp self refs0 (S (length σ)) (length σ) f 0%nat st
                  eq_refl σ2 Hsh2) as [Hsh3 Hb3];
      destruct (Refs.loop hp self f 0 st σ2) as [[st3|e] σ3]; [|discriminate]
  end.
  cbn [fst snd] in Hsh3, Hb3. unfold Refs.ret. intros [= <- <- <-].
  rewrite (Hb3 st3 eq_refl). split; [done|].
  destruct Hsh3 as [_ (rs & Hrs & Hlen & Hall)].
  exists rs. split; [done|]. split; [done|].
  intros i l Hl. destruct (Hall i l Hl) as [?|?]; [by left|right; lia].
Qed.

Lemma returned_batch_shares_or_new_witness :
  3%nat = length demo_store
  ∧ ∃ rs, (demo_store ++ [Refs.ORefs [4%nat; 1%nat]; Refs.OWords ["c"; "b"];
                          Refs.OWords ["c"; "b"]]) !! 3%nat
          = Some (Refs.ORefs rs)
      ∧ length rs = length [0%nat; 1%nat]
      ∧ ∀ i l, rs !! i = Some l →
          [0%nat; 1%nat] !! i = Some l ∨ (length demo_store < l)%nat.
Proof.
  apply (returned_batch_shares_or_new gector_helpers
           (demo_predictor 3 2 (const_model [0; 2; 0])) 2%nat demo_store
           (demo_store ++ [Refs.ORefs [4%nat; 1%nat]; Refs.OWords ["c"; "b"];
                           Refs.OWords ["c"; "b"]])
           [0%nat; 1%nat] 3%nat 1).
  - reflexivity.
  - vm_compute. reflexivity.
Defined.

(** ** The inputs built for the model *)

Lemma py_repeat_length (v n : Z) :
  Z.of_nat (length (py_repeat v n)) = Z.max 0 n.
Proof. unfold py_repeat. rewrite length_fmap, length_seqZ. lia. Qed.

Lemma py_repeat_all (v n : Z) : Forall (λ x, x = v) (py_repeat v n).
Proof. unfold py_repeat. apply Forall_fmap, Forall_forall. done. Qed.

Lemma py_slice_to_length {A : Type} (l : list A) (n : Z) :
  Z.of_nat (length (py_slice_to l n))
  = if n <? 0 then Z.max 0 (Z.of_nat (length l) + n)
    else Z.min n (Z.of_nat (length l)).
Proof.
  unfold py_slice_to. rewrite length_take.
  destruct (Z.ltb_spec n 0); lia.
Qed.

(** X19. The inputs [preprocess] builds for the model. [preprocess]
    returns the bare [[]] exactly when every sequence is empty. Otherwise
    it builds one dictionary and one truncated length per sequence, empty
    sequences included, in the order of the batch. The truncated length is
    the one the tokenizer reports for the start-prefixed words, unclamped;
    the type ids are zeros and the attention mask ones, one per subword id;
    and the word mask has one 1 for each word left by
    [words[:truncated_seq_length]]: as many as the truncated length says
    when that is between 0 and the number of words plus one for the start
    marker, and never more than that number. *)
Theorem preprocess_dicts_shape {O : Type} (hp : Helpers)
    (encode : list string → list Z * O * Z) (seqs : list sentence) :
  (preprocess_dicts hp encode seqs = None ↔ Forall (λ s, s = []) seqs)
  ∧ ∀ dicts lens, preprocess_dicts hp encode seqs = Some (dicts, lens) →
      length dicts = length seqs
      ∧ length lens = length seqs
      ∧ ∀ k s, seqs !! k = Some s →
          ∃ d, dicts !! k = Some d
            ∧ lens !! k = Some (encode (START_TOKEN hp :: s)).2
            ∧ input_ids d = (encode (START_TOKEN hp :: s)).1.1
            ∧ offsets d = (encode (START_TOKEN hp :: s)).1.2
            ∧ length (token_type_ids d) = length (input_ids d)
            ∧ length (attention_mask d) = length (input_ids d)
            ∧ Forall (λ x, x = 0) (token_type_ids d)
            ∧ Forall (λ x, x = 1) (attention_mask d)
            ∧ Forall (λ x, x = 1) (word_mask d)
            ∧ Z.of_nat (length (word_mask d)) ≤ Z.of_nat (length s) + 1
            ∧ (0 ≤ (encode (START_TOKEN hp :: s)).2
                 ≤ Z.of_nat (length s) + 1 →
               Z.of_nat (length (word_mask d))
               = (encode (START_TOKEN hp :: s)).2).
Proof.
  unfold preprocess_dicts.
  destruct (filter (λ seq : sentence, seq ≠ []) seqs) as [|x xs] eqn:Ef; cbn.
  - split; [|done]. split; [intros _|done].
    apply Forall_forall. intros s Hs.
    destruct (decide (s = [])) as [->|Hne]; [done|].
    exfalso. by eapply (filter_nil_not_elem_of _ _ s Ef).
  - split.
    + split; [done|]. intros Hall. exfalso.
      assert (Hx : x ∈ filter (λ seq : sentence, seq ≠ []) seqs)
        by (rewrite Ef; apply list_elem_of_here).
      apply list_elem_of_filter in Hx as [Hne Hx].
      rewrite Forall_forall in Hall. by apply Hne, Hall.
    + intros dicts lens [= <- <-]. rewrite !length_fmap.
      split; [done|]. split; [done|]. intros k s Hk.
      rewrite !list_lookup_fmap, Hk. cbn. unfold preprocess_one.
      destruct (encode (START_TOKEN hp :: s)) as [[ids offs] t]. cbn.
      eexists. split; [reflexivity|]. cbn.
      split; [done|]. split; [done|]. split; [done|].
      split; [apply Nat2Z.inj; rewrite py_repeat_length; lia|].
      split; [apply Nat2Z.inj; rewrite py_repeat_length; lia|].
      split; [apply py_repeat_all|]. split; [apply py_repeat_all|].
      split; [apply py_repeat_all|].
      rewrite py_repeat_length.
      pose proof (py_slice_to_length (START_TOKEN hp :: s) t) as Hsl.
      cbn [length] in Hsl. rewrite Nat2Z.inj_succ in Hsl.
      split; [destruct (Z.ltb_spec t 0); lia|].
      intros Ht. destruct (Z.ltb_spec t 0); lia.
Qed.

(** The detailed [preprocess] and the [preprocess] of the loop agree:
    for a predictor whose [encode_length] is the third component of the
    tokenizer's result, both return the bare [[]] on the same batches, and
    otherwise the same truncated lengths. *)
Lemma preprocess_dicts_lengths {O : Type} (hp : Helpers) (self : Predictor)
    (encode : list string → list Z * O * Z) (seqs : list sentence) :
  (∀ words, encode_length self words = (encode words).2) →
  snd <$> preprocess hp self seqs = snd <$> preprocess_dicts hp encode seqs.
Proof.
  intros Henc. unfold preprocess, preprocess_dicts.
  destruct (filter (λ seq : sentence, seq ≠ []) seqs); cbn; [done|].
  f_equal. rewrite <- list_fmap_compose. apply list_fmap_ext.
  intros k s _. cbn. rewrite Henc. unfold preprocess_one.
  by destruct (encode (START_TOKEN hp :: s)) as [[ids offs] t].
Qed.

(** ** Loading the checkpoint *)

(** X20. What [init_model] leaves bound to [torch.load]. Whether the
    checkpoint is loaded at the first attempt, at the second or not at
    all, [torch.load] is bound in the end to what it was bound to when the
    first call of [load_checkpoint] ended: the patched loader of line 119
    is in place only during the second call. The second call is made only
    after an exception of class [Exception] whose message contains
    [weights_only], and then its outcome is the outcome of loading; any
    other exception of the first call is raised as it is. So when no
    library call rebinds [torch.load], [init_model] leaves it as it found
    it. *)
Theorem init_model_restores_torch_load {L W : Type}
    (add_safe_globals load_checkpoint
       : Checkpoint.world L W → option Checkpoint.error * Checkpoint.world L W)
    (weights_only_false : L → L) (w : Checkpoint.world L W) :
  let retried (w1 : Checkpoint.world L W) :=
    {| Checkpoint.torch_load := weights_only_false (Checkpoint.torch_load w1);
       Checkpoint.rest := Checkpoint.rest w1 |} in
  Checkpoint.torch_load
    (Checkpoint.load load_checkpoint weights_only_false w).2
  = Checkpoint.torch_load (load_checkpoint w).2
  ∧ (∀ e, (load_checkpoint w).1 = Some e →
       Checkpoint.is_Exception e
       && Checkpoint.contains "weights_only" (Checkpoint.message e) = false →
       Checkpoint.load load_checkpoint weights_only_false w
       = (Some e, (load_checkpoint w).2))
  ∧ (∀ e, (load_checkpoint w).1 = Some e →
       Checkpoint.is_Exception e
       && Checkpoint.contains "weights_only" (Checkpoint.message e) = true →
       (Checkpoint.load load_checkpoint weights_only_false w).1
       = (load_checkpoint (retried (load_checkpoint w).2)).1)
  ∧ ((∀ w', Checkpoint.torch_load (add_safe_globals w').2
            = Checkpoint.torch_load w') →
     (∀ w', Checkpoint.torch_load (load_checkpoint w').2
            = Checkpoint.torch_load w') →
     Checkpoint.torch_load
       (Checkpoint.init_model add_safe_globals load_checkpoint
          weights_only_false w).2
     = Checkpoint.torch_load w).
Proof.
  cbv zeta.
  assert (Hload : ∀ w0,
            Checkpoint.torch_load
              (Checkpoint.load load_checkpoint weights_only_false w0).2
            = Checkpoint.torch_load (load_checkpoint w0).2).
  { intros w0. unfold Checkpoint.load.
    destruct (load_checkpoint w0) as [[e|] w1]; [|done].
    destruct (Checkpoint.is_Exception e); [|done].
    destruct (Checkpoint.contains _ _); [|done].
    cbn [fst snd]. by destruct (load_checkpoint _). }
  split; [apply Hload|]. split; [|split].
  - intros e He Hno. unfold Checkpoint.load.
    destruct (load_checkpoint w) as [r w1]. cbn [fst snd] in *. subst r.
    destruct (Checkpoint.is_Exception e); [|done].
    cbn [andb] in Hno. by rewrite Hno.
  - intros e He Hyes. unfold Checkpoint.load.
    destruct (load_checkpoint w) as [r w1]. cbn [fst snd] in *. subst r.
    apply andb_true_iff in Hyes as [-> ->].
    by destruct (load_checkpoint _).
  - intros Ha Hl. unfold Checkpoint.init_model, Checkpoint.safe_globals.
    pose proof (Ha w) as Ha1.
    destruct (add_safe_globals w) as [[ea|] wa]; cbn [fst snd] in Ha1.
    + destruct (Checkpoint.is_AttributeError ea); [|done].
      by rewrite Hload, Hl.
    + by rewrite Hload, Hl.
Qed.

Lemma init_model_restores_torch_load_witness :
  Checkpoint.torch_load
    (Checkpoint.init_model (λ w, (None, w)) demo_load_checkpoint (λ _, true)
       {| Checkpoint.torch_load := false; Checkpoint.rest := 0%nat |}).2
  = false
  ∧ (Checkpoint.init_model (λ w, (None, w)) demo_load_checkpoint (λ _, true)
       {| Checkpoint.torch_load := false; Checkpoint.rest := 0%nat |}).1
    = None.
Proof.
  split; [|vm_compute; reflexivity].
  destruct (init_model_restores_torch_load (λ w, (None, w))
              demo_load_checkpoint (λ _, true)
              {| Checkpoint.torch_load := false; Checkpoint.rest := 0%nat |})
    as (_ & _ & _ & H).
  apply H.
  - intros w'. reflexivity.
  - intros [[] n]; reflexivity.
Defined.

(** ** When the decoding of a sentence returns *)

Lemma foldM_returns {A B : Type} (body : B → A → result B) (acc : B)
    (l : list A) :
  (∀ b x, x ∈ l → ∃ b', body b x = Ok b') → ∃ acc', foldM body acc l = Ok acc'.
Proof.
  revert acc. induction l as [|x l IH]; intros acc H; cbn; [eauto|].
  destruct (H acc x) as [b' ->]; [apply list_elem_of_here|]. cbn.
  apply IH. intros b y Hy. apply H. by apply list_elem_of_further.
Qed.

Lemma py_getitem_elem {A : Type} (l : list A) (i : Z) (x : A) :
  py_getitem l i = Ok x → x ∈ l.
Proof.
  unfold py_getitem. cbv zeta. destruct (_ || _); [done|].
  destruct (l !! _) eqn:E; [|done]. intros [= <-].
  by eapply list_elem_of_lookup_2.
Qed.


